(** * WrdHntr: the game-session engine (backend/app.js, backend/gameLogic.js)

    A shallow embedding of the server-side game logic and the properties
    its specification states about it.

    Conventions.
    - A JavaScript string is the list of its UTF-16 code units; [length]
      is the [.length] property, and the string iterator ([for .. of])
      yields code points ([codePoints]).
    - A JavaScript [Map] is an association list in insertion order (the
      order is observable: host transfer iterates over it); [Set] is a
      list in insertion order.
    - JavaScript numbers holding times and scores are integers ([Z]).
      The scoring formula is written twice: in exact arithmetic over the
      rationals, [calculateFreeForAllScore], which is what the handlers
      use, on whole seconds; and in the double-precision numbers of the
      runtime, [calculateFreeForAllScore64], for the seconds that are
      not whole.
    - [String.prototype.toUpperCase], [toLowerCase] and [localeCompare]
      depend on the Unicode tables; they are variables of the
      development, and so is the loaded dictionary [wordList].
    - [Date.now()] is an argument of the handlers that read the clock. *)

From Stdlib Require Import String Ascii.
From Stdlib Require Import List ZArith NArith QArith Qround Qminmax SpecFloat.
From Stdlib Require Import Lia Bool Permutation Sorted.
Import ListNotations.

Local Open Scope Z_scope.

(** ** Strings *)

Definition jsstring := list N.

(** An ASCII literal as a JavaScript string. *)
Definition js (s : string) : jsstring :=
  map N_of_ascii (list_ascii_of_string s).

Fixpoint str_eqb (a b : jsstring) : bool :=
  match a, b with
  | [], [] => true
  | x :: a', y :: b' => N.eqb x y && str_eqb a' b'
  | _, _ => false
  end.

(** [WhiteSpace] and [LineTerminator] code units, as [trim] strips them. *)
Definition isWhiteSpace (c : N) : bool :=
  ((c =? 9) || (c =? 10) || (c =? 11) || (c =? 12) || (c =? 13)
   || (c =? 32) || (c =? 160) || (c =? 5760)
   || ((8192 <=? c) && (c <=? 8202))
   || (c =? 8232) || (c =? 8233) || (c =? 8239) || (c =? 8287)
   || (c =? 12288) || (c =? 65279))%N.

Fixpoint trimStart (s : jsstring) : jsstring :=
  match s with
  | [] => []
  | c :: r => if isWhiteSpace c then trimStart r else s
  end.

Definition trimEnd (s : jsstring) : jsstring := rev (trimStart (rev s)).

Definition trim (s : jsstring) : jsstring := trimEnd (trimStart s).

Definition isHighSurrogate (c : N) : bool := ((55296 <=? c) && (c <=? 56319))%N.
Definition isLowSurrogate (c : N) : bool := ((56320 <=? c) && (c <=? 57343))%N.

(** The string iterator: one string per code point, a surrogate pair
    staying together. *)
Fixpoint codePoints (s : jsstring) : list jsstring :=
  match s with
  | [] => []
  | c :: r =>
      match r with
      | d :: r' =>
          if isHighSurrogate c && isLowSurrogate d
          then [c; d] :: codePoints r'
          else [c] :: codePoints r
      | [] => [[c]]
      end
  end.

(** ** Map and Set, in insertion order *)

Module JsMap.
Section Ops.
Context {V : Type}.

Definition t := list (jsstring * V).

Fixpoint get (k : jsstring) (m : list (jsstring * V)) : option V :=
  match m with
  | [] => None
  | (k', v) :: m' => if str_eqb k' k then Some v else get k m'
  end.

Definition has (k : jsstring) (m : list (jsstring * V)) : bool :=
  match get k m with Some _ => true | None => false end.

(** [set] keeps the position of a key that is present and appends a new
    one at the end. *)
Fixpoint set (k : jsstring) (v : V) (m : list (jsstring * V)) : list (jsstring * V) :=
  match m with
  | [] => [(k, v)]
  | (k', v') :: m' =>
      if str_eqb k' k then (k', v) :: m' else (k', v') :: set k v m'
  end.

Fixpoint delete (k : jsstring) (m : list (jsstring * V)) : list (jsstring * V) :=
  match m with
  | [] => []
  | (k', v') :: m' =>
      if str_eqb k' k then m' else (k', v') :: delete k m'
  end.

Definition size (m : list (jsstring * V)) : Z := Z.of_nat (length m).

Definition keys (m : list (jsstring * V)) : list jsstring := map fst m.

Definition values (m : list (jsstring * V)) : list V := map snd m.

End Ops.
End JsMap.

Module JsSet.

Definition has (x : jsstring) (s : list jsstring) : bool := existsb (str_eqb x) s.

Definition add (x : jsstring) (s : list jsstring) : list jsstring :=
  if has x s then s else s ++ [x].

End JsSet.

(** ** gameLogic.js *)

(** SWEDISH_LETTERS: the four tables letters are drawn from. *)
Definition vowels : list jsstring :=
  [js "A"; js "E"; js "I"; js "O"; js "U"; js "Y"; [197%N]; [196%N]; [214%N]].
Definition consonants : list jsstring :=
  map js ["B"; "C"; "D"; "F"; "G"; "H"; "J"; "K"; "L"; "M"; "N"; "P"; "R";
          "S"; "T"; "V"; "X"; "Z"]%string.
Definition commonConsonants : list jsstring :=
  map js ["N"; "R"; "S"; "T"; "L"; "D"; "G"; "M"; "K"]%string.
Definition commonVowels : list jsstring :=
  map js ["A"; "E"; "I"; "O"]%string.

(** What [generateLetters] can return: every letter pushed comes from one
    of the four tables, and the shuffle only permutes them. *)
Definition generatedLetters (letters : list jsstring) : Prop :=
  Forall (fun l => In l (commonVowels ++ vowels ++ commonConsonants ++ consonants))
         letters.

(** The number of elements of a list of characters equal to a given one. *)
Fixpoint occurrences (c : jsstring) (l : list jsstring) : nat :=
  match l with
  | [] => O
  | x :: r => if str_eqb x c then S (occurrences c r) else occurrences c r
  end.

(** [Array.prototype.indexOf] with strict equality on strings. *)
Fixpoint indexOf (c : jsstring) (l : list jsstring) : option nat :=
  match l with
  | [] => None
  | x :: r =>
      if str_eqb x c then Some O
      else match indexOf c r with Some i => Some (S i) | None => None end
  end.

(** [splice(index, 1)]. *)
Fixpoint removeAt (i : nat) (l : list jsstring) : list jsstring :=
  match l, i with
  | [], _ => []
  | _ :: r, O => r
  | x :: r, S i' => x :: removeAt i' r
  end.

(** The loop of [canFormWord] over the characters of the upper-cased
    word, on the working copy of the letters. *)
Fixpoint canFormChars (chars : list jsstring) (letterPool : list jsstring) : bool :=
  match chars with
  | [] => true
  | char :: rest =>
      match indexOf char letterPool with
      | None => false
      | Some index => canFormChars rest (removeAt index letterPool)
      end
  end.

(** The same function on a store of arrays, where [availableLetters] is a
    reference: [[...availableLetters]] allocates a copy, and [splice]
    updates the copy in place. *)
Definition Heap := list (list jsstring).

Definition readArray (r : nat) (h : Heap) : list jsstring := nth r h [].

Fixpoint writeArray (r : nat) (a : list jsstring) (h : Heap) : Heap :=
  match h, r with
  | [], _ => []
  | _ :: h', O => a :: h'
  | x :: h', S r' => x :: writeArray r' a h'
  end.

Definition copyArray (r : nat) (h : Heap) : nat * Heap :=
  (length h, h ++ [readArray r h]).

Fixpoint canFormLoop (chars : list jsstring) (letterPool : nat) (h : Heap) : bool * Heap :=
  match chars with
  | [] => (true, h)
  | char :: rest =>
      match indexOf char (readArray letterPool h) with
      | None => (false, h)
      | Some index =>
          canFormLoop rest letterPool
            (writeArray letterPool (removeAt index (readArray letterPool h)) h)
      end
  end.

(** ** Scoring *)

(** [Math.round]: the nearest integer, halves going up. *)
Definition Math_round (x : Q) : Z := Qfloor (x + (1 # 2))%Q.

(** [calculateFreeForAllScore] in exact arithmetic. [submitWord] passes
    whole seconds, on which the numbers of the runtime are exact; for
    other numbers see [calculateFreeForAllScore64]. *)
Definition calculateFreeForAllScore (word : jsstring) (secondsElapsed : Q) : Z :=
  let wordLength := length word in
  let timeBonus := Qmax 0 (60 - secondsElapsed)%Q in
  let score := (inject_Z (Z.of_nat wordLength) * timeBonus)%Q in
  let score := if (6 <? wordLength)%nat then (score + 5)%Q else score in
  Math_round score.

Definition calculateExclusiveScore (word : jsstring) : Z :=
  Z.of_nat (length word).

(** ** The environment of the server

    The case mappings and the collation of the JavaScript runtime, and
    the dictionary that [loadWordList] leaves in the module variable
    [wordList] (a [Set], in insertion order) before the server listens. *)
Class Environment := {
  toUpperCase : jsstring -> jsstring;
  toLowerCase : jsstring -> jsstring;
  localeCompare : jsstring -> jsstring -> Z;
  wordList : list jsstring
}.

(** ** Data of app.js *)

Inductive Mode := freeforall | exclusive.
Inductive Status := waiting | playing | ended.

Module Player.
Record t := mk {
  id : jsstring;
  name : jsstring;
  score : Z;
  connected : bool
}.
Definition with_score (p : t) (s : Z) : t := mk (id p) (name p) s (connected p).
Definition with_connected (p : t) (c : bool) : t := mk (id p) (name p) (score p) c.
End Player.

Module Claim.
Record t := mk {
  playerId : jsstring;
  playerName : jsstring;
  timestamp : Z;
  score : Z;
  word : option jsstring
}.
End Claim.

Module Game.
Record t := mk {
  id : jsstring;
  mode : Mode;
  letters : list jsstring;
  letterCount : Z;
  minWordLength : Z;
  duration : Z;
  hostId : option jsstring;
  players : list (jsstring * Player.t);
  claims : list (jsstring * Claim.t);
  playerClaims : list (jsstring * list jsstring);
  status : Status;
  startTime : option Z;
  timerInterval : bool
}.
Definition with_hostId (g : t) (h : option jsstring) : t :=
  mk (id g) (mode g) (letters g) (letterCount g) (minWordLength g) (duration g)
     h (players g) (claims g) (playerClaims g) (status g) (startTime g)
     (timerInterval g).
Definition with_players (g : t) (ps : list (jsstring * Player.t)) : t :=
  mk (id g) (mode g) (letters g) (letterCount g) (minWordLength g) (duration g)
     (hostId g) ps (claims g) (playerClaims g) (status g) (startTime g)
     (timerInterval g).
Definition with_claims (g : t) (cs : list (jsstring * Claim.t)) : t :=
  mk (id g) (mode g) (letters g) (letterCount g) (minWordLength g) (duration g)
     (hostId g) (players g) cs (playerClaims g) (status g) (startTime g)
     (timerInterval g).
Definition with_playerClaims (g : t) (pc : list (jsstring * list jsstring)) : t :=
  mk (id g) (mode g) (letters g) (letterCount g) (minWordLength g) (duration g)
     (hostId g) (players g) (claims g) pc (status g) (startTime g)
     (timerInterval g).
Definition with_status (g : t) (s : Status) : t :=
  mk (id g) (mode g) (letters g) (letterCount g) (minWordLength g) (duration g)
     (hostId g) (players g) (claims g) (playerClaims g) s (startTime g)
     (timerInterval g).
Definition with_startTime (g : t) (s : option Z) : t :=
  mk (id g) (mode g) (letters g) (letterCount g) (minWordLength g) (duration g)
     (hostId g) (players g) (claims g) (playerClaims g) (status g) s
     (timerInterval g).
Definition with_timerInterval (g : t) (b : bool) : t :=
  mk (id g) (mode g) (letters g) (letterCount g) (minWordLength g) (duration g)
     (hostId g) (players g) (claims g) (playerClaims g) (status g) (startTime g)
     b.
End Game.

(** The options of [create-game]; an absent field is [None], and [||]
    also replaces a zero by the default. *)
Record Options := {
  opt_mode : option Mode;
  opt_letterCount : option Z;
  opt_minWordLength : option Z;
  opt_gameDuration : option Z
}.

Definition orDefault (x : option Z) (d : Z) : Z :=
  match x with
  | Some v => if v =? 0 then d else v
  | None => d
  end.

Definition MAX_PLAYERS_PER_ROOM : Z := 20.
Definition DEFAULT_GAME_DURATION : Z := 60.

(** Reasons of [validateWord], in the order they are tested:
    'Tomt ord', 'Ordet måste vara minst n bokstäver',
    'Ogiltiga bokstäver', 'Inte ett giltigt svenskt ord'. *)
Inductive ValidationError :=
| EmptyWord
| TooShort (minLength : Z)
| InvalidLetters
| NotSwedishWord.

Inductive Validation := Valid | Invalid (error : ValidationError).

(** Errors of [submitWord]: 'Spelet är inte aktivt', the reason of
    [validateWord], 'Ordet är redan taget!', 'Du har redan använt detta
    ord!'. *)
Inductive SubmitError :=
| GameNotActive
| InvalidWord (error : ValidationError)
| WordAlreadyTaken
| WordAlreadyUsed.

Inductive SubmitResult :=
| SubmitOk (word : jsstring) (score : Z) (totalScore : Z)
| SubmitFail (error : SubmitError).

(** Errors of [join-game]: 'Spelet hittades inte', 'Spelet är avslutat',
    'Spelet är fullt', 'Namnet är redan taget'. The answer of the [catch]
    branch, 'Kunde inte gå med i spelet', is [JoinThrew] of [JoinAnswer]
    below. *)
Inductive JoinError := GameNotFound | GameEnded | GameFull | NameTaken.

Inductive JoinResult :=
| JoinOk (isHost : bool)
| JoinFail (error : JoinError).

(** Errors of [start-game]: 'Endast värden kan starta spelet', 'Spelet
    har redan startat', 'Minst en spelare behövs'. *)
Inductive StartError := OnlyHost | AlreadyStarted | NeedPlayer.

Inductive StartResult :=
| StartOk
| StartFail (error : StartError).

Definition mode_eqb (a b : Mode) : bool :=
  match a, b with
  | freeforall, freeforall | exclusive, exclusive => true
  | _, _ => false
  end.

Definition status_eqb (a b : Status) : bool :=
  match a, b with
  | waiting, waiting | playing, playing | ended, ended => true
  | _, _ => false
  end.

(** [socket.id === game.hostId], the host id being [null] at first. *)
Definition isHostId (socketId : jsstring) (hostId : option jsstring) : bool :=
  match hostId with
  | Some h => str_eqb socketId h
  | None => false
  end.

(** [Math.floor((Date.now() - game.startTime) / 1000)]; a [null] start
    time counts as 0 in the subtraction. *)
Definition elapsedSeconds (now : Z) (startTime : option Z) : Z :=
  (now - match startTime with Some s => s | None => 0 end) / 1000.

(** Stable sort of [Array.prototype.sort] for a consistent comparator:
    every element is inserted before the first one it does not follow. *)
Fixpoint insertBy (cmp : jsstring -> jsstring -> Z) (x : jsstring) (l : list jsstring)
  : list jsstring :=
  match l with
  | [] => [x]
  | y :: r => if cmp x y <=? 0 then x :: y :: r else y :: insertBy cmp x r
  end.

Definition sortBy (cmp : jsstring -> jsstring -> Z) (l : list jsstring) : list jsstring :=
  fold_right (insertBy cmp) [] l.

(** [claim.word || word]: the word of a ledger entry as [game-ended]
    sends it, the key standing in when the entry holds no word. *)
Definition claimedWord (key : jsstring) (claim : Claim.t) : jsstring :=
  match Claim.word claim with
  | Some (c :: w) => c :: w
  | _ => key
  end.

Section Logic.
Context {env : Environment}.

(** *** gameLogic.js, continued *)

Definition canFormWord (word : jsstring) (availableLetters : list jsstring) : bool :=
  let letterPool := availableLetters in
  let upperWord := toUpperCase word in
  canFormChars (codePoints upperWord) letterPool.

Definition canFormWordHeap (word : jsstring) (availableLetters : nat) (h : Heap)
  : bool * Heap :=
  let (letterPool, h1) := copyArray availableLetters h in
  let upperWord := toUpperCase word in
  canFormLoop (codePoints upperWord) letterPool h1.

Definition isValidSwedishWord (word : jsstring) : bool :=
  JsSet.has (toUpperCase word) wordList.

Definition validateWord (word : jsstring) (letters : list jsstring) (minLength : Z)
  : Validation :=
  let upperWord := trim (toUpperCase word) in
  match upperWord with
  | [] => Invalid EmptyWord
  | _ :: _ =>
      if Z.of_nat (length upperWord) <? minLength then Invalid (TooShort minLength)
      else if negb (canFormWord upperWord letters) then Invalid InvalidLetters
      else if negb (isValidSwedishWord upperWord) then Invalid NotSwedishWord
      else Valid
  end.

(** The comparator of [findPossibleWords]: longest first, then by the
    Swedish collation. *)
Definition comparePossible (a b : jsstring) : Z :=
  if negb (Nat.eqb (length b) (length a))
  then Z.of_nat (length b) - Z.of_nat (length a)
  else localeCompare a b.

Definition findPossibleWords (letters : list jsstring) (minLength : Z) : list jsstring :=
  let possibleWords :=
    filter (fun word => (minLength <=? Z.of_nat (length word)) && canFormWord word letters)
           wordList in
  sortBy comparePossible possibleWords.

(** *** app.js *)

(** [createGame]; [id] and [letters] are what [generateGameId] and
    [generateLetters] returned. *)
Definition createGame (id : jsstring) (letters : list jsstring) (options : Options)
  : Game.t :=
  Game.mk id
    (match opt_mode options with Some m => m | None => freeforall end)
    letters
    (orDefault (opt_letterCount options) 15)
    (orDefault (opt_minWordLength options) 3)
    (orDefault (opt_gameDuration options) DEFAULT_GAME_DURATION)
    None [] [] [] waiting None false.

Definition startGameTimer (game : Game.t) (now : Z) : Game.t :=
  Game.with_timerInterval
    (Game.with_status (Game.with_startTime game (Some now)) playing) true.

Definition endGame (game : Game.t) : Game.t :=
  Game.with_status (Game.with_timerInterval game false) ended.

(** The callback of the interval set by [startGameTimer]. *)
Definition timerTick (game : Game.t) (now : Z) : Game.t :=
  if Game.timerInterval game then
    let elapsed := elapsedSeconds now (Game.startTime game) in
    let remaining := Z.max 0 (Game.duration game - elapsed) in
    if remaining <=? 0 then endGame game else game
  else game.

(** The claims of [getGameState(game, forPlayerId)]. *)
Definition visibleClaims (game : Game.t) (forPlayerId : option jsstring)
  : list Claim.t :=
  match Game.mode game, forPlayerId with
  | freeforall, Some p =>
      map snd (filter (fun kc => str_eqb (Claim.playerId (snd kc)) p) (Game.claims game))
  | _, _ => map snd (Game.claims game)
  end.

Definition submitWord (game : Game.t) (playerId : jsstring) (word : jsstring) (now : Z)
  : Game.t * SubmitResult :=
  match JsMap.get playerId (Game.players game) with
  | None => (game, SubmitFail GameNotActive)
  | Some player =>
      if negb (status_eqb (Game.status game) playing)
      then (game, SubmitFail GameNotActive)
      else
        let upperWord := trim (toUpperCase word) in
        let elapsed := elapsedSeconds now (Game.startTime game) in
        match validateWord upperWord (Game.letters game) (Game.minWordLength game) with
        | Invalid error => (game, SubmitFail (InvalidWord error))
        | Valid =>
            match Game.mode game with
            | exclusive =>
                if JsMap.has upperWord (Game.claims game)
                then (game, SubmitFail WordAlreadyTaken)
                else
                  let score := calculateExclusiveScore upperWord in
                  let claims' :=
                    JsMap.set upperWord
                      (Claim.mk playerId (Player.name player) elapsed score None)
                      (Game.claims game) in
                  let player' := Player.with_score player (Player.score player + score) in
                  let players' := JsMap.set playerId player' (Game.players game) in
                  (Game.with_players (Game.with_claims game claims') players',
                   SubmitOk upperWord score (Player.score player'))
            | freeforall =>
                let playerClaims1 :=
                  if JsMap.has playerId (Game.playerClaims game)
                  then Game.playerClaims game
                  else JsMap.set playerId [] (Game.playerClaims game) in
                let mine :=
                  match JsMap.get playerId playerClaims1 with
                  | Some s => s
                  | None => []
                  end in
                let game1 := Game.with_playerClaims game playerClaims1 in
                if JsSet.has upperWord mine
                then (game1, SubmitFail WordAlreadyUsed)
                else
                  let score := calculateFreeForAllScore upperWord (inject_Z elapsed) in
                  let playerClaims2 :=
                    JsMap.set playerId (JsSet.add upperWord mine) playerClaims1 in
                  let claimKey := upperWord ++ js "-" ++ playerId in
                  let claims' :=
                    JsMap.set claimKey
                      (Claim.mk playerId (Player.name player) elapsed score (Some upperWord))
                      (Game.claims game) in
                  let player' := Player.with_score player (Player.score player + score) in
                  let players' := JsMap.set playerId player' (Game.players game) in
                  (Game.with_players
                     (Game.with_claims (Game.with_playerClaims game playerClaims2) claims')
                     players',
                   SubmitOk upperWord score (Player.score player'))
            end
        end
  end.

(** The [join-game] handler on a game that was found, for a request
    whose [playerName] is a string and a table whose players all have
    names, so that nothing throws. The handler with its [catch] branch
    is [joinRoom] below, which agrees with this one on such requests. *)
Definition joinGame (game : Game.t) (socketId playerName : jsstring)
  : Game.t * JoinResult :=
  if status_eqb (Game.status game) ended then (game, JoinFail GameEnded)
  else if MAX_PLAYERS_PER_ROOM <=? JsMap.size (Game.players game)
  then (game, JoinFail GameFull)
  else if JsMap.has socketId (Game.players game)
  then (game, JoinOk (isHostId socketId (Game.hostId game)))
  else if existsb
            (fun kp => str_eqb (toLowerCase (Player.name (snd kp))) (toLowerCase playerName)
                       && Player.connected (snd kp))
            (Game.players game)
  then (game, JoinFail NameTaken)
  else
    let players' :=
      match find (fun kp => str_eqb (Player.name (snd kp)) playerName
                            && negb (Player.connected (snd kp)))
                 (Game.players game) with
      | Some (existingId, player) =>
          JsMap.set socketId (Player.with_connected player true)
                    (JsMap.delete existingId (Game.players game))
      | None =>
          JsMap.set socketId (Player.mk socketId playerName 0 true) (Game.players game)
      end in
    let hostId' :=
      match Game.hostId game with
      | None => Some socketId
      | Some h => Some h
      end in
    (Game.with_hostId (Game.with_players game players') hostId',
     JoinOk (isHostId socketId hostId')).

(** The [join-game] handler, from the registry of games. *)
Definition onJoinGame (games : list (jsstring * Game.t)) (socketId gameId playerName : jsstring)
  : list (jsstring * Game.t) * JoinResult :=
  match JsMap.get gameId games with
  | None => (games, JoinFail GameNotFound)
  | Some game =>
      let (game', result) := joinGame game socketId playerName in
      (JsMap.set gameId game' games, result)
  end.

(** The [start-game] handler on the game of the socket. *)
Definition startGame (game : Game.t) (socketId : jsstring) (now : Z)
  : Game.t * StartResult :=
  if negb (isHostId socketId (Game.hostId game)) then (game, StartFail OnlyHost)
  else if negb (status_eqb (Game.status game) waiting) then (game, StartFail AlreadyStarted)
  else if JsMap.size (Game.players game) <? 1 then (game, StartFail NeedPlayer)
  else (startGameTimer game now, StartOk).

(** The [disconnect] handler on the game of the socket. *)
Definition disconnect (game : Game.t) (socketId : jsstring) : Game.t :=
  match JsMap.get socketId (Game.players game) with
  | None => game
  | Some player =>
      let players' :=
        JsMap.set socketId (Player.with_connected player false) (Game.players game) in
      let game1 := Game.with_players game players' in
      if isHostId socketId (Game.hostId game)
      then
        match find (fun kp => Player.connected (snd kp)) players' with
        | Some (id, _) => Game.with_hostId game1 (Some id)
        | None => game1
        end
      else game1
  end.

(** *** Sessions as state machines *)

Inductive Event :=
| JoinGame (socketId playerName : jsstring)
| StartGame (socketId : jsstring) (now : Z)
| SubmitWord (socketId word : jsstring) (now : Z)
| Disconnect (socketId : jsstring)
| TimerTick (now : Z).

Definition handle (game : Game.t) (e : Event) : Game.t :=
  match e with
  | JoinGame socketId playerName => fst (joinGame game socketId playerName)
  | StartGame socketId now => fst (startGame game socketId now)
  | SubmitWord socketId word now => fst (submitWord game socketId word now)
  | Disconnect socketId => disconnect game socketId
  | TimerTick now => timerTick game now
  end.

Definition run (game : Game.t) (events : list Event) : Game.t :=
  fold_left handle events game.

(** The states a session goes through: created by [createGame], then
    changed by the handlers, one event at a time. *)
Inductive reachable : Game.t -> Prop :=
| reachable_created id letters options :
    generatedLetters letters ->
    reachable (createGame id letters options)
| reachable_handle game e :
    reachable game ->
    reachable (handle game e).

(** The total of the scores of the ledger entries made under a display
    name, the identity of a player that survives a reconnection. *)
Definition claimedScore (playerName : jsstring) (claims : list (jsstring * Claim.t)) : Z :=
  fold_right
    (fun kc acc =>
       if str_eqb (Claim.playerName (snd kc)) playerName
       then Claim.score (snd kc) + acc else acc)
    0 claims.



(** A connected player holds the name, up to case. *)
Definition nameTaken (playerName : jsstring) (players : list (jsstring * Player.t)) : Prop :=
  exists k p, In (k, p) players
              /\ Player.connected p = true
              /\ toLowerCase (Player.name p) = toLowerCase playerName.

(** What the handlers never change once the game is created. *)
Definition sameSetup (g g' : Game.t) : Prop :=
  Game.id g' = Game.id g
  /\ Game.mode g' = Game.mode g
  /\ Game.letters g' = Game.letters g
  /\ Game.letterCount g' = Game.letterCount g
  /\ Game.minWordLength g' = Game.minWordLength g
  /\ Game.duration g' = Game.duration g.

(** The words a player has used, an absent entry counting as none. *)
Definition usedWords (playerId : jsstring) (game : Game.t) : list jsstring :=
  match JsMap.get playerId (Game.playerClaims game) with
  | Some s => s
  | None => []
  end.

(** The ledger of a session: one entry per key; in exclusive mode the
    key is a normalized word that passed validation and the entry holds
    no word of its own; in free-for-all mode the entry
    holds its word, the key is the word, a hyphen and the player id, and
    the word is among those the player has used. *)
Definition ledgerInv (g : Game.t) : Prop :=
  NoDup (JsMap.keys (Game.claims g))
  /\ (Game.mode g = exclusive ->
      forall k c, In (k, c) (Game.claims g) ->
        Claim.word c = None
        /\ (exists raw, k = trim (toUpperCase raw))
        /\ validateWord k (Game.letters g) (Game.minWordLength g) = Valid)
  /\ (Game.mode g = freeforall ->
      forall k c, In (k, c) (Game.claims g) ->
        exists w,
          Claim.word c = Some w
          /\ k = w ++ js "-" ++ Claim.playerId c
          /\ JsSet.has w (usedWords (Claim.playerId c) g) = true
          /\ (exists raw, w = trim (toUpperCase raw))
          /\ validateWord w (Game.letters g) (Game.minWordLength g) = Valid).

(** The players of a session and their scores: ids and names are not
    shared, every ledger entry bears the name of a player, and the score
    of a player is the total of the entries made under the name. *)
Definition scoresInv (g : Game.t) : Prop :=
  NoDup (JsMap.keys (Game.players g))
  /\ NoDup (map (fun kp => Player.name (snd kp)) (Game.players g))
  /\ (forall k c, In (k, c) (Game.claims g) ->
        In (Claim.playerName c) (map (fun kp => Player.name (snd kp)) (Game.players g)))
  /\ (forall k p, In (k, p) (Game.players g) ->
        Player.score p = claimedScore (Player.name p) (Game.claims g))
  /\ generatedLetters (Game.letters g).

End Logic.

(** ** An environment for the Swedish alphabet

    The case mappings on ASCII letters and on å, ä, ö (code units 229,
    228, 246 and 197, 196, 214), where they agree with the runtime, and
    the alphabetical order A..Z, Å, Ä, Ö on upper-case words. *)

Definition upperUnit (c : N) : N :=
  if (((97 <=? c) && (c <=? 122)) || (c =? 229) || (c =? 228) || (c =? 246))%N
  then (c - 32)%N else c.

Definition lowerUnit (c : N) : N :=
  if (((65 <=? c) && (c <=? 90)) || (c =? 197) || (c =? 196) || (c =? 214))%N
  then (c + 32)%N else c.

Definition upperSv (s : jsstring) : jsstring := map upperUnit s.
Definition lowerSv (s : jsstring) : jsstring := map lowerUnit s.

Definition rankSv (c : N) : N :=
  if (c =? 197)%N then 91%N
  else if (c =? 196)%N then 92%N
  else if (c =? 214)%N then 93%N
  else c.

Fixpoint compareSv (a b : jsstring) : Z :=
  match a, b with
  | [], [] => 0
  | [], _ :: _ => -1
  | _ :: _, [] => 1
  | x :: a', y :: b' =>
      match N.compare (rankSv x) (rankSv y) with
      | Lt => -1
      | Gt => 1
      | Eq => compareSv a' b'
      end
  end.

Definition svEnv (dictionary : list jsstring) : Environment :=
  {| toUpperCase := upperSv;
     toLowerCase := lowerSv;
     localeCompare := compareSv;
     wordList := dictionary |}.


(** ** A session used in the examples

    Twelve letters as [generateLetters] can draw them, a dictionary of
    four words, and the two options of [create-game]. *)

Definition demoLetters : list jsstring :=
  map js ["H"; "U"; "N"; "D"; "K"; "A"; "T"; "T"; "E"; "S"; "O"; "R"]%string.

Definition demoEnv : Environment :=
  svEnv [js "HUND"; js "KATT"; js "TESTORD"; js "AND"].

Definition freeforallOptions : Options :=
  {| opt_mode := Some freeforall; opt_letterCount := Some 12;
     opt_minWordLength := None; opt_gameDuration := None |}.

Definition exclusiveOptions : Options :=
  {| opt_mode := Some exclusive; opt_letterCount := Some 12;
     opt_minWordLength := None; opt_gameDuration := None |}.

Definition demoFreeForAll : Game.t :=
  createGame (js "ABC234") demoLetters freeforallOptions.

Definition demoExclusive : Game.t :=
  createGame (js "XYZ789") demoLetters exclusiveOptions.

(** Both players have joined and the host has started the round. *)
Definition demoRound (g : Game.t) : Game.t :=
  run (env := demoEnv) g
    [JoinGame (js "s1") (js "Alva"); JoinGame (js "s2") (js "Bo");
     StartGame (js "s1") 0].

(** Alva has claimed a word ten seconds into the round. *)
Definition demoClaimed (g : Game.t) (word : jsstring) : Game.t :=
  run (env := demoEnv) (demoRound g) [SubmitWord (js "s1") word 10000].

(** Alva claims a word, loses her connection, joins again under her name
    from a new socket and submits the same word once more. *)
Definition demoRejoined : Game.t :=
  run (env := demoEnv) (demoClaimed demoFreeForAll (js "hund"))
    [Disconnect (js "s1"); JoinGame (js "s3") (js "Alva")].

Definition demoRejoinedAgain : Game.t :=
  run (env := demoEnv) demoRejoined [SubmitWord (js "s3") (js "hund") 20000].

(** Three players in the lobby, Alva being the host; and Alva alone. *)
Definition demoLobby : Game.t :=
  run (env := demoEnv) demoFreeForAll
    [JoinGame (js "s1") (js "Alva"); JoinGame (js "s2") (js "Bo");
     JoinGame (js "s3") (js "Cilla")].

Definition demoAlone : Game.t :=
  run (env := demoEnv) demoFreeForAll [JoinGame (js "s1") (js "Alva")].

(** ** gameLogic.js: the random parts and the word list

    [Math.random()] is a sequence of rationals, the k-th call returning
    [rnd k]; the functions thread the number of calls made so far. *)

Definition Random := nat -> Q.

(** What [Math.random] promises: every value is in [0, 1). *)
Definition unitInterval (rnd : Random) : Prop :=
  forall k, (0 <= rnd k)%Q /\ (rnd k < 1)%Q.

(** [Math.floor(Math.random() * n)]. *)
Definition randomIndex (r : Q) (n : nat) : nat :=
  Z.to_nat (Qfloor (r * inject_Z (Z.of_nat n))).

(** [Math.random() < p]. *)
Definition randomBelow (r p : Q) : bool := negb (Qle_bool p r).

(** One of the two loops of [generateLetters]: [n] letters, each from the
    common table with chance [p] and from the full table otherwise; an
    index outside a table would push [undefined], the empty string
    here. *)
Fixpoint drawLetters (n : nat) (p : Q) (commonTable table : list jsstring)
         (rnd : Random) (k : nat) (letters : list jsstring)
  : list jsstring * nat :=
  match n with
  | O => (letters, k)
  | S n' =>
      let letter :=
        if randomBelow (rnd k) p
        then nth (randomIndex (rnd (S k)) (length commonTable)) commonTable []
        else nth (randomIndex (rnd (S k)) (length table)) table [] in
      drawLetters n' p commonTable table rnd (S (S k)) (letters ++ [letter])
  end.

(** [letters[i] = v] on an index of the array. *)
Fixpoint setNth (i : nat) (v : jsstring) (l : list jsstring) : list jsstring :=
  match l, i with
  | [], _ => []
  | _ :: r, O => v :: r
  | x :: r, S i' => x :: setNth i' v r
  end.

(** [[letters[i], letters[j]] = [letters[j], letters[i]]]. *)
Definition swapLetters (i j : nat) (letters : list jsstring) : list jsstring :=
  let atJ := nth j letters [] in
  let atI := nth i letters [] in
  setNth j atI (setNth i atJ letters).

(** The shuffle loop, [i] going down to 1. *)
Fixpoint shuffleFrom (i : nat) (letters : list jsstring) (rnd : Random) (k : nat)
  : list jsstring :=
  match i with
  | O => letters
  | S i' =>
      let j := randomIndex (rnd k) (S i) in
      shuffleFrom i' (swapLetters i j letters) rnd (S k)
  end.

Definition shuffleLetters (letters : list jsstring) (rnd : Random) (k : nat)
  : list jsstring :=
  shuffleFrom (length letters - 1) letters rnd k.

(** The letters pushed by the two loops of [generateLetters], before the
    shuffle, and the number of calls to [Math.random] made. The number of
    vowels is the floor of 35 % of the count in exact arithmetic;
    [Math.floor(count * 0.35)] in the numbers of the runtime,
    [vowelCount64] below, is the same for every count under 180, and one
    less at 180. *)
Definition drawnLetters (count : Z) (rnd : Random) : list jsstring * nat :=
  let vowelCount := Qfloor (inject_Z count * (35 # 100)) in
  let consonantCount := count - vowelCount in
  let (letters1, k1) :=
    drawLetters (Z.to_nat vowelCount) (7 # 10) commonVowels vowels rnd O [] in
  drawLetters (Z.to_nat consonantCount) (6 # 10) commonConsonants consonants
              rnd k1 letters1.

Definition generateLetters (count : Z) (rnd : Random) : list jsstring :=
  let (letters, k) := drawnLetters count rnd in
  shuffleLetters letters rnd k.

(** [String.prototype.charAt]. *)
Definition charAt (s : jsstring) (i : nat) : jsstring :=
  match nth_error s i with
  | Some c => [c]
  | None => []
  end.

Definition gameIdChars : jsstring := js "ABCDEFGHJKLMNPQRSTUVWXYZ23456789".

Fixpoint generateGameIdFrom (n : nat) (rnd : Random) (k : nat) (id : jsstring)
  : jsstring :=
  match n with
  | O => id
  | S n' =>
      generateGameIdFrom n' rnd (S k)
        (id ++ charAt gameIdChars (randomIndex (rnd k) (length gameIdChars)))
  end.

Definition generateGameId (rnd : Random) : jsstring :=
  generateGameIdFrom 6 rnd O [].

(** [text.split(sep)] for a separator of one code unit. *)
Fixpoint splitOn (sep : N) (s : jsstring) : list jsstring :=
  match s with
  | [] => [[]]
  | c :: r =>
      if N.eqb c sep then [] :: splitOn sep r
      else match splitOn sep r with
           | h :: t => (c :: h) :: t
           | [] => [[c]]
           end
  end.

(** [new Set(words)]: the first occurrence of every word, in order. *)
Definition newSet (words : list jsstring) : list jsstring :=
  fold_left (fun s w => JsSet.add w s) words [].

(** The list [loadWordList] uses when the fetch fails. *)
Definition fallbackWordList : list jsstring :=
  [js "OCH"; js "ATT"; js "DET"; js "SOM"; js "HAR"; js "MED"; js "VAR";
   js "ETT"; [70; 214; 82]%N; [80; 197]%N].

Section WordList.
Context {env : Environment}.

(** The body of [loadWordList] on the text of the response. *)
Definition parseWordList (text : jsstring) : list jsstring :=
  let words :=
    filter (fun word => (2 <=? length word)%nat)
           (map (fun word => toUpperCase (trim word)) (splitOn 10 text)) in
  newSet words.

(** [loadWordList]: the text fetched, or [None] when the fetch failed or
    was not answered with success. *)
Definition loadWordList (response : option jsstring) : list jsstring :=
  match response with
  | Some text => parseWordList text
  | None => fallbackWordList
  end.

End WordList.

(** A sequence of random numbers for the examples: 0, 0.1, ..., 0.8 and
    again. *)
Definition demoRandom : Random := fun k => (Z.of_nat (k mod 9) # 10)%Q.

(** ** app.js: what is sent to the clients, and the registry *)

Module PlayerView.
Record t := mk {
  id : jsstring;
  name : jsstring;
  score : Z;
  connected : bool
}.
End PlayerView.

Module ClaimView.
Record t := mk {
  word : option jsstring;
  playerId : jsstring;
  playerName : jsstring;
  timestamp : Z;
  score : Z
}.
End ClaimView.

Module GameState.
Record t := mk {
  id : jsstring;
  mode : Mode;
  letters : list jsstring;
  letterCount : Z;
  minWordLength : Z;
  hostId : option jsstring;
  players : list PlayerView.t;
  claims : list ClaimView.t;
  status : Status;
  startTime : option Z;
  timeRemaining : Z
}.
End GameState.

(** A ledger entry as sent with every claim shown: [claim.word || word]. *)
Definition claimView (kc : jsstring * Claim.t) : ClaimView.t :=
  ClaimView.mk (Some (claimedWord (fst kc) (snd kc)))
    (Claim.playerId (snd kc)) (Claim.playerName (snd kc))
    (Claim.timestamp (snd kc)) (Claim.score (snd kc)).

(** A ledger entry as sent to its own player in free-for-all mode:
    [claim.word] as it is. *)
Definition ownClaimView (kc : jsstring * Claim.t) : ClaimView.t :=
  ClaimView.mk (Claim.word (snd kc))
    (Claim.playerId (snd kc)) (Claim.playerName (snd kc))
    (Claim.timestamp (snd kc)) (Claim.score (snd kc)).

Definition playerView (kp : jsstring * Player.t) : PlayerView.t :=
  PlayerView.mk (fst kp) (Player.name (snd kp)) (Player.score (snd kp))
    (Player.connected (snd kp)).

(** [getGameState(game, forPlayerId)]; a player id that is absent or the
    empty string, and a start time that is absent or 0, are falsy. *)
Definition getGameState (game : Game.t) (forPlayerId : option jsstring) (now : Z)
  : GameState.t :=
  let claims :=
    match Game.mode game, forPlayerId with
    | freeforall, Some (c :: p) =>
        map ownClaimView
            (filter (fun kc => str_eqb (Claim.playerId (snd kc)) (c :: p))
                    (Game.claims game))
    | _, _ => map claimView (Game.claims game)
    end in
  let letters :=
    if status_eqb (Game.status game) waiting
    then map (fun _ => js "?") (Game.letters game)
    else Game.letters game in
  GameState.mk (Game.id game) (Game.mode game) letters (Game.letterCount game)
    (Game.minWordLength game) (Game.hostId game)
    (map playerView (Game.players game)) claims (Game.status game)
    (Game.startTime game)
    (match Game.startTime game with
     | Some s =>
         if s =? 0 then Game.duration game
         else Z.max 0 (Game.duration game - (now - s) / 1000)
     | None => Game.duration game
     end).

(** [Array.prototype.sort] with a comparator, for any elements: the
    stable insertion sort. *)
Fixpoint insertSorted {A : Type} (cmp : A -> A -> Z) (x : A) (l : list A) : list A :=
  match l with
  | [] => [x]
  | y :: r => if cmp x y <=? 0 then x :: y :: r else y :: insertSorted cmp x r
  end.

Definition stableSort {A : Type} (cmp : A -> A -> Z) (l : list A) : list A :=
  fold_right (insertSorted cmp) [] l.

Module Ranking.
Record t := mk {
  id : jsstring;
  name : jsstring;
  score : Z
}.
End Ranking.

(** The final rankings of [endGame]: the players by score, highest
    first. *)
Definition rankings (game : Game.t) : list Ranking.t :=
  stableSort (fun a b => Ranking.score b - Ranking.score a)
    (map (fun kp => Ranking.mk (fst kp) (Player.name (snd kp)) (Player.score (snd kp)))
         (Game.players game)).

(** The periodic sweep over the registry of games. No game has a
    [createdAt], so the age of a game that has no start time is 0. *)
Definition OLD_GAME_THRESHOLD : Z := 30 * 60 * 1000.

Definition gameAge (game : Game.t) (now : Z) : Z :=
  match Game.startTime game with
  | Some s => if s =? 0 then now - now else now - s
  | None => now - now
  end.

Definition expired (now : Z) (game : Game.t) : bool :=
  (OLD_GAME_THRESHOLD <? gameAge game now) && status_eqb (Game.status game) ended.

Definition cleanupOldGames (games : list (jsstring * Game.t)) (now : Z)
  : list (jsstring * Game.t) :=
  fold_left
    (fun acc entry =>
       if expired now (snd entry) then JsMap.delete (fst entry) acc else acc)
    games games.

(** [createGame] with the registry it writes to. *)
Definition registerGame (games : list (jsstring * Game.t)) (id : jsstring)
           (letters : list jsstring) (options : Options)
  : list (jsstring * Game.t) * Game.t :=
  let game := createGame id letters options in
  (JsMap.set id game games, game).

Definition statusRank (s : Status) : Z :=
  match s with
  | waiting => 0
  | playing => 1
  | ended => 2
  end.

(** How status, start time and timer go together, who the host can be,
    and how many players there are. *)
Definition lifecycleInv (g : Game.t) : Prop :=
  (Game.status g = waiting ->
   Game.startTime g = None /\ Game.timerInterval g = false
   /\ Game.claims g = [] /\ Game.playerClaims g = []
   /\ forall k p, In (k, p) (Game.players g) -> Player.score p = 0)
  /\ (Game.status g = playing ->
      (exists s, Game.startTime g = Some s) /\ Game.timerInterval g = true)
  /\ (Game.status g = ended ->
      (exists s, Game.startTime g = Some s) /\ Game.timerInterval g = false)
  /\ (Game.hostId g = None <-> Game.players g = [])
  /\ JsMap.size (Game.players g) <= MAX_PLAYERS_PER_ROOM
  /\ (forall k p, In (k, p) (Game.players g) -> 0 <= Player.score p)
  /\ NoDup (JsMap.keys (Game.players g)).

(** Twenty players in the lobby: the table is full. *)
Definition demoFull : Game.t :=
  run (env := demoEnv) demoFreeForAll
    (map (fun c => JoinGame [112%N; c] [110%N; c])
         (map N.of_nat (seq 65 20))).

(** Nineteen players in the lobby: one place is left. *)
Definition demoAlmostFull : Game.t :=
  run (env := demoEnv) demoFreeForAll
    (map (fun c => JoinGame [112%N; c] [110%N; c])
         (map N.of_nat (seq 65 19))).

(** A registry of two games, one of them ended long ago. *)
Definition demoGames : list (jsstring * Game.t) :=
  [(js "ABC234",
    run (env := demoEnv) demoAlone [StartGame (js "s1") 1000; TimerTick 61000]);
   (js "XYZ789", demoRound demoExclusive)].

(** A response of three lines, the first ended by CR LF, the last too
    short to be kept, and the environment whose dictionary was loaded
    from it. *)
Definition demoResponse : jsstring :=
  js "hund" ++ [13; 10]%N ++ js " Katt" ++ [10]%N ++ js "x".

Definition loadedEnv : Environment :=
  svEnv (loadWordList (env := svEnv []) (Some demoResponse)).

(** ** The scores in the numbers of the runtime

    A JavaScript number is an IEEE 754 binary64: every operation rounds
    its exact result to the nearest such number, ties to even. The
    arithmetic is the one specified in the Standard Library
    ([SpecFloat]), at precision 53. *)
Module Double.

Definition prec : Z := 53.
Definition emax : Z := 1024.

(** An integer literal, or an integer-valued property such as
    [word.length]. *)
Definition ofZ (z : Z) : spec_float := binary_normalize prec emax z 0 false.

Definition add : spec_float -> spec_float -> spec_float := SFadd prec emax.
Definition mul : spec_float -> spec_float -> spec_float := SFmul prec emax.

(** The exact value of a finite number. *)
Definition toQ (x : spec_float) : Q :=
  match x with
  | S754_finite s m e =>
      let z := if s then Z.neg m else Z.pos m in
      if 0 <=? e then inject_Z (z * 2 ^ e)
      else Qmake z (Pos.pow 2 (Z.to_pos (- e)))
  | _ => 0%Q
  end.


(** [Math.round]: the integer nearest to the exact value, halves going
    up; -0 for what rounds to zero from below; NaN and the infinities are
    returned as they are. *)
Definition Math_round (x : spec_float) : spec_float :=
  match x with
  | S754_finite s _ _ =>
      let n := Qfloor (toQ x + (1 # 2))%Q in
      if (n =? 0) && s then S754_zero true else ofZ n
  | _ => x
  end.

Definition eqb (a b : spec_float) : bool :=
  match a, b with
  | S754_zero s, S754_zero s' => Bool.eqb s s'
  | S754_infinity s, S754_infinity s' => Bool.eqb s s'
  | S754_nan, S754_nan => true
  | S754_finite s m e, S754_finite s' m' e' =>
      Bool.eqb s s' && Pos.eqb m m' && Z.eqb e e'
  | _, _ => false
  end.

End Double.



(** [Math.floor(count * 0.35)] of [generateLetters] as the runtime
    computes it; 0.35 is the number 0x1.6666666666666p-2. *)
Definition vowelCount64 (count : Z) : Z :=
  Qfloor (Double.toQ (Double.mul (Double.ofZ count)
                                 (S754_finite false 6305039478318694 (-54)))).





(** ** The [join-game] handler on what a client sends

    Socket.IO hands the handler the object the client sent: the
    [playerName] of the request may be missing ([undefined], [None]
    here), and a player entered from such a request has no name. Calling
    [toLowerCase] on a missing name throws, and the handler answers every
    exception with 'Kunde inte gå med i spelet'. The handler reads and
    writes three fields of the game: the status, the host id and the
    table of players. *)

Module Guest.
Record t := mk {
  id : jsstring;
  name : option jsstring;
  score : Z;
  connected : bool
}.
Definition with_connected (p : t) (c : bool) : t := mk (id p) (name p) (score p) c.
End Guest.

Module Room.
Record t := mk {
  status : Status;
  hostId : option jsstring;
  players : list (jsstring * Guest.t)
}.
End Room.

(** The answers of the handler: success, one of the four refusals, or
    the answer of the [catch] branch. *)
Inductive JoinAnswer :=
| Joined (isHost : bool)
| Refused (error : JoinError)
| JoinThrew.

Inductive NameCheck := NameFree | NameInUse | NameThrows.

(** [player.name === playerName], [undefined] being equal to itself. *)
Definition sameName (a b : option jsstring) : bool :=
  match a, b with
  | Some x, Some y => str_eqb x y
  | None, None => true
  | _, _ => false
  end.

Definition mapValues {A B : Type} (f : A -> B) (m : list (jsstring * A))
  : list (jsstring * B) :=
  map (fun kv => (fst kv, f (snd kv))) m.

Section Requests.
Context {env : Environment}.

(** The loop over the players that looks for a connected player of the
    same name: [player.name.toLowerCase()] is evaluated first, then
    [playerName.toLowerCase()], then [player.connected]. *)
Fixpoint checkName (playerName : option jsstring) (players : list (jsstring * Guest.t))
  : NameCheck :=
  match players with
  | [] => NameFree
  | (_, player) :: rest =>
      match Guest.name player with
      | None => NameThrows
      | Some name =>
          match playerName with
          | None => NameThrows
          | Some requested =>
              if str_eqb (toLowerCase name) (toLowerCase requested)
                 && Guest.connected player
              then NameInUse
              else checkName playerName rest
          end
      end
  end.

(** The [join-game] handler on a game that was found, [try] and [catch]
    included. *)
Definition joinRoom (room : Room.t) (socketId : jsstring) (playerName : option jsstring)
  : Room.t * JoinAnswer :=
  if status_eqb (Room.status room) ended then (room, Refused GameEnded)
  else if MAX_PLAYERS_PER_ROOM <=? JsMap.size (Room.players room)
  then (room, Refused GameFull)
  else if JsMap.has socketId (Room.players room)
  then (room, Joined (isHostId socketId (Room.hostId room)))
  else
    match checkName playerName (Room.players room) with
    | NameThrows => (room, JoinThrew)
    | NameInUse => (room, Refused NameTaken)
    | NameFree =>
        let players' :=
          match find (fun kp => sameName (Guest.name (snd kp)) playerName
                                && negb (Guest.connected (snd kp)))
                     (Room.players room) with
          | Some (existingId, player) =>
              JsMap.set socketId (Guest.with_connected player true)
                        (JsMap.delete existingId (Room.players room))
          | None =>
              JsMap.set socketId (Guest.mk socketId playerName 0 true)
                        (Room.players room)
          end in
        let hostId' :=
          match Room.hostId room with
          | None => Some socketId
          | Some h => Some h
          end in
        (Room.mk (Room.status room) hostId' players',
         Joined (isHostId socketId hostId'))
    end.

(** The handler from the registry; a refusal writes nothing. *)
Definition onJoinRequest (rooms : list (jsstring * Room.t)) (socketId gameId : jsstring)
           (playerName : option jsstring)
  : list (jsstring * Room.t) * JoinAnswer :=
  match JsMap.get gameId rooms with
  | None => (rooms, Refused GameNotFound)
  | Some room =>
      match joinRoom room socketId playerName with
      | (room', Joined isHost) => (JsMap.set gameId room' rooms, Joined isHost)
      | (_, answer) => (rooms, answer)
      end
  end.

(** A connected player of the table has the name, up to case. *)
Definition guestNameTaken (playerName : jsstring) (players : list (jsstring * Guest.t))
  : Prop :=
  exists k p name, In (k, p) players
                   /\ Guest.connected p = true
                   /\ Guest.name p = Some name
                   /\ toLowerCase name = toLowerCase playerName.

End Requests.

(** A player of the table has no name. *)
Definition unnamed (players : list (jsstring * Guest.t)) : Prop :=
  exists k p, In (k, p) players /\ Guest.name p = None.

(** The games and answers of the handlers above, whose names are all
    strings, as the handler on requests sees them. *)
Definition guestOf (p : Player.t) : Guest.t :=
  Guest.mk (Player.id p) (Some (Player.name p)) (Player.score p) (Player.connected p).

Definition roomOf (g : Game.t) : Room.t :=
  Room.mk (Game.status g) (Game.hostId g) (mapValues guestOf (Game.players g)).

Definition answerOf (r : JoinResult) : JoinAnswer :=
  match r with
  | JoinOk isHost => Joined isHost
  | JoinFail error => Refused error
  end.

(** A game just created, and the same game after a request without a
    name was accepted into the empty table. *)
Definition demoRooms : list (jsstring * Room.t) :=
  [(js "ABC234", roomOf demoFreeForAll)].

Definition demoNameless : list (jsstring * Room.t) :=
  fst (onJoinRequest (env := demoEnv) demoRooms (js "s1") (js "ABC234") None).
(** ** Strings: basic facts *)

Lemma str_eqb_eq (a b : jsstring) : str_eqb a b = true <-> a = b.
Proof.
  revert b; induction a as [|x a IH]; intros [|y b]; simpl; split; intro H;
    try reflexivity; try discriminate.
  - apply andb_true_iff in H as [Hx Hab].
    apply N.eqb_eq in Hx. apply IH in Hab. congruence.
  - injection H as -> ->. rewrite N.eqb_refl. simpl. now apply IH.
Qed.

Lemma str_eqb_refl (a : jsstring) : str_eqb a a = true.
Proof. now apply str_eqb_eq. Qed.

Lemma str_eqb_neq (a b : jsstring) : str_eqb a b = false <-> a <> b.
Proof.
  split.
  - intros H E. apply str_eqb_eq in E. congruence.
  - intros H. destruct (str_eqb a b) eqn:E; [|reflexivity].
    apply str_eqb_eq in E. contradiction.
Qed.

Lemma str_eqb_sym (a b : jsstring) : str_eqb a b = str_eqb b a.
Proof.
  destruct (str_eqb a b) eqn:E.
  - apply str_eqb_eq in E. subst. symmetry. apply str_eqb_refl.
  - symmetry. apply str_eqb_neq. apply str_eqb_neq in E. congruence.
Qed.

Lemma jsstring_eq_dec (a b : jsstring) : {a = b} + {a <> b}.
Proof.
  destruct (str_eqb a b) eqn:E.
  - left. now apply str_eqb_eq.
  - right. now apply str_eqb_neq.
Defined.

Ltac str_cases a b :=
  let E := fresh "E" in
  destruct (str_eqb a b) eqn:E;
  [apply str_eqb_eq in E | apply str_eqb_neq in E].

Lemma trimStart_head (s : jsstring) :
  match trimStart s with
  | [] => True
  | c :: _ => isWhiteSpace c = false
  end.
Proof.
  induction s as [|c r IH]; simpl; [exact I|].
  destruct (isWhiteSpace c) eqn:E; [exact IH | exact E].
Qed.

Lemma trimStart_fixed (s : jsstring) :
  match s with [] => True | c :: _ => isWhiteSpace c = false end ->
  trimStart s = s.
Proof. destruct s as [|c r]; simpl; [reflexivity|]. now intros ->. Qed.

Lemma trimStart_idem (s : jsstring) : trimStart (trimStart s) = trimStart s.
Proof. apply trimStart_fixed, trimStart_head. Qed.

Lemma trimStart_app_keep (s t : jsstring) :
  trimStart s <> [] -> trimStart (s ++ t) = trimStart s ++ t.
Proof.
  induction s as [|c r IH]; simpl; [congruence|].
  destruct (isWhiteSpace c); [exact IH | reflexivity].
Qed.

(** Stripping the end of a string keeps its first character when that is
    not white space. *)
Lemma trimEnd_head (s : jsstring) :
  match s with [] => True | c :: _ => isWhiteSpace c = false end ->
  match trimEnd s with [] => True | c :: _ => isWhiteSpace c = false end.
Proof.
  destruct s as [|c r]; [intros _; exact I|]. intros Hc.
  unfold trimEnd. simpl rev.
  destruct (trimStart (rev r)) as [|d u] eqn:E.
  - assert (H : trimStart (rev r ++ [c]) = [c]).
    { revert E. generalize (rev r). intros l.
      induction l as [|x l IH]; simpl.
      - now rewrite Hc.
      - destruct (isWhiteSpace x); [exact IH | discriminate]. }
    rewrite H. simpl. exact Hc.
  - rewrite trimStart_app_keep by (rewrite E; discriminate).
    rewrite E, rev_app_distr. simpl. exact Hc.
Qed.

Lemma trim_idem (s : jsstring) : trim (trim s) = trim s.
Proof.
  unfold trim.
  rewrite (trimStart_fixed (trimEnd (trimStart s))).
  - unfold trimEnd. rewrite rev_involutive, trimStart_idem. reflexivity.
  - apply trimEnd_head, trimStart_head.
Qed.

Lemma codePoints_cons (c : N) (s : jsstring) :
  codePoints (c :: s) =
  match s with
  | d :: r' =>
      if isHighSurrogate c && isLowSurrogate d
      then [c; d] :: codePoints r'
      else [c] :: codePoints s
  | [] => [[c]]
  end.
Proof. destruct s; reflexivity. Qed.

Lemma codePoints_concat (s : jsstring) : concat (codePoints s) = s.
Proof.
  assert (H : concat (codePoints s) = s /\
              forall c, concat (codePoints (c :: s)) = c :: s).
  { induction s as [|d r [IH1 IH2]]; split; try reflexivity.
    - apply IH2.
    - intros c. rewrite codePoints_cons.
      destruct (isHighSurrogate c && isLowSurrogate d).
      + simpl concat. rewrite IH1. reflexivity.
      + change (concat ([c] :: codePoints (d :: r)))
          with (c :: concat (codePoints (d :: r))).
        rewrite IH2. reflexivity. }
  apply H.
Qed.

(** ** Scoring *)

Lemma Qfloor_plus_Z (y : Q) (n : Z) : Qfloor (y + inject_Z n) = Qfloor y + n.
Proof.
  destruct y as [p q]. unfold Qplus, inject_Z, Qfloor. simpl Qnum. simpl Qden.
  rewrite Pos.mul_1_r, Z.mul_1_r. apply Z.div_add. discriminate.
Qed.

Lemma Math_round_plus_Z (x : Q) (n : Z) :
  Math_round (x + inject_Z n) = Math_round x + n.
Proof.
  unfold Math_round. rewrite <- Qfloor_plus_Z.
  apply Qfloor_comp. ring.
Qed.

Lemma Math_round_Z (n : Z) : Math_round (inject_Z n) = n.
Proof.
  unfold Math_round, Qplus, inject_Z, Qfloor. simpl Qnum. simpl Qden.
  replace (n * 2 + 1 * 1) with (1 + n * 2) by ring.
  rewrite Z.div_add by discriminate. reflexivity.
Qed.

Lemma Qmax_Z (a b : Z) : (Qmax (inject_Z a) (inject_Z b) == inject_Z (Z.max a b))%Q.
Proof.
  destruct (Z.le_ge_cases a b) as [H|H].
  - rewrite Z.max_r by exact H. apply Q.max_r. now rewrite <- Zle_Qle.
  - rewrite Z.max_l by exact H. apply Q.max_l. now rewrite <- Zle_Qle.
Qed.

(** On the whole seconds that [submitWord] passes, the score is the
    integer formula. *)
Lemma calculateFreeForAllScore_Z (word : jsstring) (t : Z) :
  calculateFreeForAllScore word (inject_Z t) =
  Z.of_nat (length word) * Z.max 0 (60 - t)
  + (if (6 <? length word)%nat then 5 else 0).
Proof.
  unfold calculateFreeForAllScore.
  assert (E : (inject_Z (Z.of_nat (length word)) * Qmax 0 (60 - inject_Z t)
               == inject_Z (Z.of_nat (length word) * Z.max 0 (60 - t)))%Q).
  { rewrite inject_Z_mult. apply Qmult_comp; [reflexivity|].
    rewrite <- Qmax_Z. apply Q.max_compat; [reflexivity|].
    unfold Qeq, Qminus, Qplus, Qopp, inject_Z.
    cbn [Qnum Qden]. lia. }
  destruct (6 <? length word)%nat.
  - change 5%Q with (inject_Z 5). rewrite Math_round_plus_Z.
    unfold Math_round. rewrite (Qfloor_comp _ _ (Qplus_comp _ _ E _ _ (Qeq_refl _))).
    fold (Math_round (inject_Z (Z.of_nat (length word) * Z.max 0 (60 - t)))).
    now rewrite Math_round_Z.
  - unfold Math_round. rewrite (Qfloor_comp _ _ (Qplus_comp _ _ E _ _ (Qeq_refl _))).
    fold (Math_round (inject_Z (Z.of_nat (length word) * Z.max 0 (60 - t)))).
    rewrite Math_round_Z. lia.
Qed.

(** *** In the numbers of the runtime *)






(** The number of vowels that [generateLetters] draws: the numbers of
    the runtime give the exact floor for every count under 180, and one
    less at 180. *)
Lemma vowelCount64_small (count : Z) :
  0 <= count < 180 ->
  vowelCount64 count = Qfloor (inject_Z count * (35 # 100)).
Proof.
  intros Hc.
  assert (H : forallb (fun k => vowelCount64 (Z.of_nat k)
                                =? Qfloor (inject_Z (Z.of_nat k) * (35 # 100)))
                      (seq 0 180) = true) by (vm_compute; reflexivity).
  rewrite forallb_forall in H. specialize (H (Z.to_nat count)).
  rewrite Z2Nat.id in H by lia. apply Z.eqb_eq, H, in_seq. lia.
Qed.

Lemma vowelCount64_180 :
  vowelCount64 180 = 62 /\ Qfloor (inject_Z 180 * (35 # 100)) = 63.
Proof. split; vm_compute; reflexivity. Qed.




(** ** Forming a word from the letters *)

Lemma occurrences_In (c : jsstring) (l : list jsstring) :
  In c l <-> (0 < occurrences c l)%nat.
Proof.
  induction l as [|x r IH]; simpl.
  - split; [tauto | lia].
  - str_cases x c.
    + split; [lia | now left].
    + rewrite <- IH. split; [intros [H|H]; [contradiction | exact H] | now right].
Qed.

Lemma occurrences_perm (c : jsstring) (l l' : list jsstring) :
  Permutation l l' -> occurrences c l = occurrences c l'.
Proof.
  induction 1 as [|x l l' _ IH|x y l|l l' l'' _ IH1 _ IH2]; simpl.
  - reflexivity.
  - now rewrite IH.
  - destruct (str_eqb x c), (str_eqb y c); reflexivity.
  - congruence.
Qed.

Lemma indexOf_None (c : jsstring) (l : list jsstring) :
  indexOf c l = None <-> occurrences c l = O.
Proof.
  induction l as [|x r IH]; simpl; [tauto|].
  destruct (str_eqb x c).
  - split; discriminate.
  - destruct (indexOf c r); [split; [discriminate|] | tauto].
    intros H. apply IH in H. discriminate.
Qed.

(** [splice] takes out exactly the element [indexOf] found. *)
Lemma indexOf_removeAt (c : jsstring) (l : list jsstring) (i : nat) :
  indexOf c l = Some i -> Permutation l (c :: removeAt i l).
Proof.
  revert i; induction l as [|x r IH]; simpl; intros i H; [discriminate|].
  str_cases x c.
  - injection H as <-. subst x. apply Permutation_refl.
  - destruct (indexOf c r) as [j|] eqn:Ej; [|discriminate].
    injection H as <-. simpl.
    eapply Permutation_trans; [apply perm_skip, IH; reflexivity | apply perm_swap].
Qed.

Lemma canFormChars_occurrences (chars pool : list jsstring) :
  canFormChars chars pool = true <->
  (forall c, (occurrences c chars <= occurrences c pool)%nat).
Proof.
  revert pool; induction chars as [|ch rest IH]; intros pool; simpl.
  - split; [intros _ c; lia | reflexivity].
  - destruct (indexOf ch pool) as [i|] eqn:Ei.
    + rewrite IH. apply indexOf_removeAt in Ei.
      split; intros H c; specialize (H c);
        rewrite (occurrences_perm c _ _ Ei) in *; simpl in *;
        destruct (str_eqb ch c); lia.
    + split; [discriminate|]. intros H. specialize (H ch).
      apply indexOf_None in Ei. rewrite Ei, str_eqb_refl in H. lia.
Qed.

(** The characters that do not occur in the word need no check. *)
Lemma canFormChars_distinct (chars pool : list jsstring) :
  canFormChars chars pool = true <->
  (forall c, In c chars -> (occurrences c chars <= occurrences c pool)%nat).
Proof.
  rewrite canFormChars_occurrences. split; intros H c; [intros _; apply H|].
  destruct (occurrences c chars) eqn:E; [lia|].
  rewrite <- E. apply H, occurrences_In. lia.
Qed.

Lemma bool_eq_iff (a b : bool) : (a = true <-> b = true) -> a = b.
Proof. destruct a, b; intuition congruence. Qed.

Lemma canFormChars_perm_pool (chars pool pool' : list jsstring) :
  Permutation pool pool' -> canFormChars chars pool' = canFormChars chars pool.
Proof.
  intros P. apply bool_eq_iff. rewrite !canFormChars_occurrences.
  split; intros H c; specialize (H c);
    rewrite (occurrences_perm c _ _ P) in *; exact H.
Qed.

Lemma canFormChars_perm_chars (chars chars' pool : list jsstring) :
  Permutation chars chars' -> canFormChars chars' pool = canFormChars chars pool.
Proof.
  intros P. apply bool_eq_iff. rewrite !canFormChars_occurrences.
  split; intros H c; specialize (H c);
    rewrite (occurrences_perm c _ _ P) in *; exact H.
Qed.

(** *** The working copy *)

Lemma readArray_write_same (p : nat) (a : list jsstring) (h : Heap) :
  (p < length h)%nat -> readArray p (writeArray p a h) = a.
Proof.
  unfold readArray. revert p; induction h as [|x h IH]; intros [|p] Hp; simpl in *;
    try lia; [reflexivity|]. apply IH. lia.
Qed.

Lemma readArray_write_other (p r : nat) (a : list jsstring) (h : Heap) :
  r <> p -> readArray r (writeArray p a h) = readArray r h.
Proof.
  unfold readArray. revert p r; induction h as [|x h IH]; intros [|p] [|r] Hr; simpl;
    try reflexivity; try congruence. apply IH. congruence.
Qed.

Lemma length_writeArray (p : nat) (a : list jsstring) (h : Heap) :
  length (writeArray p a h) = length h.
Proof.
  revert p; induction h as [|x h IH]; intros [|p]; simpl; try reflexivity.
  now rewrite IH.
Qed.

Lemma canFormLoop_spec (chars : list jsstring) (p : nat) (h : Heap) :
  (p < length h)%nat ->
  fst (canFormLoop chars p h) = canFormChars chars (readArray p h)
  /\ forall r, r <> p -> readArray r (snd (canFormLoop chars p h)) = readArray r h.
Proof.
  revert h; induction chars as [|ch rest IH]; intros h Hp; simpl.
  - split; [reflexivity | intros; reflexivity].
  - destruct (indexOf ch (readArray p h)) as [i|]; simpl.
    + destruct (IH (writeArray p (removeAt i (readArray p h)) h)) as [H1 H2].
      { now rewrite length_writeArray. }
      rewrite H1, readArray_write_same by exact Hp. split; [reflexivity|].
      intros r Hr. rewrite H2 by exact Hr. now apply readArray_write_other.
    + split; [reflexivity | intros; reflexivity].
Qed.

Lemma canFormWordHeap_spec {env : Environment} (word : jsstring) (r : nat) (h : Heap) :
  fst (canFormWordHeap word r h) = canFormWord word (readArray r h)
  /\ forall r', (r' < length h)%nat ->
       readArray r' (snd (canFormWordHeap word r h)) = readArray r' h.
Proof.
  unfold canFormWordHeap, canFormWord, copyArray.
  destruct (canFormLoop_spec (codePoints (toUpperCase word)) (length h)
              (h ++ [readArray r h])) as [H1 H2].
  { rewrite length_app. simpl. lia. }
  split.
  - rewrite H1. unfold readArray at 1. rewrite app_nth2 by lia.
    now rewrite Nat.sub_diag.
  - intros r' Hr'. rewrite H2 by lia. unfold readArray. now rewrite app_nth1.
Qed.

(** C6, as the code has it. [canFormWord] upper-cases the word first: it
    returns true exactly when every distinct character of the upper-cased
    word occurs in it at most as often as in the letters. The answer does
    not depend on the order of the letters nor on the order of the
    characters of the word; the letters A, A, B accept "AA" and refuse
    "AAA"; and on a store of arrays the call works on a copy, every array
    that existed before the call (the letters among them) being
    unchanged after it. *)
Theorem canFormWord_upper_multiset (env : Environment) :
  (forall word letters,
      canFormWord word letters = true <->
      (forall c, In c (codePoints (toUpperCase word)) ->
                 (occurrences c (codePoints (toUpperCase word))
                  <= occurrences c letters)%nat))
  /\ (forall word letters letters',
         Permutation letters letters' ->
         canFormWord word letters' = canFormWord word letters)
  /\ (forall word word' letters,
         Permutation (codePoints (toUpperCase word)) (codePoints (toUpperCase word')) ->
         canFormWord word' letters = canFormWord word letters)
  /\ (forall word r h,
         fst (canFormWordHeap word r h) = canFormWord word (readArray r h)
         /\ forall r', (r' < length h)%nat ->
              readArray r' (snd (canFormWordHeap word r h)) = readArray r' h)
  /\ canFormWord (env := svEnv []) (js "AA") [js "A"; js "A"; js "B"] = true
  /\ canFormWord (env := svEnv []) (js "AAA") [js "A"; js "A"; js "B"] = false.
Proof.
  split; [|split; [|split; [|split; [|split]]]].
  - intros word letters. apply canFormChars_distinct.
  - intros word letters letters' P. now apply canFormChars_perm_pool.
  - intros word word' letters P. now apply canFormChars_perm_chars.
  - intros word r h. apply canFormWordHeap_spec.
  - reflexivity.
  - reflexivity.
Qed.

Lemma canFormWord_upper_multiset_witness :
  canFormWord (env := svEnv []) (js "DAN") [js "A"; js "D"; js "N"] =
  canFormWord (env := svEnv []) (js "DAN") [js "N"; js "A"; js "D"]
  /\ canFormWord (env := svEnv []) (js "and") [js "N"; js "A"; js "D"] =
     canFormWord (env := svEnv []) (js "DAN") [js "N"; js "A"; js "D"]
  /\ readArray 0
       (snd (canFormWordHeap (env := svEnv []) (js "DAN") 0 [[js "N"; js "A"; js "D"]]))
     = [js "N"; js "A"; js "D"].
Proof.
  destruct (canFormWord_upper_multiset (svEnv [])) as (_ & Hl & Hw & Hh & _).
  split; [|split].
  - apply (Hl (js "DAN") [js "N"; js "A"; js "D"] [js "A"; js "D"; js "N"]).
    change [js "A"; js "D"; js "N"] with ([js "A"; js "D"] ++ [js "N"]).
    apply Permutation_cons_append.
  - apply (Hw (js "DAN") (js "and") [js "N"; js "A"; js "D"]).
    vm_compute.
    apply perm_trans with (l' := [[65%N]; [68%N]; [78%N]]);
      [apply perm_swap | apply perm_skip, perm_swap].
  - apply (proj2 (Hh (js "DAN") O [[js "N"; js "A"; js "D"]]) O).
    simpl. lia.
Defined.

(** The claim read on the word as given fails on a lower-case word: "aa"
    is formed from A, A, B although the letters hold no "a". *)
Lemma canFormWord_lowercase_counterexample :
  ~ (canFormWord (env := svEnv []) (js "aa") [js "A"; js "A"; js "B"] = true <->
     (forall c, In c (codePoints (js "aa")) ->
                (occurrences c (codePoints (js "aa"))
                 <= occurrences c [js "A"; js "A"; js "B"])%nat)).
Proof.
  intros [H _].
  specialize (H eq_refl (js "a")).
  vm_compute in H.
  assert (Hin : [97%N] = [97%N] \/ [97%N] = [97%N] \/ False) by (left; reflexivity).
  specialize (H Hin). inversion H.
Qed.

(** ** Maps in insertion order *)

Section JsMapFacts.
Context {V : Type}.
Implicit Types (m : list (jsstring * V)) (k : jsstring) (v : V).

Lemma JsMap_get_set_same k v m : JsMap.get k (JsMap.set k v m) = Some v.
Proof.
  induction m as [|[k' v'] m IH]; simpl.
  - now rewrite str_eqb_refl.
  - destruct (str_eqb k' k) eqn:E; simpl; rewrite E; [reflexivity | exact IH].
Qed.

Lemma JsMap_get_set_other k k' v m :
  k' <> k -> JsMap.get k' (JsMap.set k v m) = JsMap.get k' m.
Proof.
  intros Hk. induction m as [|[k0 v0] m IH]; simpl.
  - str_cases k k'; [congruence | reflexivity].
  - str_cases k0 k; simpl.
    + subst k0. str_cases k k'; [congruence | reflexivity].
    + rewrite IH. reflexivity.
Qed.

Lemma JsMap_has_keys k m : JsMap.has k m = true <-> In k (JsMap.keys m).
Proof.
  unfold JsMap.has. induction m as [|[k' v'] m IH]; simpl.
  - split; [discriminate | tauto].
  - str_cases k' k.
    + split; [now left | reflexivity].
    + rewrite IH. split; [now right | intros [H|H]; [contradiction | exact H]].
Qed.

Lemma JsMap_has_false k m : JsMap.has k m = false <-> ~ In k (JsMap.keys m).
Proof.
  rewrite <- JsMap_has_keys. destruct (JsMap.has k m); split; congruence.
Qed.

Lemma JsMap_get_None k m : JsMap.get k m = None <-> ~ In k (JsMap.keys m).
Proof.
  rewrite <- JsMap_has_false. unfold JsMap.has.
  destruct (JsMap.get k m); split; congruence.
Qed.

Lemma JsMap_get_In k v m : JsMap.get k m = Some v -> In (k, v) m.
Proof.
  induction m as [|[k' v'] m IH]; simpl; [discriminate|].
  str_cases k' k.
  - intros [= ->]. subst. now left.
  - intros H. right. now apply IH.
Qed.

Lemma JsMap_In_get k v m :
  NoDup (JsMap.keys m) -> In (k, v) m -> JsMap.get k m = Some v.
Proof.
  induction m as [|[k' v'] m IH]; simpl; [tauto|].
  intros Hnd [H|H].
  - injection H as -> ->. now rewrite str_eqb_refl.
  - inversion Hnd as [|? ? Hn Hnd']; subst.
    str_cases k' k.
    + subst. exfalso. apply Hn. apply (in_map fst) in H. exact H.
    + now apply IH.
Qed.

(** A new key goes to the end. *)
Lemma JsMap_set_fresh k v m : JsMap.has k m = false -> JsMap.set k v m = m ++ [(k, v)].
Proof.
  unfold JsMap.has. induction m as [|[k' v'] m IH]; simpl; [reflexivity|].
  destruct (str_eqb k' k); [discriminate|]. intros H. now rewrite IH.
Qed.

(** A key that is present is met once, where [get] finds it, and [set]
    and [delete] act there. *)
Lemma JsMap_get_split k v m :
  JsMap.get k m = Some v ->
  exists l1 l2,
    m = l1 ++ (k, v) :: l2
    /\ ~ In k (JsMap.keys l1)
    /\ (forall v', JsMap.set k v' m = l1 ++ (k, v') :: l2)
    /\ JsMap.delete k m = l1 ++ l2.
Proof.
  induction m as [|[k' v'] m IH]; simpl; [discriminate|].
  str_cases k' k.
  - intros [= ->]. subst k'. exists [], m. simpl. repeat split; tauto.
  - intros H. destruct (IH H) as (l1 & l2 & -> & Hn & Hs & Hd).
    exists ((k', v') :: l1), l2. simpl. repeat split.
    + intros [F|F]; [contradiction | now apply Hn].
    + intros v0. now rewrite Hs.
    + now rewrite Hd.
Qed.

Lemma JsMap_In_set k v k' v' m :
  In (k', v') (JsMap.set k v m) -> (k' = k /\ v' = v) \/ In (k', v') m.
Proof.
  induction m as [|[k0 v0] m IH]; simpl.
  - intros [[= <- <-]|[]]. now left.
  - str_cases k0 k; simpl.
    + intros [[= <- <-]|H]; [left; now split | right; now right].
    + intros [H|H]; [right; now left|].
      destruct (IH H) as [H'|H']; [now left | right; now right].
Qed.

Lemma JsMap_keys_set k v m :
  JsMap.keys (JsMap.set k v m) =
  if JsMap.has k m then JsMap.keys m else JsMap.keys m ++ [k].
Proof.
  unfold JsMap.has. induction m as [|[k0 v0] m IH]; simpl; [reflexivity|].
  destruct (str_eqb k0 k); simpl; [reflexivity|].
  rewrite IH. now destruct (JsMap.get k m).
Qed.

Lemma JsMap_NoDup_set k v m :
  NoDup (JsMap.keys m) -> NoDup (JsMap.keys (JsMap.set k v m)).
Proof.
  intros H. rewrite JsMap_keys_set. destruct (JsMap.has k m) eqn:E; [exact H|].
  apply JsMap_has_false in E.
  apply NoDup_rev in H. rewrite <- (rev_involutive (_ ++ _)).
  apply NoDup_rev. rewrite rev_app_distr. simpl. constructor; [|exact H].
  now rewrite <- in_rev.
Qed.

Lemma JsMap_set_same k v m : JsMap.get k m = Some v -> JsMap.set k v m = m.
Proof.
  intros H. destruct (JsMap_get_split _ _ _ H) as (l1 & l2 & E & _ & Hs & _).
  now rewrite Hs.
Qed.

End JsMapFacts.

Lemma JsSet_has_In (x : jsstring) (s : list jsstring) : JsSet.has x s = true <-> In x s.
Proof.
  unfold JsSet.has. rewrite existsb_exists. split.
  - intros (y & Hy & E). apply str_eqb_eq in E. now subst.
  - intros H. exists x. split; [exact H | apply str_eqb_refl].
Qed.

Lemma JsSet_has_add (x y : jsstring) (s : list jsstring) :
  JsSet.has x (JsSet.add y s) = true <-> x = y \/ JsSet.has x s = true.
Proof.
  unfold JsSet.add. destruct (JsSet.has y s) eqn:E.
  - split; [now right | intros [->|H]; assumption].
  - rewrite !JsSet_has_In, in_app_iff. simpl. intuition congruence.
Qed.

Lemma generatedLetters_check (letters : list jsstring) :
  forallb (fun l => JsSet.has l (commonVowels ++ vowels ++ commonConsonants ++ consonants))
          letters = true ->
  generatedLetters letters.
Proof.
  intros H. apply Forall_forall. intros l Hl.
  rewrite forallb_forall in H. now apply JsSet_has_In, H.
Qed.

Lemma demoLetters_generated : generatedLetters demoLetters.
Proof. apply generatedLetters_check. reflexivity. Qed.

(** ** The order of the checks *)

Section Checks.
Context {env : Environment}.

Lemma status_eqb_eq (a b : Status) : status_eqb a b = true <-> a = b.
Proof. destruct a, b; simpl; split; congruence. Qed.

(** [validateWord] gives the first failing reason, in its fixed order. *)
Lemma validateWord_cases (word : jsstring) (letters : list jsstring) (minLength : Z) :
  let upperWord := trim (toUpperCase word) in
  (upperWord = [] -> validateWord word letters minLength = Invalid EmptyWord)
  /\ (upperWord <> [] -> Z.of_nat (length upperWord) < minLength ->
      validateWord word letters minLength = Invalid (TooShort minLength))
  /\ (upperWord <> [] -> minLength <= Z.of_nat (length upperWord) ->
      canFormWord upperWord letters = false ->
      validateWord word letters minLength = Invalid InvalidLetters)
  /\ (upperWord <> [] -> minLength <= Z.of_nat (length upperWord) ->
      canFormWord upperWord letters = true ->
      isValidSwedishWord upperWord = false ->
      validateWord word letters minLength = Invalid NotSwedishWord)
  /\ (validateWord word letters minLength = Valid <->
      upperWord <> [] /\ minLength <= Z.of_nat (length upperWord)
      /\ canFormWord upperWord letters = true
      /\ isValidSwedishWord upperWord = true).
Proof.
  intros upperWord. unfold validateWord. fold upperWord.
  destruct upperWord as [|c r] eqn:E.
  - repeat split; try congruence; try discriminate. intros (H & _). congruence.
  - rewrite <- E.
    destruct (Z.ltb_spec (Z.of_nat (length upperWord)) minLength) as [Hl|Hl];
      [|destruct (canFormWord upperWord letters) eqn:Hc;
        [destruct (isValidSwedishWord upperWord) eqn:Hd|]]; simpl;
      repeat split; intros; try congruence; try discriminate; try lia;
      intuition (try congruence; try lia).
Qed.

Lemma submitWord_not_active (game : Game.t) (playerId word : jsstring) (now : Z) :
  JsMap.get playerId (Game.players game) = None \/ Game.status game <> playing ->
  submitWord game playerId word now = (game, SubmitFail GameNotActive).
Proof.
  unfold submitWord. intros [H|H].
  - now rewrite H.
  - destruct (JsMap.get playerId (Game.players game)); [|reflexivity].
    destruct (status_eqb (Game.status game) playing) eqn:E; [|reflexivity].
    apply status_eqb_eq in E. contradiction.
Qed.

Lemma submitWord_invalid (game : Game.t) (playerId word : jsstring) (now : Z)
      (player : Player.t) (error : ValidationError) :
  JsMap.get playerId (Game.players game) = Some player ->
  Game.status game = playing ->
  validateWord (trim (toUpperCase word)) (Game.letters game) (Game.minWordLength game)
  = Invalid error ->
  submitWord game playerId word now = (game, SubmitFail (InvalidWord error)).
Proof.
  unfold submitWord. intros -> -> ->. reflexivity.
Qed.

(** What an accepted submission went through. *)
Lemma submitWord_accepted (game game' : Game.t) (playerId word w : jsstring)
      (now score total : Z) :
  submitWord game playerId word now = (game', SubmitOk w score total) ->
  w = trim (toUpperCase word)
  /\ (exists player, JsMap.get playerId (Game.players game) = Some player
                     /\ total = Player.score player + score)
  /\ Game.status game = playing
  /\ validateWord w (Game.letters game) (Game.minWordLength game) = Valid.
Proof.
  unfold submitWord.
  destruct (JsMap.get playerId (Game.players game)) as [player|]; [|discriminate].
  destruct (status_eqb (Game.status game) playing) eqn:Es; [|discriminate].
  apply status_eqb_eq in Es. simpl.
  destruct (validateWord _ _ _) eqn:Ev; [|discriminate].
  destruct (Game.mode game).
  - destruct (JsSet.has _ _); [discriminate|].
    intros [= <- <- <- <-]. repeat split; eauto.
  - destruct (JsMap.has _ _); [discriminate|].
    intros [= <- <- <- <-]. repeat split; eauto.
Qed.

Lemma startGame_cases (game : Game.t) (socketId : jsstring) (now : Z) :
  (isHostId socketId (Game.hostId game) = false ->
   startGame game socketId now = (game, StartFail OnlyHost))
  /\ (isHostId socketId (Game.hostId game) = true ->
      Game.status game <> waiting ->
      startGame game socketId now = (game, StartFail AlreadyStarted))
  /\ (forall game',
         startGame game socketId now = (game', StartOk) ->
         Game.status game = waiting /\ Game.status game' = playing
         /\ Game.hostId game' = Game.hostId game).
Proof.
  unfold startGame. destruct (isHostId socketId (Game.hostId game)); simpl;
    (split; [|split]); try congruence; try reflexivity.
  - intros _ H. destruct (Game.status game); simpl; congruence.
  - intros game'. destruct (Game.status game); simpl; try discriminate.
    destruct (JsMap.size (Game.players game) <? 1); [discriminate|].
    intros [= <-]. repeat split.
Qed.

End Checks.

(** C8, as the code has it. [submitWord] checks in order and stops at the
    first failure: a submitter missing from the player table or a status
    other than playing gives 'Spelet är inte aktivt' (so before the start
    and after the end); then the word, trimmed and upper-cased, must be
    non-empty, at least as long as the minimum, formable from the
    letters and in the dictionary, each failure with its own reason; the
    state is unchanged by every such rejection, and an accepted word
    passed all of these. [start-game] first requires the requester to be
    the host ('Endast värden kan starta spelet' otherwise, whatever the
    status); from the host, a session whose status is not waiting is
    rejected with 'Spelet har redan startat', so a second start fails. *)
Theorem submit_and_start_checks (env : Environment) :
  (forall game playerId word now,
      JsMap.get playerId (Game.players game) = None \/ Game.status game <> playing ->
      submitWord game playerId word now = (game, SubmitFail GameNotActive))
  /\ (forall game playerId word now player,
         JsMap.get playerId (Game.players game) = Some player ->
         Game.status game = playing ->
         let upperWord := trim (toUpperCase (trim (toUpperCase word))) in
         let letters := Game.letters game in
         let minLength := Game.minWordLength game in
         (upperWord = [] ->
          submitWord game playerId word now = (game, SubmitFail (InvalidWord EmptyWord)))
         /\ (upperWord <> [] -> Z.of_nat (length upperWord) < minLength ->
             submitWord game playerId word now
             = (game, SubmitFail (InvalidWord (TooShort minLength))))
         /\ (upperWord <> [] -> minLength <= Z.of_nat (length upperWord) ->
             canFormWord upperWord letters = false ->
             submitWord game playerId word now
             = (game, SubmitFail (InvalidWord InvalidLetters)))
         /\ (upperWord <> [] -> minLength <= Z.of_nat (length upperWord) ->
             canFormWord upperWord letters = true ->
             isValidSwedishWord upperWord = false ->
             submitWord game playerId word now
             = (game, SubmitFail (InvalidWord NotSwedishWord))))
  /\ (forall game game' playerId word now w score total,
         submitWord game playerId word now = (game', SubmitOk w score total) ->
         JsMap.has playerId (Game.players game) = true
         /\ Game.status game = playing
         /\ validateWord w (Game.letters game) (Game.minWordLength game) = Valid)
  /\ (forall game socketId now,
         isHostId socketId (Game.hostId game) = true ->
         Game.status game <> waiting ->
         startGame game socketId now = (game, StartFail AlreadyStarted))
  /\ (forall game socketId now,
         isHostId socketId (Game.hostId game) = false ->
         startGame game socketId now = (game, StartFail OnlyHost))
  /\ (forall game game' socketId now now',
         startGame game socketId now = (game', StartOk) ->
         startGame game' socketId now' = (game', StartFail AlreadyStarted)).
Proof.
  split; [|split; [|split; [|split; [|split]]]].
  - intros. now apply submitWord_not_active.
  - intros game playerId word now player Hp Hs upperWord letters minLength.
    destruct (validateWord_cases (trim (toUpperCase word)) letters minLength)
      as (H1 & H2 & H3 & H4 & _).
    fold upperWord in H1, H2, H3, H4.
    repeat split; intros; eapply submitWord_invalid; eauto.
  - intros game game' playerId word now w score total H.
    apply submitWord_accepted in H as (_ & (player & Hp & _) & Hs & Hv).
    repeat split; try assumption. unfold JsMap.has. now rewrite Hp.
  - intros game socketId now. apply startGame_cases.
  - intros game socketId now. apply startGame_cases.
  - intros game game' socketId now now' H.
    pose proof H as H'. unfold startGame in H'.
    destruct (isHostId socketId (Game.hostId game)) eqn:Eh; [|discriminate].
    apply startGame_cases in H as (_ & Hs & Hh).
    apply startGame_cases; [now rewrite Hh | rewrite Hs; discriminate].
Qed.

Lemma submit_and_start_checks_witness :
  submitWord (env := demoEnv) demoExclusive (js "s1") (js "hund") 1000
  = (demoExclusive, SubmitFail GameNotActive)
  /\ submitWord (env := demoEnv) (demoRound demoExclusive) (js "s1") (js "  ") 1000
     = (demoRound demoExclusive, SubmitFail (InvalidWord EmptyWord))
  /\ submitWord (env := demoEnv) (demoRound demoExclusive) (js "s1") (js "lax") 1000
     = (demoRound demoExclusive, SubmitFail (InvalidWord InvalidLetters))
  /\ startGame (demoRound demoExclusive) (js "s1") 2000
     = (demoRound demoExclusive, StartFail AlreadyStarted)
  /\ startGame (demoRound demoExclusive) (js "s2") 2000
     = (demoRound demoExclusive, StartFail OnlyHost).
Proof.
  destruct (submit_and_start_checks demoEnv) as (H1 & H2 & _ & H4 & H5 & _).
  split; [|split; [|split; [|split]]].
  - apply H1. left. reflexivity.
  - refine (proj1 (H2 (demoRound demoExclusive) (js "s1") (js "  ") 1000
                      (Player.mk (js "s1") (js "Alva") 0 true) eq_refl eq_refl) _).
    reflexivity.
  - refine (proj1 (proj2 (proj2 (H2 (demoRound demoExclusive) (js "s1") (js "lax") 1000
                      (Player.mk (js "s1") (js "Alva") 0 true) eq_refl eq_refl))) _ _ _).
    + discriminate.
    + vm_compute. discriminate.
    + reflexivity.
  - apply H4; [reflexivity | discriminate].
  - apply H5. reflexivity.
Defined.

(** The start request of a player who is not the host, in a round that is
    being played, is not answered with 'Spelet har redan startat'. *)
Lemma start_by_other_counterexample :
  Game.status (demoRound demoExclusive) <> waiting
  /\ snd (startGame (demoRound demoExclusive) (js "s2") 2000)
     <> StartFail AlreadyStarted.
Proof. split; vm_compute; discriminate. Qed.

(** ** Joining *)

Section Joining.
Context {env : Environment}.

Lemma nameTaken_existsb (playerName : jsstring) (players : list (jsstring * Player.t)) :
  existsb (fun kp => str_eqb (toLowerCase (Player.name (snd kp))) (toLowerCase playerName)
                     && Player.connected (snd kp)) players = true
  <-> nameTaken playerName players.
Proof.
  rewrite existsb_exists. unfold nameTaken. split.
  - intros ([k p] & Hin & H). apply andb_true_iff in H as [H1 H2].
    apply str_eqb_eq in H1. exists k, p. auto.
  - intros (k & p & Hin & H1 & H2). exists (k, p). split; [exact Hin|].
    simpl. rewrite H1, H2, str_eqb_refl. reflexivity.
Qed.

Lemma joinGame_rejected (game game' : Game.t) (socketId playerName : jsstring)
      (error : JoinError) :
  joinGame game socketId playerName = (game', JoinFail error) ->
  game' = game
  /\ ((Game.status game = ended /\ error = GameEnded)
      \/ (MAX_PLAYERS_PER_ROOM <= JsMap.size (Game.players game) /\ error = GameFull)
      \/ (nameTaken playerName (Game.players game) /\ error = NameTaken)).
Proof.
  unfold joinGame.
  destruct (status_eqb (Game.status game) ended) eqn:Es.
  { intros [= <- <-]. apply status_eqb_eq in Es. auto. }
  destruct (Z.leb_spec MAX_PLAYERS_PER_ROOM (JsMap.size (Game.players game))) as [Hf|Hf].
  { intros [= <- <-]. auto. }
  destruct (JsMap.has socketId (Game.players game)); [discriminate|].
  destruct (existsb _ (Game.players game)) eqn:Ex; [|discriminate].
  intros [= <- <-]. apply nameTaken_existsb in Ex. auto.
Qed.

Lemma joinGame_ended (game : Game.t) (socketId playerName : jsstring) :
  Game.status game = ended ->
  joinGame game socketId playerName = (game, JoinFail GameEnded).
Proof. unfold joinGame. now intros ->. Qed.

Lemma joinGame_full (game : Game.t) (socketId playerName : jsstring) :
  Game.status game <> ended ->
  MAX_PLAYERS_PER_ROOM <= JsMap.size (Game.players game) ->
  joinGame game socketId playerName = (game, JoinFail GameFull).
Proof.
  unfold joinGame. intros Hs Hf.
  destruct (status_eqb (Game.status game) ended) eqn:Es.
  { apply status_eqb_eq in Es. contradiction. }
  destruct (Z.leb_spec MAX_PLAYERS_PER_ROOM (JsMap.size (Game.players game)));
    [reflexivity | lia].
Qed.

Lemma joinGame_nameTaken (game : Game.t) (socketId playerName : jsstring) :
  Game.status game <> ended ->
  JsMap.size (Game.players game) < MAX_PLAYERS_PER_ROOM ->
  JsMap.has socketId (Game.players game) = false ->
  nameTaken playerName (Game.players game) ->
  joinGame game socketId playerName = (game, JoinFail NameTaken).
Proof.
  unfold joinGame. intros Hs Hf Hh Hn.
  destruct (status_eqb (Game.status game) ended) eqn:Es.
  { apply status_eqb_eq in Es. contradiction. }
  destruct (Z.leb_spec MAX_PLAYERS_PER_ROOM (JsMap.size (Game.players game))); [lia|].
  rewrite Hh. apply nameTaken_existsb in Hn. now rewrite Hn.
Qed.

(** The same socket joining again is answered at once. *)
Lemma joinGame_again (game : Game.t) (socketId playerName : jsstring) :
  Game.status game <> ended ->
  JsMap.size (Game.players game) < MAX_PLAYERS_PER_ROOM ->
  JsMap.has socketId (Game.players game) = true ->
  joinGame game socketId playerName
  = (game, JoinOk (isHostId socketId (Game.hostId game))).
Proof.
  unfold joinGame. intros Hs Hf Hh.
  destruct (status_eqb (Game.status game) ended) eqn:Es.
  { apply status_eqb_eq in Es. contradiction. }
  destruct (Z.leb_spec MAX_PLAYERS_PER_ROOM (JsMap.size (Game.players game))); [lia|].
  now rewrite Hh.
Qed.

(** The third case of the handler: the socket is not in the game and no
    connected player has the name. *)
Lemma joinGame_enter (game : Game.t) (socketId playerName : jsstring) :
  Game.status game <> ended ->
  JsMap.size (Game.players game) < MAX_PLAYERS_PER_ROOM ->
  JsMap.has socketId (Game.players game) = false ->
  ~ nameTaken playerName (Game.players game) ->
  joinGame game socketId playerName =
  let players' :=
    match find (fun kp => str_eqb (Player.name (snd kp)) playerName
                          && negb (Player.connected (snd kp)))
               (Game.players game) with
    | Some (existingId, player) =>
        JsMap.set socketId (Player.with_connected player true)
                  (JsMap.delete existingId (Game.players game))
    | None =>
        JsMap.set socketId (Player.mk socketId playerName 0 true) (Game.players game)
    end in
  let hostId' :=
    match Game.hostId game with
    | None => Some socketId
    | Some h => Some h
    end in
  (Game.with_hostId (Game.with_players game players') hostId',
   JoinOk (isHostId socketId hostId')).
Proof.
  unfold joinGame. intros Hs Hf Hh Hn.
  destruct (status_eqb (Game.status game) ended) eqn:Es.
  { apply status_eqb_eq in Es. contradiction. }
  destruct (Z.leb_spec MAX_PLAYERS_PER_ROOM (JsMap.size (Game.players game))); [lia|].
  rewrite Hh.
  destruct (existsb _ (Game.players game)) eqn:Ex; [|reflexivity].
  apply nameTaken_existsb in Ex. contradiction.
Qed.

End Joining.

(** *** Requests as the client sends them *)

Section MapValues.
Context {A B : Type}.
Variable f : A -> B.

Lemma get_mapValues k (m : list (jsstring * A)) :
  JsMap.get k (mapValues f m) = option_map f (JsMap.get k m).
Proof.
  induction m as [|[k0 v0] m IH]; simpl; [reflexivity|].
  now destruct (str_eqb k0 k).
Qed.

Lemma has_mapValues k (m : list (jsstring * A)) :
  JsMap.has k (mapValues f m) = JsMap.has k m.
Proof. unfold JsMap.has. rewrite get_mapValues. now destruct (JsMap.get k m). Qed.

Lemma size_mapValues (m : list (jsstring * A)) :
  JsMap.size (mapValues f m) = JsMap.size m.
Proof. unfold JsMap.size, mapValues. now rewrite length_map. Qed.

Lemma set_mapValues k v (m : list (jsstring * A)) :
  JsMap.set k (f v) (mapValues f m) = mapValues f (JsMap.set k v m).
Proof.
  induction m as [|[k0 v0] m IH]; simpl; [reflexivity|].
  destruct (str_eqb k0 k); simpl; [reflexivity|]. now rewrite IH.
Qed.

Lemma delete_mapValues k (m : list (jsstring * A)) :
  JsMap.delete k (mapValues f m) = mapValues f (JsMap.delete k m).
Proof.
  induction m as [|[k0 v0] m IH]; simpl; [reflexivity|].
  destruct (str_eqb k0 k); simpl; [reflexivity|]. now rewrite IH.
Qed.

End MapValues.

Section Requests.
Context {env : Environment}.

Lemma checkName_in_use (playerName : option jsstring)
      (players : list (jsstring * Guest.t)) :
  checkName playerName players = NameInUse ->
  exists name, playerName = Some name /\ guestNameTaken name players.
Proof.
  induction players as [|[k p] rest IH]; simpl; [discriminate|].
  destruct (Guest.name p) as [n|] eqn:En; [|discriminate].
  destruct playerName as [r|]; [|discriminate].
  destruct (str_eqb (toLowerCase n) (toLowerCase r) && Guest.connected p) eqn:E.
  - intros _. exists r. split; [reflexivity|].
    apply andb_true_iff in E as [E1 E2]. apply str_eqb_eq in E1.
    exists k, p, n. repeat split; auto. now left.
  - intros H. destruct (IH H) as (name & Hn & k' & p' & n' & Hin & Hc & Hp & Hl).
    exists name. split; [exact Hn|]. exists k', p', n'. repeat split; auto. now right.
Qed.

Lemma checkName_throws (playerName : option jsstring)
      (players : list (jsstring * Guest.t)) :
  checkName playerName players = NameThrows ->
  (playerName = None /\ players <> []) \/ unnamed players.
Proof.
  induction players as [|[k p] rest IH]; simpl; [discriminate|].
  destruct (Guest.name p) as [n|] eqn:En.
  - destruct playerName as [r|]; [|intros _; left; split; [reflexivity | discriminate]].
    destruct (str_eqb (toLowerCase n) (toLowerCase r) && Guest.connected p);
      [discriminate|].
    intros H. destruct (IH H) as [[F _]|(k' & p' & Hin & Hp)]; [discriminate|].
    right. exists k', p'. split; [now right | exact Hp].
  - intros _. right. exists k, p. split; [now left | exact En].
Qed.

Lemma checkName_missing (players : list (jsstring * Guest.t)) :
  players <> [] -> checkName None players = NameThrows.
Proof.
  destruct players as [|[k p] rest]; [congruence|]. intros _. simpl.
  now destruct (Guest.name p).
Qed.

Lemma checkName_named (name : jsstring) (players : list (jsstring * Guest.t)) :
  (forall k p, In (k, p) players -> Guest.name p <> None) ->
  checkName (Some name) players
  = if existsb (fun kp => match Guest.name (snd kp) with
                          | Some n => str_eqb (toLowerCase n) (toLowerCase name)
                                      && Guest.connected (snd kp)
                          | None => false
                          end) players
    then NameInUse else NameFree.
Proof.
  induction players as [|[k p] rest IH]; simpl; intros Hn; [reflexivity|].
  destruct (Guest.name p) as [n|] eqn:En; [|now destruct (Hn k p (or_introl eq_refl))].
  destruct (str_eqb (toLowerCase n) (toLowerCase name) && Guest.connected p);
    [reflexivity|].
  simpl. apply IH. intros k' p' Hin. apply (Hn k' p'). now right.
Qed.

Lemma guestNameTaken_existsb (name : jsstring) (players : list (jsstring * Guest.t)) :
  existsb (fun kp => match Guest.name (snd kp) with
                     | Some n => str_eqb (toLowerCase n) (toLowerCase name)
                                 && Guest.connected (snd kp)
                     | None => false
                     end) players = true
  <-> guestNameTaken name players.
Proof.
  rewrite existsb_exists. unfold guestNameTaken. split.
  - intros ([k p] & Hin & H). simpl in H.
    destruct (Guest.name p) as [n|] eqn:En; [|discriminate].
    apply andb_true_iff in H as [H1 H2]. apply str_eqb_eq in H1.
    exists k, p, n. auto.
  - intros (k & p & n & Hin & Hc & Hp & Hl). exists (k, p). split; [exact Hin|].
    simpl. rewrite Hp, Hl, Hc, str_eqb_refl. reflexivity.
Qed.

(** A request with a name meets a player without one before it meets a
    connected player of its name. *)
Lemma checkName_unnamed (name : jsstring) (players : list (jsstring * Guest.t)) :
  unnamed players ->
  ~ guestNameTaken name players ->
  checkName (Some name) players = NameThrows.
Proof.
  induction players as [|[k p] rest IH]; simpl; intros (k' & p' & Hin & Hp) Hn.
  - destruct Hin.
  - destruct (Guest.name p) as [n|] eqn:En; [|reflexivity].
    destruct (str_eqb (toLowerCase n) (toLowerCase name) && Guest.connected p) eqn:E.
    + exfalso. apply Hn. apply andb_true_iff in E as [E1 E2]. apply str_eqb_eq in E1.
      exists k, p, n. repeat split; auto. now left.
    + apply IH.
      * destruct Hin as [[= <- <-]|Hin]; [congruence|]. now exists k', p'.
      * intros (k1 & p1 & n1 & Hin1 & H1). apply Hn. exists k1, p1, n1.
        split; [now right | exact H1].
Qed.

(** Every answer that is not a success leaves the game as it was and
    has one of four causes. *)
Lemma joinRoom_refused (room room' : Room.t) (socketId : jsstring)
      (playerName : option jsstring) (answer : JoinAnswer) :
  joinRoom room socketId playerName = (room', answer) ->
  (exists isHost, answer = Joined isHost)
  \/ (room' = room
      /\ ((Room.status room = ended /\ answer = Refused GameEnded)
          \/ (MAX_PLAYERS_PER_ROOM <= Z.of_nat (length (Room.players room))
              /\ answer = Refused GameFull)
          \/ (exists name, playerName = Some name
                           /\ guestNameTaken name (Room.players room)
                           /\ answer = Refused NameTaken)
          \/ (((playerName = None /\ Room.players room <> [])
               \/ unnamed (Room.players room))
              /\ answer = JoinThrew))).
Proof.
  unfold joinRoom.
  destruct (status_eqb (Room.status room) ended) eqn:Es.
  { intros [= <- <-]. apply status_eqb_eq in Es. right. auto. }
  destruct (Z.leb_spec MAX_PLAYERS_PER_ROOM (JsMap.size (Room.players room))) as [Hf|Hf].
  { intros [= <- <-]. right. auto. }
  destruct (JsMap.has socketId (Room.players room)).
  { intros [= <- <-]. left. eauto. }
  destruct (checkName playerName (Room.players room)) eqn:Ec.
  - intros [= <- <-]. left. eauto.
  - intros [= <- <-]. right. split; [reflexivity|]. right. right. left.
    destruct (checkName_in_use _ _ Ec) as (name & Hn & Ht). eauto.
  - intros [= <- <-]. right. split; [reflexivity|]. right. right. right.
    split; [now apply checkName_throws | reflexivity].
Qed.

Lemma joinRoom_guard (room : Room.t) (socketId : jsstring)
      (playerName : option jsstring) :
  Room.status room <> ended ->
  Z.of_nat (length (Room.players room)) < MAX_PLAYERS_PER_ROOM ->
  JsMap.has socketId (Room.players room) = false ->
  joinRoom room socketId playerName =
  match checkName playerName (Room.players room) with
  | NameThrows => (room, JoinThrew)
  | NameInUse => (room, Refused NameTaken)
  | NameFree =>
      let players' :=
        match find (fun kp => sameName (Guest.name (snd kp)) playerName
                              && negb (Guest.connected (snd kp)))
                   (Room.players room) with
        | Some (existingId, player) =>
            JsMap.set socketId (Guest.with_connected player true)
                      (JsMap.delete existingId (Room.players room))
        | None =>
            JsMap.set socketId (Guest.mk socketId playerName 0 true)
                      (Room.players room)
        end in
      let hostId' :=
        match Room.hostId room with
        | None => Some socketId
        | Some h => Some h
        end in
      (Room.mk (Room.status room) hostId' players',
       Joined (isHostId socketId hostId'))
  end.
Proof.
  unfold joinRoom. intros Hs Hf Hh.
  destruct (status_eqb (Room.status room) ended) eqn:Es.
  { apply status_eqb_eq in Es. contradiction. }
  destruct (Z.leb_spec MAX_PLAYERS_PER_ROOM (JsMap.size (Room.players room))) as [H|H];
    [unfold JsMap.size in H; lia|].
  now rewrite Hh.
Qed.

(** On a game whose players all have names, and for a request with a
    name, the handler is [joinGame]. *)
Lemma checkName_typed (name : jsstring) (players : list (jsstring * Player.t)) :
  checkName (Some name) (mapValues guestOf players)
  = if existsb (fun kp => str_eqb (toLowerCase (Player.name (snd kp))) (toLowerCase name)
                          && Player.connected (snd kp)) players
    then NameInUse else NameFree.
Proof.
  induction players as [|[k p] rest IH]; simpl; [reflexivity|].
  destruct (str_eqb (toLowerCase (Player.name p)) (toLowerCase name)
            && Player.connected p); [reflexivity|].
  exact IH.
Qed.

Lemma find_typed (name : jsstring) (players : list (jsstring * Player.t)) :
  find (fun kp => sameName (Guest.name (snd kp)) (Some name)
                  && negb (Guest.connected (snd kp)))
       (mapValues guestOf players)
  = option_map (fun kp => (fst kp, guestOf (snd kp)))
      (find (fun kp => str_eqb (Player.name (snd kp)) name
                       && negb (Player.connected (snd kp))) players).
Proof.
  induction players as [|[k p] rest IH]; simpl; [reflexivity|].
  destruct (str_eqb (Player.name p) name && negb (Player.connected p));
    [reflexivity | exact IH].
Qed.

Lemma joinRoom_typed (game : Game.t) (socketId playerName : jsstring) :
  joinRoom (roomOf game) socketId (Some playerName)
  = (roomOf (fst (joinGame game socketId playerName)),
     answerOf (snd (joinGame game socketId playerName))).
Proof.
  unfold joinRoom, joinGame, roomOf. cbn [Room.status Room.players Room.hostId].
  destruct (status_eqb (Game.status game) ended); [reflexivity|].
  rewrite size_mapValues.
  destruct (MAX_PLAYERS_PER_ROOM <=? JsMap.size (Game.players game)); [reflexivity|].
  rewrite has_mapValues.
  destruct (JsMap.has socketId (Game.players game)); [reflexivity|].
  rewrite checkName_typed.
  destruct (existsb _ (Game.players game)); [reflexivity|].
  rewrite find_typed.
  destruct (find _ (Game.players game)) as [[existingId player]|]; simpl.
  - rewrite delete_mapValues.
    change (Guest.with_connected (guestOf player) true)
      with (guestOf (Player.with_connected player true)).
    now rewrite set_mapValues.
  - change (Guest.mk socketId (Some playerName) 0 true)
      with (guestOf (Player.mk socketId playerName 0 true)).
    now rewrite set_mapValues.
Qed.

Lemma onJoinRequest_typed (games : list (jsstring * Game.t))
      (socketId gameId playerName : jsstring) :
  onJoinRequest (mapValues roomOf games) socketId gameId (Some playerName)
  = (mapValues roomOf (fst (onJoinGame games socketId gameId playerName)),
     answerOf (snd (onJoinGame games socketId gameId playerName))).
Proof.
  unfold onJoinRequest, onJoinGame. rewrite get_mapValues.
  destruct (JsMap.get gameId games) as [game|] eqn:Eg; simpl; [|reflexivity].
  rewrite joinRoom_typed.
  destruct (joinGame game socketId playerName) as [game' [isHost|error]] eqn:Ej; simpl.
  - now rewrite set_mapValues.
  - apply joinGame_rejected in Ej as [-> _].
    now rewrite (JsMap_set_same _ _ _ Eg).
Qed.

End Requests.

(** C10, as the code has it. A join request is refused, the games being
    left as they were, only for one of five reasons: the game id is
    unknown; the game has ended; the player table holds 20 entries or
    more (every entry counts, connected or not); a connected player has
    the same name up to case; or the comparison of the names throws,
    which it does only when the request has no name and the table is not
    empty, or when a player of the table has no name, and which is
    answered 'Kunde inte gå med i spelet'. A request with a name, on a
    table whose players all have names, is never answered so. Each of
    the first four reasons does refuse, in this order, a socket that is
    not yet in the game; so does the fifth, for a request without a name
    on a table that is not empty, and for a request whose name no
    connected player has on a table with a player without a name. An
    empty table accepts any request, with or without a name. A socket
    that joins a game being played, with room left, where all players
    have names, and whose name is neither taken nor that of a
    disconnected player, is accepted and enters the table with score 0,
    the round going on. *)
Theorem join_rejections (env : Environment) :
  (forall rooms socketId gameId playerName rooms' answer,
      onJoinRequest rooms socketId gameId playerName = (rooms', answer) ->
      (exists isHost, answer = Joined isHost)
      \/ (rooms' = rooms
          /\ ((JsMap.get gameId rooms = None /\ answer = Refused GameNotFound)
              \/ exists room,
                   JsMap.get gameId rooms = Some room
                   /\ ((Room.status room = ended /\ answer = Refused GameEnded)
                       \/ (MAX_PLAYERS_PER_ROOM <= Z.of_nat (length (Room.players room))
                           /\ answer = Refused GameFull)
                       \/ (exists name, playerName = Some name
                                        /\ guestNameTaken name (Room.players room)
                                        /\ answer = Refused NameTaken)
                       \/ (((playerName = None /\ Room.players room <> [])
                            \/ unnamed (Room.players room))
                           /\ answer = JoinThrew)))))
  /\ (forall room socketId name,
         (forall k p, In (k, p) (Room.players room) -> Guest.name p <> None) ->
         snd (joinRoom room socketId (Some name)) <> JoinThrew)
  /\ (forall rooms socketId gameId playerName,
         JsMap.get gameId rooms = None ->
         onJoinRequest rooms socketId gameId playerName = (rooms, Refused GameNotFound))
  /\ (forall room socketId playerName,
         Room.status room = ended ->
         joinRoom room socketId playerName = (room, Refused GameEnded))
  /\ (forall room socketId playerName,
         Room.status room <> ended ->
         MAX_PLAYERS_PER_ROOM <= Z.of_nat (length (Room.players room)) ->
         joinRoom room socketId playerName = (room, Refused GameFull))
  /\ (forall room socketId name,
         Room.status room <> ended ->
         Z.of_nat (length (Room.players room)) < MAX_PLAYERS_PER_ROOM ->
         JsMap.has socketId (Room.players room) = false ->
         (forall k p, In (k, p) (Room.players room) -> Guest.name p <> None) ->
         guestNameTaken name (Room.players room) ->
         joinRoom room socketId (Some name) = (room, Refused NameTaken))
  /\ (forall room socketId playerName,
         Room.status room <> ended ->
         Z.of_nat (length (Room.players room)) < MAX_PLAYERS_PER_ROOM ->
         JsMap.has socketId (Room.players room) = false ->
         (playerName = None /\ Room.players room <> [])
         \/ (unnamed (Room.players room)
             /\ forall name, playerName = Some name ->
                             ~ guestNameTaken name (Room.players room)) ->
         joinRoom room socketId playerName = (room, JoinThrew))
  /\ (forall room socketId playerName,
         Room.status room <> ended ->
         Room.players room = [] ->
         exists room' isHost,
           joinRoom room socketId playerName = (room', Joined isHost)
           /\ Room.players room' = [(socketId, Guest.mk socketId playerName 0 true)])
  /\ (forall room socketId name,
         Room.status room = playing ->
         Z.of_nat (length (Room.players room)) < MAX_PLAYERS_PER_ROOM ->
         JsMap.has socketId (Room.players room) = false ->
         (forall k p, In (k, p) (Room.players room) -> Guest.name p <> None) ->
         ~ guestNameTaken name (Room.players room) ->
         (forall k p, In (k, p) (Room.players room) ->
                      Guest.connected p = false -> Guest.name p <> Some name) ->
         exists room' isHost,
           joinRoom room socketId (Some name) = (room', Joined isHost)
           /\ Room.players room'
              = Room.players room ++ [(socketId, Guest.mk socketId (Some name) 0 true)]
           /\ Room.status room' = playing).
Proof.
  split; [|split; [|split; [|split; [|split; [|split; [|split; [|split]]]]]]].
  - intros rooms socketId gameId playerName rooms' answer. unfold onJoinRequest.
    destruct (JsMap.get gameId rooms) as [room|] eqn:Eg.
    + destruct (joinRoom room socketId playerName) as [room' a] eqn:Ej.
      destruct (joinRoom_refused _ _ _ _ _ Ej) as [(isHost & ->)|(-> & H)].
      * intros [= <- <-]. left. eauto.
      * destruct a as [isHost|error|].
        -- intros [= <- <-]. left. eauto.
        -- intros [= <- <-]. right. split; [reflexivity|]. right. eauto.
        -- intros [= <- <-]. right. split; [reflexivity|]. right. eauto.
    + intros [= <- <-]. right. auto.
  - intros room socketId name Hn E.
    destruct (joinRoom room socketId (Some name)) as [room' a] eqn:Ej. simpl in E.
    subst a.
    destruct (joinRoom_refused _ _ _ _ _ Ej) as [(isHost & F)|(_ & H)]; [discriminate|].
    destruct H as [[_ F]|[[_ F]|[(n & _ & _ & F)|[H _]]]]; try discriminate.
    destruct H as [[F _]|(k & p & Hin & Hp)]; [discriminate|].
    exact (Hn k p Hin Hp).
  - intros rooms socketId gameId playerName H. unfold onJoinRequest. now rewrite H.
  - intros room socketId playerName Hs. unfold joinRoom. now rewrite Hs.
  - intros room socketId playerName Hs Hf. unfold joinRoom.
    destruct (status_eqb (Room.status room) ended) eqn:Es.
    { apply status_eqb_eq in Es. contradiction. }
    destruct (Z.leb_spec MAX_PLAYERS_PER_ROOM (JsMap.size (Room.players room))) as [H|H];
      [reflexivity | unfold JsMap.size in H; lia].
  - intros room socketId name Hs Hf Hh Hn Ht.
    rewrite joinRoom_guard by assumption.
    rewrite (checkName_named name _ Hn).
    apply guestNameTaken_existsb in Ht. now rewrite Ht.
  - intros room socketId playerName Hs Hf Hh H.
    rewrite joinRoom_guard by assumption.
    destruct H as [[-> Hne]|[Hu Hn]].
    + now rewrite checkName_missing.
    + destruct playerName as [name|].
      * rewrite (checkName_unnamed name _ Hu (Hn name eq_refl)). reflexivity.
      * destruct Hu as (k & p & Hin & _).
        rewrite checkName_missing; [reflexivity|]. intros E. rewrite E in Hin.
        destruct Hin.
  - intros room socketId playerName Hs He.
    rewrite joinRoom_guard; rewrite ?He; try assumption;
      [|unfold MAX_PLAYERS_PER_ROOM; simpl; lia | reflexivity].
    simpl. eauto.
  - intros room socketId name Hs Hf Hh Hn Ht Hd.
    rewrite joinRoom_guard; try assumption; [|rewrite Hs; discriminate].
    rewrite (checkName_named name _ Hn).
    destruct (existsb _ (Room.players room)) eqn:Ex;
      [apply guestNameTaken_existsb in Ex; contradiction|].
    destruct (find _ (Room.players room)) as [[existingId player]|] eqn:Ef.
    + exfalso. apply find_some in Ef as [Hin H]. simpl in H.
      apply andb_true_iff in H as [H1 H2]. apply negb_true_iff in H2.
      apply (Hd _ _ Hin H2).
      destruct (Guest.name player) as [n|]; simpl in H1; [|discriminate].
      apply str_eqb_eq in H1. now subst.
    + cbv zeta. eexists. eexists. split; [reflexivity|].
      simpl. rewrite (JsMap_set_fresh _ _ _ Hh). auto.
Qed.

Lemma join_rejections_witness :
  (exists room' isHost,
      joinRoom (env := demoEnv) (roomOf (demoRound demoExclusive)) (js "s3")
               (Some (js "Cilla"))
      = (room', Joined isHost)
      /\ Room.players room'
         = Room.players (roomOf (demoRound demoExclusive))
           ++ [(js "s3", Guest.mk (js "s3") (Some (js "Cilla")) 0 true)]
      /\ Room.status room' = playing)
  /\ joinRoom (env := demoEnv) (roomOf (demoRound demoExclusive)) (js "s3")
              (Some (js "ALVA"))
     = (roomOf (demoRound demoExclusive), Refused NameTaken)
  /\ joinRoom (env := demoEnv) (roomOf (demoRound demoExclusive)) (js "s3") None
     = (roomOf (demoRound demoExclusive), JoinThrew)
  /\ onJoinRequest (env := demoEnv) [(js "XYZ789", roomOf (demoRound demoExclusive))]
       (js "s3") (js "QQQQQQ") (Some (js "Cilla"))
     = ([(js "XYZ789", roomOf (demoRound demoExclusive))], Refused GameNotFound).
Proof.
  destruct (join_rejections demoEnv) as (_ & _ & H3 & _ & _ & H6 & H7 & _ & H9).
  assert (Hn : forall k p,
             In (k, p) (Room.players (roomOf (demoRound demoExclusive))) ->
             Guest.name p <> None).
  { intros k p Hin. vm_compute in Hin.
    destruct Hin as [[= <- <-]|[[= <- <-]|[]]]; discriminate. }
  split; [|split; [|split]].
  - apply H9.
    + reflexivity.
    + vm_compute. reflexivity.
    + reflexivity.
    + exact Hn.
    + intros H. apply guestNameTaken_existsb in H. vm_compute in H. discriminate.
    + intros k p Hin Hc.
      vm_compute in Hin. destruct Hin as [[= <- <-]|[[= <- <-]|[]]]; discriminate.
  - apply H6.
    + vm_compute. discriminate.
    + vm_compute. reflexivity.
    + reflexivity.
    + exact Hn.
    + apply guestNameTaken_existsb. reflexivity.
  - apply H7.
    + vm_compute. discriminate.
    + vm_compute. reflexivity.
    + reflexivity.
    + left. split; [reflexivity | vm_compute; discriminate].
  - apply H3. reflexivity.
Defined.

(** C10 as the specification words it does not hold. A request without
    a name is accepted into the empty table of a game just created;
    after it, the request of another socket under the name Bo is
    refused with 'Kunde inte gå med i spelet', although the game is
    known, waiting, holds one player, and has no connected player called
    Bo. *)
Lemma nameless_join_counterexample :
  onJoinRequest (env := demoEnv) demoRooms (js "s1") (js "ABC234") None
  = (demoNameless, Joined true)
  /\ onJoinRequest (env := demoEnv) demoNameless (js "s2") (js "ABC234")
                   (Some (js "Bo"))
     = (demoNameless, JoinThrew)
  /\ exists room,
       JsMap.get (js "ABC234") demoNameless = Some room
       /\ Room.status room = waiting
       /\ Room.players room = [(js "s1", Guest.mk (js "s1") None 0 true)]
       /\ ~ guestNameTaken (env := demoEnv) (js "Bo") (Room.players room).
Proof.
  split; [vm_compute; reflexivity|]. split; [vm_compute; reflexivity|].
  eexists. split; [vm_compute; reflexivity|].
  split; [reflexivity|]. split; [reflexivity|].
  intros H. apply guestNameTaken_existsb in H. vm_compute in H. discriminate.
Qed.

(** ** What a submission does to the session *)

Section Submission.
Context {env : Environment}.

Lemma Game_with_playerClaims_same (g : Game.t) :
  Game.with_playerClaims g (Game.playerClaims g) = g.
Proof. now destruct g. Qed.

(** A rejection leaves the session as it was. *)
Lemma submitWord_rejected (g g' : Game.t) (playerId word : jsstring) (now : Z)
      (error : SubmitError) :
  submitWord g playerId word now = (g', SubmitFail error) -> g' = g.
Proof.
  unfold submitWord.
  destruct (JsMap.get playerId (Game.players g)) as [player|]; [|now intros [= <-]].
  destruct (negb (status_eqb (Game.status g) playing)); [now intros [= <-]|].
  destruct (validateWord _ _ _); [|now intros [= <-]].
  destruct (Game.mode g).
  - unfold JsMap.has.
    destruct (JsMap.get playerId (Game.playerClaims g)) as [s|] eqn:Eg.
    + rewrite Eg. destruct (JsSet.has _ s); [|discriminate].
      intros [= <-]. apply Game_with_playerClaims_same.
    + rewrite JsMap_get_set_same. simpl. discriminate.
  - destruct (JsMap.has _ _); [now intros [= <-] | discriminate].
Qed.

Lemma submitWord_exclusive (g : Game.t) (playerId word : jsstring) (now : Z)
      (player : Player.t) :
  Game.mode g = exclusive ->
  JsMap.get playerId (Game.players g) = Some player ->
  Game.status g = playing ->
  let w := trim (toUpperCase word) in
  let score := calculateExclusiveScore w in
  validateWord w (Game.letters g) (Game.minWordLength g) = Valid ->
  (JsMap.has w (Game.claims g) = true ->
   submitWord g playerId word now = (g, SubmitFail WordAlreadyTaken))
  /\ (JsMap.has w (Game.claims g) = false ->
      exists g',
        submitWord g playerId word now
        = (g', SubmitOk w score (Player.score player + score))
        /\ Game.claims g'
           = Game.claims g
             ++ [(w, Claim.mk playerId (Player.name player)
                              (elapsedSeconds now (Game.startTime g)) score None)]
        /\ Game.players g'
           = JsMap.set playerId
               (Player.with_score player (Player.score player + score))
               (Game.players g)
        /\ Game.playerClaims g' = Game.playerClaims g
        /\ sameSetup g g').
Proof.
  intros Hm Hp Hs w score Hv. unfold submitWord. rewrite Hp, Hs, Hm. simpl.
  fold w. rewrite Hv. split; intros Hh; rewrite Hh; [reflexivity|].
  eexists. split; [reflexivity|]. simpl.
  rewrite (JsMap_set_fresh _ _ _ Hh). repeat split.
Qed.

Lemma submitWord_freeforall (g : Game.t) (playerId word : jsstring) (now : Z)
      (player : Player.t) :
  Game.mode g = freeforall ->
  JsMap.get playerId (Game.players g) = Some player ->
  Game.status g = playing ->
  let w := trim (toUpperCase word) in
  let elapsed := elapsedSeconds now (Game.startTime g) in
  let score := calculateFreeForAllScore w (inject_Z elapsed) in
  validateWord w (Game.letters g) (Game.minWordLength g) = Valid ->
  (JsSet.has w (usedWords playerId g) = true ->
   submitWord g playerId word now = (g, SubmitFail WordAlreadyUsed))
  /\ (JsSet.has w (usedWords playerId g) = false ->
      exists g',
        submitWord g playerId word now
        = (g', SubmitOk w score (Player.score player + score))
        /\ Game.claims g'
           = JsMap.set (w ++ js "-" ++ playerId)
               (Claim.mk playerId (Player.name player) elapsed score (Some w))
               (Game.claims g)
        /\ Game.players g'
           = JsMap.set playerId
               (Player.with_score player (Player.score player + score))
               (Game.players g)
        /\ usedWords playerId g' = JsSet.add w (usedWords playerId g)
        /\ (forall k, k <> playerId -> usedWords k g' = usedWords k g)
        /\ Game.status g' = Game.status g
        /\ Game.startTime g' = Game.startTime g
        /\ sameSetup g g').
Proof.
  intros Hm Hp Hs w elapsed score Hv. unfold submitWord. rewrite Hp, Hs, Hm. simpl.
  fold w. rewrite Hv. fold elapsed. fold score. unfold usedWords, JsMap.has.
  destruct (JsMap.get playerId (Game.playerClaims g)) as [s|] eqn:Eg.
  - rewrite Eg. split; intros Hh; rewrite Hh.
    + now rewrite Game_with_playerClaims_same.
    + eexists. split; [reflexivity|]. simpl.
      rewrite JsMap_get_set_same. repeat split; try assumption.
      intros k Hk. now rewrite JsMap_get_set_other.
  - rewrite JsMap_get_set_same. split; intros Hh; [discriminate|].
    simpl. eexists. split; [reflexivity|]. simpl.
    rewrite JsMap_get_set_same. repeat split; try assumption.
    intros k Hk. now rewrite !JsMap_get_set_other.
Qed.

(** The handlers other than [submitWord] leave the ledger alone. *)
Lemma joinGame_ledger (g : Game.t) (socketId playerName : jsstring) :
  let g' := fst (joinGame g socketId playerName) in
  Game.claims g' = Game.claims g /\ Game.playerClaims g' = Game.playerClaims g
  /\ Game.status g' = Game.status g /\ sameSetup g g'.
Proof.
  unfold joinGame, sameSetup.
  destruct (status_eqb _ _); [simpl; tauto|].
  destruct (_ <=? _); [simpl; tauto|].
  destruct (JsMap.has _ _); [simpl; tauto|].
  destruct (existsb _ _); simpl; tauto.
Qed.

Lemma startGame_ledger (g : Game.t) (socketId : jsstring) (now : Z) :
  let g' := fst (startGame g socketId now) in
  Game.claims g' = Game.claims g /\ Game.playerClaims g' = Game.playerClaims g
  /\ Game.players g' = Game.players g /\ sameSetup g g'.
Proof.
  unfold startGame, sameSetup.
  destruct (negb (isHostId _ _)); [simpl; tauto|].
  destruct (negb (status_eqb _ _)); [simpl; tauto|].
  destruct (_ <? _); simpl; tauto.
Qed.

Lemma disconnect_ledger (g : Game.t) (socketId : jsstring) :
  let g' := disconnect g socketId in
  Game.claims g' = Game.claims g /\ Game.playerClaims g' = Game.playerClaims g
  /\ Game.status g' = Game.status g /\ sameSetup g g'.
Proof.
  unfold disconnect, sameSetup.
  destruct (JsMap.get _ _); [|simpl; tauto].
  destruct (isHostId _ _); [|simpl; tauto].
  destruct (find _ _) as [[i ?]|]; simpl; tauto.
Qed.

Lemma timerTick_ledger (g : Game.t) (now : Z) :
  let g' := timerTick g now in
  Game.claims g' = Game.claims g /\ Game.playerClaims g' = Game.playerClaims g
  /\ Game.players g' = Game.players g /\ sameSetup g g'.
Proof.
  unfold timerTick, sameSetup.
  destruct (Game.timerInterval g); [|simpl; tauto].
  destruct (_ <=? _); simpl; tauto.
Qed.

Lemma submitWord_setup (g : Game.t) (playerId word : jsstring) (now : Z) :
  sameSetup g (fst (submitWord g playerId word now)).
Proof.
  unfold submitWord, sameSetup.
  destruct (JsMap.get _ _); [|simpl; tauto].
  destruct (negb _); [simpl; tauto|].
  destruct (validateWord _ _ _); [|simpl; tauto].
  destruct (Game.mode g) eqn:Em.
  - destruct (JsSet.has _ _); simpl; tauto.
  - destruct (JsMap.has _ _); simpl; tauto.
Qed.

Lemma handle_setup (g : Game.t) (e : Event) : sameSetup g (handle g e).
Proof.
  destruct e; simpl.
  - apply joinGame_ledger.
  - apply startGame_ledger.
  - apply submitWord_setup.
  - apply disconnect_ledger.
  - apply timerTick_ledger.
Qed.

Lemma ledgerInv_same (g g' : Game.t) :
  Game.claims g' = Game.claims g ->
  Game.playerClaims g' = Game.playerClaims g ->
  sameSetup g g' ->
  ledgerInv g -> ledgerInv g'.
Proof.
  intros Hc Hp (_ & Hm & Hl & _ & Hn & _) (H1 & H2 & H3).
  unfold ledgerInv, usedWords in *. rewrite Hc, Hp, Hm, Hl, Hn. auto.
Qed.

Lemma ledgerInv_submit (g : Game.t) (playerId word : jsstring) (now : Z) :
  ledgerInv g -> ledgerInv (fst (submitWord g playerId word now)).
Proof.
  intros Hinv.
  destruct (submitWord g playerId word now) as [g' [w score total|error]] eqn:Es;
    simpl; [|apply submitWord_rejected in Es; now subst].
  pose proof Es as Ha. apply submitWord_accepted in Ha as (-> & (player & Hp & _) & Hs & Hv).
  destruct Hinv as (H1 & H2 & H3).
  destruct (Game.mode g) eqn:Em.
  - destruct (submitWord_freeforall g playerId word now player Em Hp Hs Hv) as [Hr Ho].
    destruct (JsSet.has (trim (toUpperCase word)) (usedWords playerId g)) eqn:Eh.
    { rewrite Hr in Es by reflexivity. discriminate. }
    destruct (Ho eq_refl) as (g1 & E1 & Hc & _ & Hu & Hk & _ & _ & Hset).
    rewrite E1 in Es. injection Es as <- _.
    destruct Hset as (_ & Hm & Hl & _ & Hn & _).
    unfold ledgerInv. rewrite Hm, Hl, Hn, Hc.
    split; [now apply JsMap_NoDup_set|]. split; [congruence|].
    intros _ k c Hin. apply JsMap_In_set in Hin as [[-> ->]|Hin].
    + exists (trim (toUpperCase word)). simpl. repeat split; try assumption.
      * rewrite Hu. apply JsSet_has_add. now left.
      * eexists. reflexivity.
    + destruct (H3 eq_refl k c Hin) as (w & Hw & Hkey & Hused & Hraw & Hval).
      exists w. repeat split; try assumption.
      destruct (jsstring_eq_dec (Claim.playerId c) playerId) as [E|E].
      * rewrite E in *. rewrite Hu. apply JsSet_has_add. now right.
      * now rewrite Hk.
  - destruct (submitWord_exclusive g playerId word now player Em Hp Hs Hv) as [Hr Ho].
    destruct (JsMap.has (trim (toUpperCase word)) (Game.claims g)) eqn:Eh.
    { rewrite Hr in Es by reflexivity. discriminate. }
    destruct (Ho eq_refl) as (g1 & E1 & Hc & _ & _ & Hset).
    rewrite E1 in Es. injection Es as <- _.
    destruct Hset as (_ & Hm & Hl & _ & Hn & _).
    unfold ledgerInv. rewrite Hm, Hl, Hn, Hc.
    split; [|split; [|congruence]].
    + rewrite <- (JsMap_set_fresh _ _ _ Eh). now apply JsMap_NoDup_set.
    + intros _ k c Hin. apply in_app_iff in Hin as [Hin|[[= <- <-]|[]]].
      * now apply (H2 eq_refl k c).
      * split; [reflexivity | split; [eexists; reflexivity | exact Hv]].
Qed.

Lemma ledgerInv_handle (g : Game.t) (e : Event) :
  ledgerInv g -> ledgerInv (handle g e).
Proof.
  intros H. destruct e; simpl.
  - destruct (joinGame_ledger g socketId playerName) as (Hc & Hp & _ & Hs).
    now apply (ledgerInv_same g).
  - destruct (startGame_ledger g socketId now) as (Hc & Hp & _ & Hs).
    now apply (ledgerInv_same g).
  - now apply ledgerInv_submit.
  - destruct (disconnect_ledger g socketId) as (Hc & Hp & _ & Hs).
    now apply (ledgerInv_same g).
  - destruct (timerTick_ledger g now) as (Hc & Hp & _ & Hs).
    now apply (ledgerInv_same g).
Qed.

Lemma reachable_ledgerInv (g : Game.t) : reachable g -> ledgerInv g.
Proof.
  induction 1 as [id letters options _|g e _ IH].
  - unfold ledgerInv. simpl. split; [constructor|]. split; intros _ k c [].
  - now apply ledgerInv_handle.
Qed.

Lemma reachable_run (g : Game.t) (events : list Event) :
  reachable g -> reachable (run g events).
Proof.
  revert g; induction events as [|e events IH]; intros g H; simpl; [exact H|].
  apply IH. now constructor.
Qed.

End Submission.

(** ** The ledger in the two modes *)

Lemma NoDup_map_through {A B : Type} (key : A -> jsstring) (f : A -> B)
      (h : B -> jsstring) (l : list A) :
  (forall x, In x l -> key x = h (f x)) ->
  NoDup (map key l) -> NoDup (map f l).
Proof.
  induction l as [|x l IH]; simpl; intros Hk Hnd; [constructor|].
  inversion Hnd as [|? ? Hn Hnd']; subst. constructor.
  - intros Hin. apply in_map_iff in Hin as (y & Ey & Hy). apply Hn.
    rewrite (Hk x) by now left. rewrite <- Ey, <- (Hk y) by now right.
    now apply in_map.
  - apply IH; auto.
Qed.

(** C1, as the code has it. In exclusive mode, in every state a session
    can reach, the ledger has at most one entry per word (its keys, the
    normalized words, are pairwise distinct). A submission of a word that
    is in the ledger is rejected and leaves the whole session, ledger and
    scores, as it was, whoever submits it: with 'Ordet är redan taget!'
    when the submitter is in the player table and the round is being
    played, and with 'Spelet är inte aktivt' otherwise, since that test
    comes first. An accepted submission appends one entry to the ledger,
    under the normalized word, which was not in the ledger before, with
    the id of the submitter and one point per letter. *)
Theorem exclusive_claims_once (env : Environment) (g : Game.t) :
  reachable g ->
  Game.mode g = exclusive ->
  NoDup (JsMap.keys (Game.claims g))
  /\ (forall playerId word now,
         In (trim (toUpperCase word)) (JsMap.keys (Game.claims g)) ->
         submitWord g playerId word now
         = (g, SubmitFail (if JsMap.has playerId (Game.players g)
                              && status_eqb (Game.status g) playing
                           then WordAlreadyTaken
                           else GameNotActive)))
  /\ (forall playerId word now g' w score total,
         submitWord g playerId word now = (g', SubmitOk w score total) ->
         w = trim (toUpperCase word)
         /\ ~ In w (JsMap.keys (Game.claims g))
         /\ score = Z.of_nat (length w)
         /\ exists name,
              Game.claims g'
              = Game.claims g
                ++ [(w, Claim.mk playerId name
                                 (elapsedSeconds now (Game.startTime g)) score None)]).
Proof.
  intros Hr Hm. destruct (reachable_ledgerInv g Hr) as (H1 & H2 & _).
  split; [exact H1|]. split.
  - intros playerId word now Hin.
    assert (Hv : validateWord (trim (toUpperCase word)) (Game.letters g)
                   (Game.minWordLength g) = Valid).
    { apply in_map_iff in Hin as ([k c] & Ek & Hkc). simpl in Ek. subst k.
      exact (proj2 (proj2 (H2 Hm _ _ Hkc))). }
    unfold JsMap.has.
    destruct (JsMap.get playerId (Game.players g)) as [player|] eqn:Ep;
      [|apply submitWord_not_active; now left].
    destruct (status_eqb (Game.status g) playing) eqn:Es; simpl.
    + apply status_eqb_eq in Es.
      apply (submitWord_exclusive g playerId word now player Hm Ep Es Hv).
      now apply JsMap_has_keys.
    + apply submitWord_not_active. right. intros E. rewrite E in Es. discriminate.
  - intros playerId word now g' w score total Es.
    pose proof Es as Ha.
    apply submitWord_accepted in Ha as (-> & (player & Hp & _) & Hs & Hv).
    destruct (submitWord_exclusive g playerId word now player Hm Hp Hs Hv) as [Hrej Hok].
    destruct (JsMap.has (trim (toUpperCase word)) (Game.claims g)) eqn:Eh.
    { rewrite Hrej in Es by reflexivity. discriminate. }
    destruct (Hok eq_refl) as (g1 & E1 & Hc & _).
    rewrite E1 in Es. injection Es as <- <- _.
    split; [reflexivity|]. split; [now apply JsMap_has_false|].
    split; [reflexivity|]. exists (Player.name player). exact Hc.
Qed.

Lemma exclusive_claims_once_witness :
  let g := demoClaimed demoExclusive (js "katt") in
  NoDup (JsMap.keys (Game.claims g))
  /\ submitWord (env := demoEnv) g (js "s2") (js " Katt ") 12000
     = (g, SubmitFail WordAlreadyTaken)
  /\ submitWord (env := demoEnv) g (js "s1") (js "KATT") 13000
     = (g, SubmitFail WordAlreadyTaken).
Proof.
  intros g.
  assert (Hr : reachable (env := demoEnv) g).
  { unfold g, demoClaimed, demoRound. do 2 apply reachable_run.
    apply reachable_created, demoLetters_generated. }
  destruct (exclusive_claims_once demoEnv g Hr eq_refl) as (H1 & H2 & _).
  split; [exact H1|]. split.
  - apply (H2 (js "s2") (js " Katt ") 12000). vm_compute. left. reflexivity.
  - apply (H2 (js "s1") (js "KATT") 13000). vm_compute. left. reflexivity.
Defined.

(** C1 as the specification words it does not hold once the round is
    over: in the exclusive session where Alva has claimed KATT and the
    timer has ended the round, a state the session reaches, Bo's
    submission of the same word is answered 'Spelet är inte aktivt', not
    'Ordet är redan taget!'. *)
Lemma exclusive_resubmit_counterexample :
  let g := run (env := demoEnv) (demoClaimed demoExclusive (js "katt"))
               [TimerTick 60000] in
  reachable (env := demoEnv) g
  /\ Game.mode g = exclusive
  /\ In (js "KATT") (JsMap.keys (Game.claims g))
  /\ JsMap.has (js "s2") (Game.players g) = true
  /\ submitWord (env := demoEnv) g (js "s2") (js "katt") 61000
     = (g, SubmitFail GameNotActive)
  /\ snd (submitWord (env := demoEnv) g (js "s2") (js "katt") 61000)
     <> SubmitFail WordAlreadyTaken.
Proof.
  intros g. split.
  - unfold g, demoClaimed, demoRound. do 3 apply reachable_run.
    apply reachable_created, demoLetters_generated.
  - repeat split; try (vm_compute; reflexivity).
    + vm_compute. left. reflexivity.
    + vm_compute. discriminate.
Qed.

(** ** Scores and the ledger *)

Lemma claimedScore_app (n : jsstring) (l : list (jsstring * Claim.t))
      (k : jsstring) (c : Claim.t) :
  claimedScore n (l ++ [(k, c)]) =
  claimedScore n l + (if str_eqb (Claim.playerName c) n then Claim.score c else 0).
Proof.
  induction l as [|[k' c'] l IH]; simpl.
  - destruct (str_eqb _ _); lia.
  - rewrite IH. destruct (str_eqb (Claim.playerName c') n); lia.
Qed.

Lemma claimedScore_none (n : jsstring) (l : list (jsstring * Claim.t)) :
  (forall k c, In (k, c) l -> Claim.playerName c <> n) -> claimedScore n l = 0.
Proof.
  induction l as [|[k c] l IH]; simpl; intros H; [reflexivity|].
  str_cases (Claim.playerName c) n.
  - exfalso. apply (H k c); auto.
  - apply IH. intros k' c' Hin. apply (H k' c'). now right.
Qed.

Lemma key_injective (w w' p p' : jsstring) :
  ~ In 45%N w -> ~ In 45%N w' ->
  w ++ js "-" ++ p = w' ++ js "-" ++ p' -> w = w' /\ p = p'.
Proof.
  change (js "-") with [45%N].
  revert w'; induction w as [|x w IH]; intros [|y w'] Hw Hw'; simpl.
  - intros [= ->]. auto.
  - intros [= <-]. exfalso. apply Hw'. now left.
  - intros [= ->]. exfalso. apply Hw. now left.
  - intros [= -> E]. destruct (IH w') as [-> ->]; auto.
    + intros F. apply Hw. now right.
    + intros F. apply Hw'. now right.
Qed.

Lemma letters_no_hyphen (l : jsstring) :
  In l (commonVowels ++ vowels ++ commonConsonants ++ consonants) -> ~ In 45%N l.
Proof.
  intros Hin.
  assert (H : forallb (fun l => negb (existsb (N.eqb 45) l))
                (commonVowels ++ vowels ++ commonConsonants ++ consonants) = true)
    by reflexivity.
  rewrite forallb_forall in H. specialize (H l Hin).
  apply negb_true_iff in H. intros F.
  assert (E : existsb (N.eqb 45) l = true).
  { apply existsb_exists. exists 45%N. split; [exact F | reflexivity]. }
  congruence.
Qed.

Lemma canFormChars_In (chars pool : list jsstring) :
  canFormChars chars pool = true -> forall ch, In ch chars -> In ch pool.
Proof.
  intros H ch Hin. apply occurrences_In.
  pose proof (proj1 (canFormChars_distinct chars pool) H ch Hin).
  apply occurrences_In in Hin. lia.
Qed.

Section Scores.
Context {env : Environment}.

(** Upper-casing a string that was upper-cased and trimmed leaves it as
    it is; the case mapping of the runtime does so. *)
Hypothesis upper_normal :
  forall s, toUpperCase (trim (toUpperCase s)) = trim (toUpperCase s).

(** Validation normalizes its argument again; on a normalized word that
    changes nothing. *)
Lemma validateWord_normal (raw : jsstring) (letters : list jsstring) (minLength : Z) :
  let w := trim (toUpperCase raw) in
  validateWord w letters minLength = Valid ->
  w <> [] /\ minLength <= Z.of_nat (length w)
  /\ canFormChars (codePoints w) letters = true
  /\ JsSet.has w wordList = true.
Proof.
  intros w Hv.
  apply (proj2 (proj2 (proj2 (proj2 (validateWord_cases w letters minLength))))) in Hv.
  unfold canFormWord, isValidSwedishWord in Hv.
  assert (E2 : toUpperCase w = w) by apply upper_normal.
  assert (E1 : trim w = w) by apply trim_idem.
  rewrite !E2, !E1, !E2 in Hv. exact Hv.
Qed.

Lemma valid_no_hyphen (raw : jsstring) (letters : list jsstring) (minLength : Z) :
  generatedLetters letters ->
  validateWord (trim (toUpperCase raw)) letters minLength = Valid ->
  ~ In 45%N (trim (toUpperCase raw)).
Proof.
  intros Hg Hv. apply validateWord_normal in Hv as (_ & _ & Hc & _).
  rewrite <- (codePoints_concat (trim (toUpperCase raw))).
  intros F. apply in_concat in F as (ch & Hch & F).
  apply (canFormChars_In _ _ Hc) in Hch.
  unfold generatedLetters in Hg. rewrite Forall_forall in Hg.
  exact (letters_no_hyphen ch (Hg ch Hch) F).
Qed.

Lemma freeforall_key_fresh (g : Game.t) (playerId word : jsstring) :
  ledgerInv g ->
  generatedLetters (Game.letters g) ->
  Game.mode g = freeforall ->
  let w := trim (toUpperCase word) in
  validateWord w (Game.letters g) (Game.minWordLength g) = Valid ->
  JsSet.has w (usedWords playerId g) = false ->
  JsMap.has (w ++ js "-" ++ playerId) (Game.claims g) = false.
Proof.
  intros (_ & _ & H3) Hg Hm w Hv Hu.
  apply JsMap_has_false. intros Hin.
  apply in_map_iff in Hin as ([k c] & Ek & Hkc). simpl in Ek. subst k.
  destruct (H3 Hm _ _ Hkc) as (w0 & _ & Hk & Hused & (raw0 & Hraw) & Hv0).
  subst w0. apply key_injective in Hk as [Ew Ep].
  - rewrite <- Ep, <- Ew in Hused. rewrite Hused in Hu. discriminate.
  - now apply (valid_no_hyphen word (Game.letters g) (Game.minWordLength g)).
  - now apply (valid_no_hyphen raw0 (Game.letters g) (Game.minWordLength g)).
Qed.

(** An accepted submission appends one entry, under the name of the
    submitter and with the score awarded, and adds the score to the
    total of the submitter. *)
Lemma submitWord_appends (g g' : Game.t) (playerId word w : jsstring)
      (now score total : Z) :
  ledgerInv g ->
  generatedLetters (Game.letters g) ->
  submitWord g playerId word now = (g', SubmitOk w score total) ->
  exists player k c,
    JsMap.get playerId (Game.players g) = Some player
    /\ Game.claims g' = Game.claims g ++ [(k, c)]
    /\ Claim.playerName c = Player.name player
    /\ Claim.playerId c = playerId
    /\ Claim.score c = score
    /\ total = Player.score player + score
    /\ Game.players g'
       = JsMap.set playerId (Player.with_score player total) (Game.players g).
Proof.
  intros Hinv Hg Es.
  pose proof Es as Ha. apply submitWord_accepted in Ha as (-> & (player & Hp & Ht) & Hs & Hv).
  exists player.
  destruct (Game.mode g) eqn:Em.
  - destruct (submitWord_freeforall g playerId word now player Em Hp Hs Hv) as [Hr Ho].
    destruct (JsSet.has (trim (toUpperCase word)) (usedWords playerId g)) eqn:Eh.
    { rewrite Hr in Es by reflexivity. discriminate. }
    destruct (Ho eq_refl) as (g1 & E1 & Hc & Hpl & _).
    rewrite E1 in Es. injection Es as <- <- <-.
    rewrite (JsMap_set_fresh _ _ _ (freeforall_key_fresh g playerId word Hinv Hg Em Hv Eh))
      in Hc.
    do 2 eexists. split; [exact Hp|]. split; [exact Hc|]. simpl.
    repeat split. exact Hpl.
  - destruct (submitWord_exclusive g playerId word now player Em Hp Hs Hv) as [Hr Ho].
    destruct (JsMap.has (trim (toUpperCase word)) (Game.claims g)) eqn:Eh.
    { rewrite Hr in Es by reflexivity. discriminate. }
    destruct (Ho eq_refl) as (g1 & E1 & Hc & Hpl & _).
    rewrite E1 in Es. injection Es as <- <- <-.
    do 2 eexists. split; [exact Hp|]. split; [exact Hc|]. simpl.
    repeat split. exact Hpl.
Qed.

(** Replacing a player in place by one of the same name. *)
Lemma players_update (players : list (jsstring * Player.t)) (k : jsstring)
      (player player' : Player.t) :
  JsMap.get k players = Some player ->
  NoDup (map (fun kp => Player.name (snd kp)) players) ->
  Player.name player' = Player.name player ->
  let players' := JsMap.set k player' players in
  JsMap.keys players' = JsMap.keys players
  /\ map (fun kp => Player.name (snd kp)) players'
     = map (fun kp => Player.name (snd kp)) players
  /\ forall k0 p, In (k0, p) players' ->
       p = player' \/ (In (k0, p) players /\ Player.name p <> Player.name player).
Proof.
  intros Hget Hnd Hn players'.
  destruct (JsMap_get_split _ _ _ Hget) as (l1 & l2 & E & _ & Hs & _).
  unfold players'. rewrite Hs, E. unfold JsMap.keys. rewrite !map_app. simpl.
  rewrite Hn. repeat split.
  intros k0 p Hin. rewrite E, map_app in Hnd. simpl in Hnd.
  apply NoDup_remove_2 in Hnd.
  apply in_app_iff in Hin as [Hin|[[= <- <-]|Hin]]; [right|now left|right].
  - split; [apply in_app_iff; now left|].
    intros F. apply Hnd, in_app_iff. left. rewrite <- F.
    now apply (in_map (fun kp => Player.name (snd kp)) l1 (k0, p)).
  - split; [apply in_app_iff; right; now right|].
    intros F. apply Hnd, in_app_iff. right. rewrite <- F.
    now apply (in_map (fun kp => Player.name (snd kp)) l2 (k0, p)).
Qed.

Lemma scoresInv_update (g g' : Game.t) (k : jsstring) (player player' : Player.t) :
  JsMap.get k (Game.players g) = Some player ->
  Player.name player' = Player.name player ->
  Player.score player' = Player.score player ->
  Game.players g' = JsMap.set k player' (Game.players g) ->
  Game.claims g' = Game.claims g ->
  Game.letters g' = Game.letters g ->
  scoresInv g -> scoresInv g'.
Proof.
  intros Hget Hn Hsc Hp Hc Hl (H1 & H2 & H3 & H4 & H5).
  destruct (players_update _ _ _ _ Hget H2 Hn) as (Ek & En & Hin).
  unfold scoresInv. rewrite Hp, Hc, Hl, Ek, En. repeat split; try assumption.
  intros k0 p Hp0. destruct (Hin k0 p Hp0) as [->|[Hold _]].
  - rewrite Hsc, Hn. apply (H4 k). now apply JsMap_get_In.
  - now apply (H4 k0).
Qed.

Lemma scoresInv_same (g g' : Game.t) :
  Game.players g' = Game.players g ->
  Game.claims g' = Game.claims g ->
  Game.letters g' = Game.letters g ->
  scoresInv g -> scoresInv g'.
Proof. unfold scoresInv. now intros -> -> ->. Qed.

Lemma NoDup_snoc {A : Type} (l : list A) (a : A) :
  ~ In a l -> NoDup l -> NoDup (l ++ [a]).
Proof.
  intros Hn Hnd. apply (Permutation_NoDup (Permutation_cons_append l a)).
  now constructor.
Qed.

(** No player has the name of one who enters as new. *)
Lemma new_name_fresh (playerName : jsstring) (players : list (jsstring * Player.t)) :
  existsb (fun kp => str_eqb (toLowerCase (Player.name (snd kp))) (toLowerCase playerName)
                     && Player.connected (snd kp)) players = false ->
  find (fun kp => str_eqb (Player.name (snd kp)) playerName
                  && negb (Player.connected (snd kp))) players = None ->
  ~ In playerName (map (fun kp => Player.name (snd kp)) players).
Proof.
  intros Hex Hfind Hin. apply in_map_iff in Hin as ([k p] & En & Hin). simpl in En.
  destruct (Player.connected p) eqn:Ec.
  - assert (E : existsb (fun kp => str_eqb (toLowerCase (Player.name (snd kp)))
                                           (toLowerCase playerName)
                                   && Player.connected (snd kp)) players = true).
    { apply existsb_exists. exists (k, p). split; [exact Hin|]. simpl.
      now rewrite En, Ec, str_eqb_refl. }
    congruence.
  - pose proof (find_none _ _ Hfind (k, p) Hin) as F. simpl in F.
    now rewrite En, Ec, str_eqb_refl in F.
Qed.

Lemma scoresInv_join (g : Game.t) (socketId playerName : jsstring) :
  scoresInv g -> scoresInv (fst (joinGame g socketId playerName)).
Proof.
  intros Hinv. unfold joinGame.
  destruct (status_eqb _ _); [exact Hinv|].
  destruct (_ <=? _); [exact Hinv|].
  destruct (JsMap.has socketId (Game.players g)) eqn:Hh; [exact Hinv|].
  destruct (existsb _ (Game.players g)) eqn:Ex; [exact Hinv|].
  destruct Hinv as (H1 & H2 & H3 & H4 & H5).
  destruct (find _ (Game.players g)) as [[existingId player]|] eqn:Ef;
    unfold scoresInv; simpl.
  - apply find_some in Ef as [Hin Hpred]. simpl in Hpred.
    apply andb_true_iff in Hpred as [Hname _]. apply str_eqb_eq in Hname.
    pose proof (JsMap_In_get _ _ _ H1 Hin) as Hget.
    destruct (JsMap_get_split _ _ _ Hget) as (l1 & l2 & E & _ & _ & Hd).
    rewrite Hd.
    assert (Hfresh : ~ In socketId (JsMap.keys (l1 ++ l2))).
    { apply JsMap_has_false in Hh. intros F. apply Hh. rewrite E.
      unfold JsMap.keys in *. rewrite map_app in *. simpl.
      apply in_app_iff in F as [F|F]; apply in_app_iff; [now left | right; now right]. }
    rewrite JsMap_set_fresh by now apply JsMap_has_false.
    rewrite E in H1, H2, H3, H4.
    unfold JsMap.keys in *. rewrite !map_app in *. simpl in *.
    assert (P : Permutation
                  (map (fun kp => Player.name (snd kp)) l1
                   ++ Player.name player :: map (fun kp => Player.name (snd kp)) l2)
                  ((map (fun kp => Player.name (snd kp)) l1
                    ++ map (fun kp => Player.name (snd kp)) l2) ++ [Player.name player])).
    { eapply Permutation_trans; [apply Permutation_sym, Permutation_middle|].
      apply Permutation_cons_append. }
    repeat split.
    + apply NoDup_snoc; [exact Hfresh | now apply NoDup_remove_1 in H1].
    + exact (Permutation_NoDup P H2).
    + intros k c Hc. exact (Permutation_in _ P (H3 k c Hc)).
    + intros k p Hp. apply in_app_iff in Hp as [Hp|[[= <- <-]|[]]].
      * apply (H4 k). apply in_app_iff in Hp as [Hp|Hp];
          apply in_app_iff; [now left | right; now right].
      * simpl. apply (H4 existingId). apply in_app_iff. right. now left.
    + exact H5.
  - pose proof (new_name_fresh _ _ Ex Ef) as Hnew.
    rewrite (JsMap_set_fresh _ _ _ Hh).
    unfold JsMap.keys. rewrite !map_app. simpl. repeat split.
    + apply NoDup_snoc; [now apply JsMap_has_false | exact H1].
    + now apply NoDup_snoc.
    + intros k c Hc. apply in_app_iff. left. exact (H3 k c Hc).
    + intros k p Hp. apply in_app_iff in Hp as [Hp|[[= <- <-]|[]]].
      * now apply (H4 k).
      * simpl. symmetry. apply claimedScore_none. intros k c Hc F.
        apply Hnew. rewrite <- F. exact (H3 k c Hc).
    + exact H5.
Qed.

Lemma scoresInv_disconnect (g : Game.t) (socketId : jsstring) :
  scoresInv g -> scoresInv (disconnect g socketId).
Proof.
  intros Hinv. unfold disconnect.
  destruct (JsMap.get socketId (Game.players g)) as [player|] eqn:Eg; [|exact Hinv].
  assert (H : scoresInv
                (Game.with_players g
                   (JsMap.set socketId (Player.with_connected player false)
                              (Game.players g)))).
  { now apply (scoresInv_update g _ socketId player (Player.with_connected player false)). }
  destruct (isHostId socketId (Game.hostId g)); [|exact H].
  destruct (find _ _) as [[i ?]|]; [|exact H].
  revert H. apply scoresInv_same; reflexivity.
Qed.

Lemma scoresInv_submit (g : Game.t) (playerId word : jsstring) (now : Z) :
  ledgerInv g -> scoresInv g -> scoresInv (fst (submitWord g playerId word now)).
Proof.
  intros Hl Hinv.
  destruct (submitWord g playerId word now) as [g' [w score total|error]] eqn:Es;
    simpl; [|apply submitWord_rejected in Es; now subst].
  pose proof (submitWord_setup g playerId word now) as Hset. rewrite Es in Hset.
  destruct Hset as (_ & _ & Hlet & _). simpl in Hlet.
  destruct Hinv as (H1 & H2 & H3 & H4 & H5).
  destruct (submitWord_appends g g' playerId word w now score total Hl H5 Es)
    as (player & k & c & Hget & Hc & Hcn & _ & Hcs & Ht & Hp).
  destruct (players_update _ _ _ (Player.with_score player total) Hget H2 eq_refl)
    as (Ek & En & Hin).
  unfold scoresInv. rewrite Hp, Hc, Hlet, Ek, En. repeat split; try assumption.
  - intros k0 c0 Hc0. apply in_app_iff in Hc0 as [Hc0|[[= <- <-]|[]]].
    + exact (H3 k0 c0 Hc0).
    + rewrite Hcn. apply JsMap_get_In in Hget.
      now apply (in_map (fun kp => Player.name (snd kp)) _ (playerId, player)).
  - intros k0 p Hp0. rewrite claimedScore_app.
    destruct (Hin k0 p Hp0) as [->|[Hold Hne]].
    + simpl. rewrite Hcn, str_eqb_refl, Hcs, Ht.
      rewrite (H4 playerId player) by now apply JsMap_get_In. reflexivity.
    + rewrite Hcn. str_cases (Player.name player) (Player.name p).
      * congruence.
      * rewrite (H4 k0 p Hold). lia.
Qed.

Lemma scoresInv_handle (g : Game.t) (e : Event) :
  ledgerInv g -> scoresInv g -> scoresInv (handle g e).
Proof.
  intros Hl H. destruct e; simpl.
  - now apply scoresInv_join.
  - destruct (startGame_ledger g socketId now) as (Hc & _ & Hp & (_ & _ & Hlet & _)).
    now apply (scoresInv_same g).
  - now apply scoresInv_submit.
  - now apply scoresInv_disconnect.
  - destruct (timerTick_ledger g now) as (Hc & _ & Hp & (_ & _ & Hlet & _)).
    now apply (scoresInv_same g).
Qed.

Lemma reachable_scoresInv (g : Game.t) : reachable g -> scoresInv g.
Proof.
  induction 1 as [id letters options Hg|g e Hr IH].
  - unfold scoresInv. simpl. repeat split; try constructor; try exact Hg;
      intros ? ? [].
  - apply scoresInv_handle; [now apply reachable_ledgerInv | exact IH].
Qed.

End Scores.

(** ** The case mapping of the Swedish environment *)

Lemma isWhiteSpace_outside (c : N) :
  ((33 <= c /\ c <= 159) \/ (161 <= c /\ c <= 5759))%N -> isWhiteSpace c = false.
Proof.
  intros H. unfold isWhiteSpace.
  repeat match goal with
         | |- context [N.eqb c ?k] => rewrite (proj2 (N.eqb_neq c k)) by lia
         end.
  rewrite (proj2 (N.leb_gt 8192 c)) by lia. reflexivity.
Qed.

Lemma upperUnit_cases (c : N) :
  upperUnit c = c
  \/ (upperUnit c = (c - 32)%N
      /\ ((97 <= c /\ c <= 122) \/ c = 229 \/ c = 228 \/ c = 246)%N).
Proof.
  unfold upperUnit.
  destruct (N.leb_spec 97 c), (N.leb_spec c 122), (N.eqb_spec c 229),
    (N.eqb_spec c 228), (N.eqb_spec c 246); simpl; auto; right; split; auto; lia.
Qed.

Lemma isWhiteSpace_upperUnit (c : N) : isWhiteSpace (upperUnit c) = isWhiteSpace c.
Proof.
  destruct (upperUnit_cases c) as [->|[-> H]]; [reflexivity|].
  rewrite !isWhiteSpace_outside by lia. reflexivity.
Qed.

Lemma upperUnit_idem (c : N) : upperUnit (upperUnit c) = upperUnit c.
Proof.
  destruct (upperUnit_cases c) as [E|[E H]]; rewrite E; [exact E|].
  destruct (upperUnit_cases (c - 32)) as [E'|[_ H']]; [exact E' | lia].
Qed.

Lemma trimStart_upperSv (s : jsstring) : trimStart (upperSv s) = upperSv (trimStart s).
Proof.
  induction s as [|c r IH]; simpl; [reflexivity|].
  rewrite isWhiteSpace_upperUnit. destruct (isWhiteSpace c); [exact IH | reflexivity].
Qed.

Lemma trim_upperSv (s : jsstring) : trim (upperSv s) = upperSv (trim s).
Proof.
  unfold trim, trimEnd. rewrite trimStart_upperSv.
  unfold upperSv at 1. rewrite <- map_rev. fold (upperSv (rev (trimStart s))).
  rewrite trimStart_upperSv. unfold upperSv. now rewrite map_rev.
Qed.

Lemma upperSv_normal (s : jsstring) : upperSv (trim (upperSv s)) = trim (upperSv s).
Proof.
  rewrite trim_upperSv. unfold upperSv. rewrite map_map.
  apply map_ext. intros c. apply upperUnit_idem.
Qed.

(** C5. Provided the case mapping leaves an upper-cased, trimmed string
    as it is, in every state a session can reach: the players of the
    table have pairwise different names, and the score of every player
    present is the total of the scores of the ledger entries made under
    that name (entries keep the name through a reconnection, which
    changes the id). An accepted submission appends one entry with the
    awarded score under the name of the submitter and adds exactly that
    score to the submitter's total; a rejection changes nothing. *)
Theorem score_is_sum_of_claims (env : Environment)
        (upper_normal :
           forall s, toUpperCase (trim (toUpperCase s)) = trim (toUpperCase s)) :
  (forall g,
      reachable g ->
      NoDup (map (fun kp => Player.name (snd kp)) (Game.players g))
      /\ forall socketId p,
           JsMap.get socketId (Game.players g) = Some p ->
           Player.score p = claimedScore (Player.name p) (Game.claims g))
  /\ (forall g g' playerId word now w score total,
         reachable g ->
         submitWord g playerId word now = (g', SubmitOk w score total) ->
         exists player k c,
           JsMap.get playerId (Game.players g) = Some player
           /\ Game.claims g' = Game.claims g ++ [(k, c)]
           /\ Claim.playerName c = Player.name player
           /\ Claim.score c = score
           /\ total = Player.score player + score
           /\ JsMap.get playerId (Game.players g')
              = Some (Player.with_score player total))
  /\ (forall g g' playerId word now error,
         submitWord g playerId word now = (g', SubmitFail error) -> g' = g).
Proof.
  split; [|split].
  - intros g Hr. destruct (reachable_scoresInv upper_normal g Hr) as (_ & H2 & _ & H4 & _).
    split; [exact H2|]. intros socketId p Hget. apply (H4 socketId).
    now apply JsMap_get_In.
  - intros g g' playerId word now w score total Hr Es.
    destruct (reachable_scoresInv upper_normal g Hr) as (_ & _ & _ & _ & H5).
    destruct (submitWord_appends upper_normal g g' playerId word w now score total
                (reachable_ledgerInv g Hr) H5 Es)
      as (player & k & c & Hget & Hc & Hcn & _ & Hcs & Ht & Hp).
    exists player, k, c. repeat split; try assumption.
    rewrite Hp. apply JsMap_get_set_same.
  - intros g g' playerId word now error. apply submitWord_rejected.
Qed.

Lemma score_is_sum_of_claims_witness :
  Player.score (Player.mk (js "s1") (js "Alva") 360 true)
  = claimedScore (js "Alva") (Game.claims demoRejoinedAgain)
  /\ exists player k c,
       JsMap.get (js "s3") (Game.players demoRejoined) = Some player
       /\ Game.claims demoRejoinedAgain = Game.claims demoRejoined ++ [(k, c)]
       /\ Claim.playerName c = Player.name player
       /\ Claim.score c = 160
       /\ 360 = Player.score player + 160
       /\ JsMap.get (js "s3") (Game.players demoRejoinedAgain)
          = Some (Player.with_score player 360).
Proof.
  destruct (score_is_sum_of_claims demoEnv upperSv_normal) as (Ha & Hb & _).
  assert (Hr : reachable (env := demoEnv) demoRejoined).
  { unfold demoRejoined, demoClaimed, demoRound. do 3 apply reachable_run.
    apply reachable_created, demoLetters_generated. }
  split.
  - apply (proj2 (Ha demoRejoinedAgain
                     (reachable_run _ [SubmitWord (js "s3") (js "hund") 20000] Hr))
                 (js "s3")).
    reflexivity.
  - apply (Hb demoRejoined demoRejoinedAgain (js "s3") (js "hund") 20000 (js "HUND")
              160 360 Hr).
    reflexivity.
Defined.

(** ** The ledger in free-for-all mode *)

(** C7, as the code has it. In free-for-all mode, in every state a
    session can reach, every ledger entry holds its word, and no two
    entries have the same word and player id. A submission, under the id
    of an entry, of the word of that entry is rejected and leaves the
    session as it was: with 'Du har redan använt detta ord!' when the id
    is in the player table and the round is being played, and with
    'Spelet är inte aktivt' otherwise, since that test comes first. An
    accepted submission puts into the ledger an entry with the normalized
    word, the id of the submitter and the score of the word at the
    seconds elapsed, where no entry had that word and id before; the
    entry is appended, the others being left as they were, when the case
    mapping leaves an upper-cased, trimmed string as it is. Two different
    players who submit the same valid word that neither has used are
    both accepted, each with the score of the word at the seconds elapsed
    at their own submission. *)
Theorem freeforall_claims_once_per_player (env : Environment) :
  (forall g,
      reachable g ->
      Game.mode g = freeforall ->
      (forall k c, In (k, c) (Game.claims g) -> exists w, Claim.word c = Some w)
      /\ NoDup (map (fun kc => (Claim.word (snd kc), Claim.playerId (snd kc)))
                    (Game.claims g))
      /\ (forall k c w word now,
             In (k, c) (Game.claims g) ->
             Claim.word c = Some w ->
             trim (toUpperCase word) = w ->
             submitWord g (Claim.playerId c) word now
             = (g, SubmitFail (if JsMap.has (Claim.playerId c) (Game.players g)
                                  && status_eqb (Game.status g) playing
                               then WordAlreadyUsed
                               else GameNotActive)))
      /\ (forall p word now g' w score total,
             submitWord g p word now = (g', SubmitOk w score total) ->
             let elapsed := elapsedSeconds now (Game.startTime g) in
             w = trim (toUpperCase word)
             /\ score = calculateFreeForAllScore w (inject_Z elapsed)
             /\ (forall k c, In (k, c) (Game.claims g) ->
                             ~ (Claim.word c = Some w /\ Claim.playerId c = p))
             /\ exists name,
                  In (w ++ js "-" ++ p, Claim.mk p name elapsed score (Some w))
                     (Game.claims g')
                  /\ ((forall s, toUpperCase (trim (toUpperCase s))
                                 = trim (toUpperCase s)) ->
                      Game.claims g'
                      = Game.claims g
                        ++ [(w ++ js "-" ++ p,
                             Claim.mk p name elapsed score (Some w))])))
  /\ (forall g p1 p2 word now1 now2 player1 player2,
         Game.mode g = freeforall ->
         Game.status g = playing ->
         p1 <> p2 ->
         JsMap.get p1 (Game.players g) = Some player1 ->
         JsMap.get p2 (Game.players g) = Some player2 ->
         let w := trim (toUpperCase word) in
         validateWord w (Game.letters g) (Game.minWordLength g) = Valid ->
         JsSet.has w (usedWords p1 g) = false ->
         JsSet.has w (usedWords p2 g) = false ->
         let score1 :=
           calculateFreeForAllScore w (inject_Z (elapsedSeconds now1 (Game.startTime g))) in
         let score2 :=
           calculateFreeForAllScore w (inject_Z (elapsedSeconds now2 (Game.startTime g))) in
         exists g1 g2,
           submitWord g p1 word now1
           = (g1, SubmitOk w score1 (Player.score player1 + score1))
           /\ submitWord g1 p2 word now2
              = (g2, SubmitOk w score2 (Player.score player2 + score2))).
Proof.
  split.
  - intros g Hr Hm. pose proof (reachable_ledgerInv g Hr) as Hinv.
    destruct Hinv as (H1 & H0 & H3). pose proof (H3 Hm) as H3'.
    split; [|split; [|split]].
    + intros k c Hin. destruct (H3' k c Hin) as (w & Hw & _). eauto.
    + apply (NoDup_map_through fst _
               (fun wp => match fst wp with Some w => w | None => [] end
                          ++ js "-" ++ snd wp)); [|exact H1].
      intros [k c] Hin. destruct (H3' k c Hin) as (w & Hw & Hk & _).
      simpl. now rewrite Hw.
    + intros k c w word now Hin Hw Hword.
      destruct (H3' k c Hin) as (w' & Hw' & _ & Hused & _ & Hv).
      assert (w' = w) by congruence. subst w'. subst w.
      unfold JsMap.has.
      destruct (JsMap.get (Claim.playerId c) (Game.players g)) as [player|] eqn:Ep;
        [|apply submitWord_not_active; now left].
      destruct (status_eqb (Game.status g) playing) eqn:Es; simpl.
      * apply status_eqb_eq in Es.
        now apply (submitWord_freeforall g (Claim.playerId c) word now player Hm Ep Es Hv).
      * apply submitWord_not_active. right. intros E. rewrite E in Es. discriminate.
    + intros p word now g' w score total Es elapsed.
      pose proof Es as Ha.
      apply submitWord_accepted in Ha as (-> & (player & Hp & _) & Hs & Hv).
      destruct (submitWord_freeforall g p word now player Hm Hp Hs Hv) as [Hrej Hok].
      destruct (JsSet.has (trim (toUpperCase word)) (usedWords p g)) eqn:Eh.
      { rewrite Hrej in Es by reflexivity. discriminate. }
      destruct (Hok eq_refl) as (g1 & E1 & Hc & _).
      rewrite E1 in Es. injection Es as <- <- _.
      split; [reflexivity|]. split; [reflexivity|]. split.
      * intros k c Hin [Hw Hid].
        destruct (H3' k c Hin) as (w' & Hw' & _ & Hused & _).
        assert (w' = trim (toUpperCase word)) by congruence. subst w'.
        rewrite Hid in Hused. congruence.
      * exists (Player.name player). split.
        -- rewrite Hc. apply JsMap_get_In, JsMap_get_set_same.
        -- intros upper_normal.
           destruct (reachable_scoresInv upper_normal g Hr) as (_ & _ & _ & _ & Hg).
           rewrite Hc. apply JsMap_set_fresh.
           exact (freeforall_key_fresh upper_normal g p word
                    (conj H1 (conj H0 H3)) Hg Hm Hv Eh).
  - intros g p1 p2 word now1 now2 player1 player2 Hm Hs Hne Hp1 Hp2 w Hv Hu1 Hu2
           score1 score2.
    destruct (submitWord_freeforall g p1 word now1 player1 Hm Hp1 Hs Hv) as [_ Ho].
    destruct (Ho Hu1) as (g1 & E1 & _ & Hpl & _ & Hk & Hst & Htime & Hset).
    destruct Hset as (_ & Hm1 & Hl1 & _ & Hn1 & _).
    assert (Hp2' : JsMap.get p2 (Game.players g1) = Some player2).
    { rewrite Hpl, JsMap_get_set_other by congruence. exact Hp2. }
    assert (Hv' : validateWord w (Game.letters g1) (Game.minWordLength g1) = Valid).
    { now rewrite Hl1, Hn1. }
    destruct (submitWord_freeforall g1 p2 word now2 player2) as [_ Ho2];
      try assumption; try congruence.
    destruct Ho2 as (g2 & E2 & _).
    { rewrite Hk by congruence. exact Hu2. }
    exists g1, g2. split; [exact E1|]. rewrite E2. unfold score2. now rewrite Htime.
Qed.

Lemma freeforall_claims_once_per_player_witness :
  let g := demoClaimed demoFreeForAll (js "hund") in
  submitWord (env := demoEnv) g (js "s1") (js " Hund") 20000
  = (g, SubmitFail WordAlreadyUsed)
  /\ Game.claims g
     = [(js "HUND-s1", Claim.mk (js "s1") (js "Alva") 10 200 (Some (js "HUND")))]
  /\ exists g1 g2,
       submitWord (env := demoEnv) (demoRound demoFreeForAll) (js "s1") (js "hund") 10000
       = (g1, SubmitOk (js "HUND") 200 200)
       /\ submitWord (env := demoEnv) g1 (js "s2") (js "hund") 30000
          = (g2, SubmitOk (js "HUND") 120 120).
Proof.
  intros g.
  destruct (freeforall_claims_once_per_player demoEnv) as [Ha Hb].
  assert (Hr : reachable (env := demoEnv) g).
  { unfold g, demoClaimed, demoRound. do 2 apply reachable_run.
    apply reachable_created, demoLetters_generated. }
  assert (Hr0 : reachable (env := demoEnv) (demoRound demoFreeForAll)).
  { unfold demoRound. apply reachable_run.
    apply reachable_created, demoLetters_generated. }
  destruct (Ha g Hr eq_refl) as (_ & _ & H3 & _).
  destruct (Ha (demoRound demoFreeForAll) Hr0 eq_refl) as (_ & _ & _ & H4).
  split; [|split].
  - apply (H3 (js "HUND-s1")
              (Claim.mk (js "s1") (js "Alva") 10 200 (Some (js "HUND")))
              (js "HUND") (js " Hund") 20000).
    + left. reflexivity.
    + reflexivity.
    + reflexivity.
  - assert (E : submitWord (env := demoEnv) (demoRound demoFreeForAll)
                            (js "s1") (js "hund") 10000
                 = (g, SubmitOk (js "HUND") 200 200)) by (vm_compute; reflexivity).
    destruct (H4 (js "s1") (js "hund") 10000 g (js "HUND") 200 200 E)
      as (_ & _ & _ & name & Hin & Happ).
    rewrite (Happ upperSv_normal). vm_compute in Hin.
    destruct Hin as [E'|[]]. injection E' as <-. reflexivity.
  - apply (Hb (demoRound demoFreeForAll) (js "s1") (js "s2") (js "hund") 10000 30000
              (Player.mk (js "s1") (js "Alva") 0 true)
              (Player.mk (js "s2") (js "Bo") 0 true)).
    + reflexivity.
    + reflexivity.
    + discriminate.
    + reflexivity.
    + reflexivity.
    + reflexivity.
    + reflexivity.
    + reflexivity.
Defined.

(** C7 as the specification words it does not hold once the round is
    over: in the free-for-all session where Alva has claimed HUND and
    the timer has ended the round, a state the session reaches, Alva's
    second submission of the word is answered 'Spelet är inte aktivt',
    not 'Du har redan använt detta ord!'. *)
Lemma freeforall_resubmit_counterexample :
  let g := run (env := demoEnv) (demoClaimed demoFreeForAll (js "hund"))
               [TimerTick 60000] in
  reachable (env := demoEnv) g
  /\ Game.mode g = freeforall
  /\ In (js "HUND-s1", Claim.mk (js "s1") (js "Alva") 10 200 (Some (js "HUND")))
        (Game.claims g)
  /\ JsMap.has (js "s1") (Game.players g) = true
  /\ submitWord (env := demoEnv) g (js "s1") (js "hund") 61000
     = (g, SubmitFail GameNotActive)
  /\ snd (submitWord (env := demoEnv) g (js "s1") (js "hund") 61000)
     <> SubmitFail WordAlreadyUsed.
Proof.
  intros g. split.
  - unfold g, demoClaimed, demoRound. do 3 apply reachable_run.
    apply reachable_created, demoLetters_generated.
  - repeat split; try (vm_compute; reflexivity).
    + vm_compute. left. reflexivity.
    + vm_compute. discriminate.
Qed.

(** ** The words that could be formed *)

Section Sorting.
Variable cmp : jsstring -> jsstring -> Z.



Variable words : list jsstring.
Hypothesis cmp_total :
  forall a b, In a words -> In b words -> 0 < cmp a b -> cmp b a <= 0.
Hypothesis cmp_trans :
  forall a b c, In a words -> In b words -> In c words ->
                cmp a b <= 0 -> cmp b c <= 0 -> cmp a c <= 0.



End Sorting.


Section PossibleWords.
Context {env : Environment}.







Hypothesis upper_normal :
  forall s, toUpperCase (trim (toUpperCase s)) = trim (toUpperCase s).



End PossibleWords.




Example findPossibleWords_demo :
  findPossibleWords (env := demoEnv) demoLetters 3
  = [js "TESTORD"; js "HUND"; js "KATT"; js "AND"].
Proof. reflexivity. Qed.

(** ** Reconnection *)

Section Reconnection.
Context {env : Environment}.

(** A socket that joins under the exact name of a disconnected player
    takes over that player's entry: name and score are kept, the entry
    moves to the new id at the end of the table; the ledger and the sets
    of used words are not touched. *)
Lemma joinGame_reconnect (g : Game.t) (socketId playerName existingId : jsstring)
      (player : Player.t) :
  Game.status g <> ended ->
  JsMap.size (Game.players g) < MAX_PLAYERS_PER_ROOM ->
  JsMap.has socketId (Game.players g) = false ->
  ~ nameTaken playerName (Game.players g) ->
  find (fun kp => str_eqb (Player.name (snd kp)) playerName
                  && negb (Player.connected (snd kp)))
       (Game.players g) = Some (existingId, player) ->
  exists g' isHost,
    joinGame g socketId playerName = (g', JoinOk isHost)
    /\ JsMap.get socketId (Game.players g')
       = Some (Player.with_connected player true)
    /\ Game.claims g' = Game.claims g
    /\ Game.playerClaims g' = Game.playerClaims g.
Proof.
  intros Hs Hf Hh Hn Hfind. rewrite joinGame_enter by assumption.
  rewrite Hfind. cbv zeta. do 2 eexists. split; [reflexivity|]. simpl.
  rewrite JsMap_get_set_same. auto.
Qed.

End Reconnection.

(** C3 on the code. Alva claims HUND ten seconds into a free-for-all
    round, disconnects and joins again under her name from socket s3.
    Her entry is found again with its score of 200 (and its first id);
    the words she used stay under the id s1 and none are recorded for
    s3, and no claim is shown to s3. Submitting HUND again at twenty
    seconds is accepted for 160 points, her total becoming 360. Another
    socket asking for the name ALVA is refused, the name being taken. *)
Theorem reconnect_forgets_claims :
  JsMap.get (js "s3") (Game.players demoRejoined)
  = Some (Player.mk (js "s1") (js "Alva") 200 true)
  /\ usedWords (js "s1") demoRejoined = [js "HUND"]
  /\ usedWords (js "s3") demoRejoined = []
  /\ visibleClaims demoRejoined (Some (js "s3")) = []
  /\ submitWord (env := demoEnv) demoRejoined (js "s3") (js "hund") 20000
     = (demoRejoinedAgain, SubmitOk (js "HUND") 160 360)
  /\ joinGame (env := demoEnv) demoRejoined (js "s4") (js "ALVA")
     = (demoRejoined, JoinFail NameTaken).
Proof. repeat split; reflexivity. Qed.

(** ** The host *)

Section Host.

(** When the host disconnects, the first player of the table, in
    insertion order, whose connected flag is set becomes the host; when
    there is none the host id stays what it was. *)
Lemma disconnect_host (g : Game.t) (socketId : jsstring) (player : Player.t) :
  JsMap.get socketId (Game.players g) = Some player ->
  Game.hostId g = Some socketId ->
  let players' :=
    JsMap.set socketId (Player.with_connected player false) (Game.players g) in
  Game.players (disconnect g socketId) = players'
  /\ Game.hostId (disconnect g socketId)
     = match find (fun kp => Player.connected (snd kp)) players' with
       | Some (id, _) => Some id
       | None => Some socketId
       end.
Proof.
  intros Hget Hhost players'. unfold disconnect. rewrite Hget, Hhost. simpl.
  rewrite str_eqb_refl. fold players'.
  destruct (find _ players') as [[i p]|]; simpl; auto.
Qed.

Lemma disconnect_other (g : Game.t) (socketId : jsstring) :
  isHostId socketId (Game.hostId g) = false ->
  Game.hostId (disconnect g socketId) = Game.hostId g.
Proof.
  intros H. unfold disconnect. destruct (JsMap.get _ _); [|reflexivity].
  now rewrite H.
Qed.

(** A host id that is set is not given to a socket that joins. *)
Lemma joinGame_keeps_host {env : Environment} (g : Game.t)
      (socketId playerName h : jsstring) :
  Game.hostId g = Some h ->
  Game.hostId (fst (joinGame g socketId playerName)) = Some h.
Proof.
  intros H. unfold joinGame.
  destruct (status_eqb _ _); [exact H|].
  destruct (_ <=? _); [exact H|].
  destruct (JsMap.has _ _); [exact H|].
  destruct (existsb _ _); [exact H|].
  simpl. now rewrite H.
Qed.

End Host.

Example host_transfer_in_join_order :
  Game.hostId demoLobby = Some (js "s1")
  /\ Game.hostId (disconnect demoLobby (js "s1")) = Some (js "s2")
  /\ Game.hostId (disconnect (disconnect demoLobby (js "s2")) (js "s1")) = Some (js "s3").
Proof. repeat split; reflexivity. Qed.

(** C4 on the code. Alva, alone in the lobby and host, disconnects: no
    connected player remains, and the host id is still her socket s1,
    not unset. Bo then joins and is not the host, and cannot start the
    game; Alva joining again from socket s3 is not the host either, and
    the host id s1 then names no player of the table. *)
Theorem host_left_stale :
  Game.hostId demoAlone = Some (js "s1")
  /\ Game.hostId (disconnect demoAlone (js "s1")) = Some (js "s1")
  /\ (let g := fst (joinGame (env := demoEnv) (disconnect demoAlone (js "s1"))
                             (js "s2") (js "Bo")) in
      joinGame (env := demoEnv) (disconnect demoAlone (js "s1")) (js "s2") (js "Bo")
      = (g, JoinOk false)
      /\ Game.hostId g = Some (js "s1")
      /\ startGame g (js "s2") 1000 = (g, StartFail OnlyHost))
  /\ (let g := fst (joinGame (env := demoEnv) (disconnect demoAlone (js "s1"))
                             (js "s3") (js "Alva")) in
      joinGame (env := demoEnv) (disconnect demoAlone (js "s1")) (js "s3") (js "Alva")
      = (g, JoinOk false)
      /\ Game.hostId g = Some (js "s1")
      /\ JsMap.get (js "s1") (Game.players g) = None
      /\ startGame g (js "s3") 1000 = (g, StartFail OnlyHost)).
Proof. repeat split; reflexivity. Qed.

(** ** Drawing letters and ids *)

Lemma randomIndex_lt (r : Q) (n : nat) :
  (0 <= r)%Q -> (r < 1)%Q -> (0 < n)%nat -> (randomIndex r n < n)%nat.
Proof.
  intros H0 H1 Hn. unfold randomIndex.
  assert (Hpos : (0 < inject_Z (Z.of_nat n))%Q).
  { change 0%Q with (inject_Z 0). rewrite <- Zlt_Qlt. lia. }
  assert (Hlo : 0 <= Qfloor (r * inject_Z (Z.of_nat n))).
  { change 0 with (Qfloor 0). apply Qfloor_resp_le.
    apply Qmult_le_0_compat; [exact H0 | now apply Qlt_le_weak]. }
  assert (Hhi : Qfloor (r * inject_Z (Z.of_nat n)) < Z.of_nat n).
  { rewrite Zlt_Qlt. eapply Qle_lt_trans; [apply Qfloor_le|].
    rewrite <- (Qmult_1_l (inject_Z (Z.of_nat n))) at 2.
    apply Qmult_lt_compat_r; assumption. }
  lia.
Qed.

Lemma drawLetters_spec (P : jsstring -> Prop) (n : nat) (p : Q)
      (commonTable table : list jsstring) (rnd : Random) (k : nat)
      (letters : list jsstring) :
  unitInterval rnd ->
  (0 < length commonTable)%nat -> (0 < length table)%nat ->
  Forall P commonTable -> Forall P table -> Forall P letters ->
  length (fst (drawLetters n p commonTable table rnd k letters))
  = (length letters + n)%nat
  /\ Forall P (fst (drawLetters n p commonTable table rnd k letters))
  /\ snd (drawLetters n p commonTable table rnd k letters) = (k + 2 * n)%nat.
Proof.
  intros Hr Hc Ht Pc Pt. revert k letters.
  induction n as [|n IH]; intros k letters Pl; simpl.
  - repeat split; [lia | exact Pl | lia].
  - destruct (Hr (S k)) as [H0 H1].
    match goal with
    | |- context [drawLetters n p commonTable table rnd (S (S k)) (letters ++ [?x])] =>
        assert (Px : P x)
    end.
    { rewrite Forall_forall in Pc, Pt.
      destruct (randomBelow (rnd k) p); [apply Pc | apply Pt];
        apply nth_In; now apply randomIndex_lt. }
    match goal with
    | |- context [drawLetters n p commonTable table rnd (S (S k)) ?l] =>
        destruct (IH (S (S k)) l) as (E1 & E2 & E3)
    end.
    { apply Forall_app. split; [exact Pl | now constructor]. }
    rewrite E1, E3, length_app. simpl. repeat split; [lia | exact E2 | lia].
Qed.

Lemma length_setNth (i : nat) (v : jsstring) (l : list jsstring) :
  length (setNth i v l) = length l.
Proof.
  revert i; induction l as [|x l IH]; intros [|i]; simpl; try reflexivity.
  now rewrite IH.
Qed.

Lemma nth_setNth_same (i : nat) (v : jsstring) (l : list jsstring) :
  (i < length l)%nat -> nth i (setNth i v l) [] = v.
Proof.
  revert i; induction l as [|x l IH]; intros [|i] Hi; simpl in *; try lia;
    [reflexivity|]. apply IH. lia.
Qed.

Lemma nth_setNth_other (i j : nat) (v : jsstring) (l : list jsstring) :
  i <> j -> nth j (setNth i v l) [] = nth j l [].
Proof.
  revert i j; induction l as [|x l IH]; intros [|i] [|j] Hij; simpl;
    try reflexivity; try congruence. apply IH. congruence.
Qed.

(** Writing [v] at an index trades the element that was there for [v]. *)
Lemma setNth_perm (i : nat) (v : jsstring) (l : list jsstring) :
  (i < length l)%nat -> Permutation (nth i l [] :: setNth i v l) (v :: l).
Proof.
  revert i; induction l as [|x l IH]; intros [|i] Hi; simpl in *; try lia.
  - apply perm_swap.
  - eapply Permutation_trans; [apply perm_swap|].
    eapply Permutation_trans; [apply perm_skip, IH; lia | apply perm_swap].
Qed.

Lemma swapLetters_perm (i j : nat) (l : list jsstring) :
  (i < length l)%nat -> (j < length l)%nat -> Permutation (swapLetters i j l) l.
Proof.
  intros Hi Hj. unfold swapLetters.
  pose proof (setNth_perm i (nth j l []) l Hi) as P1.
  assert (Hj' : (j < length (setNth i (nth j l []) l))%nat)
    by now rewrite length_setNth.
  pose proof (setNth_perm j (nth i l []) _ Hj') as P2.
  assert (E : nth j (setNth i (nth j l []) l) [] = nth j l []).
  { destruct (Nat.eq_dec i j) as [->|Hne].
    - now apply nth_setNth_same.
    - now apply nth_setNth_other. }
  rewrite E in P2.
  apply (Permutation_cons_inv (a := nth j l [])).
  eapply Permutation_trans; [exact P2 | exact P1].
Qed.

Lemma shuffleFrom_perm (i : nat) (l : list jsstring) (rnd : Random) (k : nat) :
  unitInterval rnd -> (i < length l)%nat ->
  Permutation (shuffleFrom i l rnd k) l.
Proof.
  intros Hr. revert l k. induction i as [|i IH]; intros l k Hi; simpl.
  - apply Permutation_refl.
  - destruct (Hr k) as [H0 H1].
    assert (Hj : (randomIndex (rnd k) (S (S i)) < S (S i))%nat)
      by (apply randomIndex_lt; [assumption | assumption | lia]).
    assert (P : Permutation (swapLetters (S i) (randomIndex (rnd k) (S (S i))) l) l)
      by (apply swapLetters_perm; lia).
    eapply Permutation_trans; [apply IH | exact P].
    rewrite (Permutation_length P). lia.
Qed.

(** X1. the shuffle of [generateLetters] returns the letters it was given,
    in some order, whatever the random numbers are. *)
Theorem shuffleLetters_permutation (letters : list jsstring) (rnd : Random) (k : nat) :
  unitInterval rnd -> Permutation (shuffleLetters letters rnd k) letters.
Proof.
  intros Hr. unfold shuffleLetters. destruct letters as [|x l].
  - apply Permutation_refl.
  - apply shuffleFrom_perm; [exact Hr | simpl; lia].
Qed.

Lemma vowelCount_bounds (count : Z) :
  0 <= count ->
  0 <= Qfloor (inject_Z count * (35 # 100)) <= count.
Proof.
  intros Hc.
  assert (E : Qfloor (inject_Z count * (35 # 100)) = (count * 35) / 100).
  { unfold Qfloor, Qmult, inject_Z. simpl Qnum. simpl Qden. reflexivity. }
  rewrite E. split.
  - apply Z.div_pos; lia.
  - apply Z.div_le_upper_bound; lia.
Qed.

Lemma tables_generated :
  Forall (fun l => In l (commonVowels ++ vowels ++ commonConsonants ++ consonants))
         commonVowels
  /\ Forall (fun l => In l (commonVowels ++ vowels ++ commonConsonants ++ consonants))
            vowels
  /\ Forall (fun l => In l (commonVowels ++ vowels ++ commonConsonants ++ consonants))
            commonConsonants
  /\ Forall (fun l => In l (commonVowels ++ vowels ++ commonConsonants ++ consonants))
            consonants.
Proof.
  repeat split; apply Forall_forall; intros l Hl; rewrite !in_app_iff; tauto.
Qed.

(** X2. for a count that is not negative, [generateLetters] returns
    exactly [count] letters, every one of them from the tables of
    SWEDISH_LETTERS, and they are the letters drawn by the two loops, in
    some order. *)
Theorem generateLetters_count_and_tables (count : Z) (rnd : Random) :
  unitInterval rnd ->
  0 <= count ->
  length (generateLetters count rnd) = Z.to_nat count
  /\ generatedLetters (generateLetters count rnd)
  /\ Permutation (generateLetters count rnd) (fst (drawnLetters count rnd)).
Proof.
  intros Hr Hc. destruct (vowelCount_bounds count Hc) as [Hv0 Hv1].
  destruct tables_generated as (T1 & T2 & T3 & T4).
  unfold generateLetters.
  assert (D : length (fst (drawnLetters count rnd)) = Z.to_nat count
              /\ generatedLetters (fst (drawnLetters count rnd))).
  { unfold drawnLetters.
    destruct (drawLetters_spec
                (fun l => In l (commonVowels ++ vowels ++ commonConsonants ++ consonants))
                (Z.to_nat (Qfloor (inject_Z count * (35 # 100)))) (7 # 10)
                commonVowels vowels rnd O []) as (E1 & F1 & _);
      try assumption; try (simpl; lia); [constructor|].
    destruct (drawLetters _ _ commonVowels vowels rnd O []) as [letters1 k1].
    cbn [fst] in E1, F1.
    destruct (drawLetters_spec
                (fun l => In l (commonVowels ++ vowels ++ commonConsonants ++ consonants))
                (Z.to_nat (count - Qfloor (inject_Z count * (35 # 100)))) (6 # 10)
                commonConsonants consonants rnd k1 letters1) as (E2 & F2 & _);
      try assumption; try (simpl; lia).
    split; [rewrite E2, E1; cbn [length]; lia | exact F2]. }
  destruct (drawnLetters count rnd) as [letters k]. cbn [fst] in D.
  destruct D as [Dl Dg].
  assert (P : Permutation (shuffleLetters letters rnd k) letters).
  { unfold shuffleLetters. destruct letters as [|x l].
    - apply Permutation_refl.
    - apply shuffleFrom_perm; [exact Hr | simpl; lia]. }
  repeat split.
  - now rewrite (Permutation_length P).
  - unfold generatedLetters in *. rewrite Forall_forall in *.
    intros l Hl. apply Dg. exact (Permutation_in _ P Hl).
  - exact P.
Qed.

Lemma generateGameIdFrom_spec (n : nat) (rnd : Random) (k : nat) (id : jsstring) :
  unitInterval rnd ->
  Forall (fun c => In c gameIdChars) id ->
  length (generateGameIdFrom n rnd k id) = (length id + n)%nat
  /\ Forall (fun c => In c gameIdChars) (generateGameIdFrom n rnd k id).
Proof.
  intros Hr. revert k id. induction n as [|n IH]; intros k id Hid.
  - simpl. split; [lia | exact Hid].
  - destruct (Hr k) as [H0 H1].
    assert (Hi : (randomIndex (rnd k) (length gameIdChars) < length gameIdChars)%nat)
      by (apply randomIndex_lt; [assumption | assumption | simpl; lia]).
    change (generateGameIdFrom (S n) rnd k id)
      with (generateGameIdFrom n rnd (S k)
              (id ++ charAt gameIdChars (randomIndex (rnd k) (length gameIdChars)))).
    unfold charAt.
    destruct (nth_error gameIdChars (randomIndex (rnd k) (length gameIdChars)))
      as [c|] eqn:E; [|apply nth_error_None in E; lia].
    destruct (IH (S k) (id ++ [c])) as [E1 E2].
    { apply Forall_app. split; [exact Hid|]. constructor; [|constructor].
      now apply nth_error_In in E. }
    rewrite E1, length_app. simpl. split; [lia | exact E2].
Qed.

(** X3. a game id has exactly six characters, all of them upper-case
    letters or digits of the table, which leaves out I, O, 0 and 1. *)
Theorem generateGameId_six_chars (rnd : Random) :
  unitInterval rnd ->
  length (generateGameId rnd) = 6%nat
  /\ forall c, In c (generateGameId rnd) ->
       In c gameIdChars
       /\ c <> 73%N /\ c <> 79%N /\ c <> 48%N /\ c <> 49%N.
Proof.
  intros Hr. destruct (generateGameIdFrom_spec 6 rnd O [] Hr) as [E F]; [constructor|].
  split; [exact E|]. intros c Hc. rewrite Forall_forall in F.
  pose proof (F c Hc) as Hin. split; [exact Hin|].
  assert (G : forallb (fun c => negb ((c =? 73) || (c =? 79) || (c =? 48) || (c =? 49))%N)
                gameIdChars = true) by reflexivity.
  rewrite forallb_forall in G. specialize (G c Hin).
  apply negb_true_iff in G.
  repeat split; intros ->; discriminate.
Qed.

Lemma demoRandom_unit : unitInterval demoRandom.
Proof.
  intros k. pose proof (Nat.mod_upper_bound k 9) as H.
  unfold demoRandom, Qle, Qlt. cbn [Qnum Qden]. lia.
Qed.

Lemma shuffleLetters_permutation_witness :
  Permutation (shuffleLetters demoLetters demoRandom 3) demoLetters.
Proof. apply shuffleLetters_permutation. exact demoRandom_unit. Defined.

Lemma generateLetters_count_and_tables_witness :
  length (generateLetters 15 demoRandom) = 15%nat
  /\ generatedLetters (generateLetters 15 demoRandom)
  /\ Permutation (generateLetters 15 demoRandom) (fst (drawnLetters 15 demoRandom)).
Proof.
  apply (generateLetters_count_and_tables 15 demoRandom demoRandom_unit). lia.
Defined.

Lemma generateGameId_six_chars_witness :
  length (generateGameId demoRandom) = 6%nat
  /\ forall c, In c (generateGameId demoRandom) ->
       In c gameIdChars
       /\ c <> 73%N /\ c <> 79%N /\ c <> 48%N /\ c <> 49%N.
Proof. apply generateGameId_six_chars. exact demoRandom_unit. Defined.

(** ** Loading the word list *)

Lemma newSet_spec (words acc : list jsstring) :
  NoDup acc ->
  NoDup (fold_left (fun s w => JsSet.add w s) words acc)
  /\ forall w, In w (fold_left (fun s w => JsSet.add w s) words acc)
               <-> In w acc \/ In w words.
Proof.
  revert acc; induction words as [|x words IH]; intros acc Hnd; simpl.
  - split; [exact Hnd | intros w; tauto].
  - assert (Hadd : NoDup (JsSet.add x acc)
                   /\ forall w, In w (JsSet.add x acc) <-> In w acc \/ x = w).
    { unfold JsSet.add. destruct (JsSet.has x acc) eqn:E.
      - apply JsSet_has_In in E. split; [exact Hnd|].
        intros w. split; [tauto | intros [H|<-]; assumption].
      - split.
        + apply NoDup_snoc; [|exact Hnd]. intros F.
          apply JsSet_has_In in F. congruence.
        + intros w. rewrite in_app_iff. simpl. tauto. }
    destruct Hadd as [Hnd' Hin]. destruct (IH _ Hnd') as [H1 H2].
    split; [exact H1|]. intros w. rewrite H2, Hin. tauto.
Qed.

Lemma splitOn_no_separator (sep : N) (s line : jsstring) :
  In line (splitOn sep s) -> ~ In sep line.
Proof.
  revert line; induction s as [|c r IH]; intros line; simpl.
  - intros [<-|[]]. tauto.
  - destruct (N.eqb_spec c sep) as [E|E].
    + intros [<-|H]; [tauto | now apply IH].
    + destruct (splitOn sep r) as [|h t] eqn:Es.
      * intros [<-|[]]. intros [F|[]]. congruence.
      * intros [<-|H].
        -- intros [F|F]; [congruence|]. apply (IH h); [now left | exact F].
        -- apply IH. now right.
Qed.

Lemma parseWordList_In (env : Environment) (text w : jsstring) :
  In w (parseWordList text) <->
  (2 <= length w)%nat
  /\ exists line, In line (splitOn 10 text)
                  /\ ~ In 10%N line
                  /\ w = toUpperCase (trim line).
Proof.
  unfold parseWordList, newSet.
  rewrite (proj2 (newSet_spec _ [] (NoDup_nil _)) w).
  rewrite filter_In, in_map_iff. split.
  - intros [[]|[(line & <- & Hl) Hlen]]. apply Nat.leb_le in Hlen.
    split; [exact Hlen|]. exists line. repeat split; auto.
    now apply (splitOn_no_separator 10 text).
  - intros [Hlen (line & Hl & _ & ->)]. right.
    split; [exists line; auto | now apply Nat.leb_le].
Qed.

(** X4. the dictionary [loadWordList] builds holds no word twice and no
    word shorter than two code units, the built-in list used when the
    fetch fails included; from a fetched text it holds exactly the lines
    (parts between line feeds), trimmed and then upper-cased, that are at
    least two code units long. *)
Theorem loadWordList_entries (env : Environment) :
  (forall response,
      NoDup (loadWordList response)
      /\ forall w, In w (loadWordList response) -> (2 <= length w)%nat)
  /\ (forall text w,
         In w (loadWordList (Some text)) <->
         (2 <= length w)%nat
         /\ exists line, In line (splitOn 10 text)
                         /\ ~ In 10%N line
                         /\ w = toUpperCase (trim line)).
Proof.
  pose proof (parseWordList_In env) as P.
  split.
  - intros [text|]; simpl.
    + split.
      * unfold parseWordList, newSet. apply newSet_spec. constructor.
      * intros w Hw. now apply P in Hw.
    + split.
      * assert (E : fallbackWordList = newSet fallbackWordList) by reflexivity.
        rewrite E. unfold newSet. apply newSet_spec. constructor.
      * assert (G : forallb (fun w => (2 <=? length w)%nat) fallbackWordList = true)
          by reflexivity.
        rewrite forallb_forall in G. intros w Hw. now apply Nat.leb_le, G.
  - exact P.
Qed.

(** ** The life of a session *)

Section MapLengths.
Context {V : Type}.
Implicit Types (m : list (jsstring * V)) (k : jsstring) (v : V).

Lemma JsMap_length_set k v m :
  length (JsMap.set k v m)
  = if JsMap.has k m then length m else S (length m).
Proof.
  unfold JsMap.has. induction m as [|[k' v'] m IH]; simpl; [reflexivity|].
  destruct (str_eqb k' k); simpl; [reflexivity|].
  rewrite IH. now destruct (JsMap.get k m).
Qed.

Lemma JsMap_length_delete k m :
  In k (JsMap.keys m) -> S (length (JsMap.delete k m)) = length m.
Proof.
  induction m as [|[k' v'] m IH]; simpl; [tauto|].
  str_cases k' k; [reflexivity|].
  intros [H|H]; [contradiction|]. simpl. now rewrite IH.
Qed.

Lemma JsMap_In_delete k m (e : jsstring * V) :
  In e (JsMap.delete k m) -> In e m.
Proof.
  induction m as [|[k' v'] m IH]; simpl; [tauto|].
  destruct (str_eqb k' k); [now right|].
  intros [H|H]; [now left | right; now apply IH].
Qed.

Lemma JsMap_NoDup_delete k m :
  NoDup (JsMap.keys m) -> NoDup (JsMap.keys (JsMap.delete k m)).
Proof.
  induction m as [|[k' v'] m IH]; simpl; intros Hnd; [constructor|].
  inversion Hnd as [|? ? Hn Hnd']; subst.
  destruct (str_eqb k' k); [exact Hnd'|]. simpl. constructor; [|now apply IH].
  intros F. apply Hn. unfold JsMap.keys in *.
  apply in_map_iff in F as (e & <- & He). apply in_map. now apply JsMap_In_delete in He.
Qed.

Lemma JsMap_set_set k v v' m :
  JsMap.set k v (JsMap.set k v' m) = JsMap.set k v m.
Proof.
  induction m as [|[k0 v0] m IH]; simpl.
  - now rewrite str_eqb_refl.
  - destruct (str_eqb k0 k) eqn:E; simpl; rewrite E; [reflexivity | now rewrite IH].
Qed.

(** [set] on a key keeps the entries under the other keys. *)
Lemma JsMap_In_set_keep k v m (e : jsstring * V) :
  In e m -> fst e <> k -> In e (JsMap.set k v m).
Proof.
  induction m as [|[k0 v0] m IH]; simpl; [tauto|].
  intros [<-|H] Hne.
  - simpl in Hne. str_cases k0 k; [contradiction | now left].
  - destruct (str_eqb k0 k); [now right | right; now apply IH].
Qed.

End MapLengths.

(** What [submitWord] leaves alone, and what it does to the players. *)
Lemma submitWord_frame {env : Environment} (g : Game.t) (playerId word : jsstring) (now : Z) :
  let g' := fst (submitWord g playerId word now) in
  Game.status g' = Game.status g
  /\ Game.startTime g' = Game.startTime g
  /\ Game.timerInterval g' = Game.timerInterval g
  /\ Game.hostId g' = Game.hostId g
  /\ (Game.players g' = Game.players g
      \/ exists player score,
           JsMap.get playerId (Game.players g) = Some player
           /\ 0 <= score
           /\ Game.status g = playing
           /\ Game.players g'
              = JsMap.set playerId
                  (Player.with_score player (Player.score player + score))
                  (Game.players g)).
Proof.
  unfold submitWord.
  destruct (JsMap.get playerId (Game.players g)) as [player|] eqn:Ep;
    [|simpl; tauto].
  destruct (status_eqb (Game.status g) playing) eqn:Es; [|simpl; tauto].
  apply status_eqb_eq in Es. simpl negb. cbv iota.
  destruct (validateWord _ _ _); [|simpl; tauto].
  destruct (Game.mode g).
  - destruct (JsSet.has _ _); simpl; [tauto|].
    repeat split. right. do 2 eexists. repeat split; [|exact Es].
    rewrite calculateFreeForAllScore_Z.
    assert (0 <= Z.of_nat (length (trim (toUpperCase word)))
                 * Z.max 0 (60 - elapsedSeconds now (Game.startTime g))) by nia.
    destruct (6 <? _)%nat; lia.
  - destruct (JsMap.has _ _); simpl; [tauto|].
    repeat split. right. do 2 eexists. repeat split; [|exact Es].
    unfold calculateExclusiveScore. lia.
Qed.

Section Lifecycle.
Context {env : Environment}.

Lemma lifecycleInv_join (g : Game.t) (socketId playerName : jsstring) :
  lifecycleInv g -> lifecycleInv (fst (joinGame g socketId playerName)).
Proof.
  intros Hinv. unfold joinGame.
  destruct (status_eqb _ _); [exact Hinv|].
  destruct (Z.leb_spec MAX_PLAYERS_PER_ROOM (JsMap.size (Game.players g))) as [Hf|Hf];
    [exact Hinv|].
  destruct (JsMap.has socketId (Game.players g)) eqn:Hh; [exact Hinv|].
  destruct (existsb _ (Game.players g)); [exact Hinv|].
  destruct Hinv as (Hw & Hp & He & Hhost & Hsize & Hscore & Hnd).
  match goal with
  | |- context [Game.with_players g ?ps] => set (players' := ps)
  end.
  assert (Hin : forall k p, In (k, p) players' ->
                  Player.score p = 0
                  \/ exists k0 p0, In (k0, p0) (Game.players g)
                                   /\ Player.score p = Player.score p0).
  { intros k p Hkp. unfold players' in Hkp.
    destruct (find _ (Game.players g)) as [[existingId player]|] eqn:Ef.
    - apply find_some in Ef as [Hex _].
      apply JsMap_In_set in Hkp as [[-> ->]|Hkp].
      + right. exists existingId, player. auto.
      + right. exists k, p. split; [now apply JsMap_In_delete in Hkp | reflexivity].
    - apply JsMap_In_set in Hkp as [[-> ->]|Hkp]; [now left|].
      right. exists k, p. auto. }
  assert (Hlen : (length players' <= S (length (Game.players g)))%nat
                 /\ players' <> []
                 /\ NoDup (JsMap.keys players')).
  { unfold players'.
    destruct (find _ (Game.players g)) as [[existingId player]|] eqn:Ef.
    - apply find_some in Ef as [Hex _].
      assert (Hk : In existingId (JsMap.keys (Game.players g)))
        by (apply (in_map fst) in Hex; exact Hex).
      pose proof (JsMap_length_delete _ _ Hk) as Hd.
      rewrite JsMap_length_set. split; [|split].
      + destruct (JsMap.has socketId (JsMap.delete existingId (Game.players g))); lia.
      + destruct (JsMap.delete existingId (Game.players g)) as [|[k0 v0] m];
          simpl; [discriminate|]. destruct (str_eqb k0 socketId); discriminate.
      + apply JsMap_NoDup_set. now apply JsMap_NoDup_delete.
    - rewrite JsMap_length_set, Hh. split; [lia|]. split.
      + rewrite (JsMap_set_fresh _ _ _ Hh).
        destruct (Game.players g); discriminate.
      + now apply JsMap_NoDup_set. }
  destruct Hlen as (Hlen & Hne & Hnd').
  assert (Hsize' : (length players' <= length (Game.players g))%nat
                   \/ JsMap.size (Game.players g) < MAX_PLAYERS_PER_ROOM) by now right.
  unfold lifecycleInv. simpl. repeat split; try tauto.
  - intros k p Hkp. destruct (Hin k p Hkp) as [E|(k0 & p0 & H0 & E)]; [exact E|].
    rewrite E. destruct (Hw H) as (_ & _ & _ & _ & Hz). now apply (Hz k0).
  - intros F. destruct (Game.hostId g); discriminate.
  - unfold JsMap.size, MAX_PLAYERS_PER_ROOM in *. lia.
  - intros k p Hkp. destruct (Hin k p Hkp) as [E|(k0 & p0 & H0 & E)]; [lia|].
    rewrite E. now apply (Hscore k0).
Qed.

Lemma lifecycleInv_start (g : Game.t) (socketId : jsstring) (now : Z) :
  lifecycleInv g -> lifecycleInv (fst (startGame g socketId now)).
Proof.
  intros Hinv. unfold startGame.
  destruct (negb (isHostId _ _)); [exact Hinv|].
  destruct (status_eqb (Game.status g) waiting) eqn:Es; [|exact Hinv].
  simpl negb. cbv iota.
  destruct (_ <? _); [exact Hinv|].
  destruct Hinv as (Hw & Hp & He & Hhost & Hsize & Hscore & Hnd).
  unfold lifecycleInv. simpl. repeat split; try tauto; try discriminate; eauto.
Qed.

Lemma lifecycleInv_submit (g : Game.t) (playerId word : jsstring) (now : Z) :
  lifecycleInv g -> lifecycleInv (fst (submitWord g playerId word now)).
Proof.
  intros Hinv.
  destruct (Game.status g) eqn:Est.
  { rewrite submitWord_not_active; [exact Hinv|]. right. rewrite Est. discriminate. }
  all: destruct (submitWord_frame g playerId word now) as (Hs & Ht & Hi & Hh & Hpl);
    destruct Hinv as (Hw & Hp & He & Hhost & Hsize & Hscore & Hnd);
    unfold lifecycleInv; rewrite Hs, Ht, Hi, Hh, Est;
    (destruct Hpl as [Hpl|(player & score & Hget & Hsc & Hplay & Hpl)];
     rewrite Hpl;
     [rewrite Est in *; repeat split; try tauto; try discriminate|]).
  - assert (Hhas : JsMap.has playerId (Game.players g) = true)
      by (unfold JsMap.has; now rewrite Hget).
    assert (Hlen : length (JsMap.set playerId
                             (Player.with_score player (Player.score player + score))
                             (Game.players g)) = length (Game.players g))
      by now rewrite JsMap_length_set, Hhas.
    rewrite Est in *. repeat split; try tauto; try discriminate.
    + intros Hnone. apply Hhost in Hnone. rewrite Hnone in Hget. discriminate.
    + intros Hnil. rewrite Hnil in Hlen. apply Hhost.
      destruct (Game.players g); [reflexivity | discriminate].
    + unfold JsMap.size in *. now rewrite Hlen.
    + intros k p Hkp. apply JsMap_In_set in Hkp as [[-> ->]|Hkp].
      * simpl. apply JsMap_get_In in Hget. specialize (Hscore _ _ Hget). lia.
      * now apply (Hscore k).
    + now apply JsMap_NoDup_set.
  - congruence.
Qed.

Lemma lifecycleInv_disconnect (g : Game.t) (socketId : jsstring) :
  lifecycleInv g -> lifecycleInv (disconnect g socketId).
Proof.
  intros Hinv. unfold disconnect.
  destruct (JsMap.get socketId (Game.players g)) as [player|] eqn:Hget; [|exact Hinv].
  destruct Hinv as (Hw & Hp & He & Hhost & Hsize & Hscore & Hnd).
  assert (Hhas : JsMap.has socketId (Game.players g) = true)
    by (unfold JsMap.has; now rewrite Hget).
  set (players' := JsMap.set socketId (Player.with_connected player false)
                             (Game.players g)).
  assert (Hlen : length players' = length (Game.players g))
    by (unfold players'; now rewrite JsMap_length_set, Hhas).
  assert (Hin : forall k p, In (k, p) players' ->
                  exists p0, In (k, p0) (Game.players g)
                             /\ Player.score p = Player.score p0).
  { intros k p Hkp. apply JsMap_In_set in Hkp as [[-> ->]|Hkp].
    - exists player. split; [now apply JsMap_get_In | reflexivity].
    - exists p. auto. }
  assert (Hsome : exists h, Game.hostId g = Some h).
  { destruct (Game.hostId g) as [h|] eqn:E; [eauto|].
    rewrite (proj1 Hhost eq_refl) in Hget. discriminate. }
  destruct Hsome as (h & Hh).
  assert (G : forall hostId',
             hostId' <> None ->
             lifecycleInv (Game.with_hostId (Game.with_players g players') hostId')).
  { intros hostId' Hne. unfold lifecycleInv. simpl. repeat split; try tauto.
    - intros k p Hkp. destruct (Hin k p Hkp) as (p0 & H0 & ->).
      destruct (Hw H) as (_ & _ & _ & _ & Hz). now apply (Hz k).
    - intros Hnil. rewrite Hnil in Hlen.
      destruct (Game.players g); [discriminate Hget | discriminate].
    - unfold JsMap.size in *. now rewrite Hlen.
    - intros k p Hkp. destruct (Hin k p Hkp) as (p0 & H0 & ->). now apply (Hscore k).
    - now apply JsMap_NoDup_set. }
  assert (G0 : lifecycleInv (Game.with_players g players')).
  { specialize (G (Game.hostId g)). rewrite Hh in G.
    assert (E : Game.with_hostId (Game.with_players g players') (Some h)
                = Game.with_players g players')
      by (destruct g; simpl in *; now rewrite Hh).
    rewrite <- E. apply G. discriminate. }
  destruct (isHostId socketId (Game.hostId g)); [|exact G0].
  destruct (find _ players') as [[i p]|]; [|exact G0].
  apply G. discriminate.
Qed.

Lemma lifecycleInv_tick (g : Game.t) (now : Z) :
  lifecycleInv g -> lifecycleInv (timerTick g now).
Proof.
  intros Hinv. unfold timerTick.
  destruct (Game.timerInterval g) eqn:Et; [|exact Hinv].
  destruct (_ <=? _); [|exact Hinv].
  destruct Hinv as (Hw & Hp & He & Hhost & Hsize & Hscore & Hnd).
  assert (Hplay : Game.status g = playing).
  { destruct (Game.status g) eqn:Es; [|reflexivity|].
    - destruct (Hw eq_refl) as (_ & F & _). congruence.
    - destruct (He eq_refl) as (_ & F). congruence. }
  unfold lifecycleInv, endGame. simpl. repeat split; try tauto; try discriminate.
Qed.

Lemma lifecycleInv_handle (g : Game.t) (e : Event) :
  lifecycleInv g -> lifecycleInv (handle g e).
Proof.
  intros H. destruct e; simpl.
  - now apply lifecycleInv_join.
  - now apply lifecycleInv_start.
  - now apply lifecycleInv_submit.
  - now apply lifecycleInv_disconnect.
  - now apply lifecycleInv_tick.
Qed.

Lemma reachable_lifecycleInv (g : Game.t) : reachable g -> lifecycleInv g.
Proof.
  induction 1 as [id letters options _|g e _ IH].
  - unfold lifecycleInv. simpl. repeat split; try tauto; try discriminate;
      try constructor; try (intros ? ? []).
  - now apply lifecycleInv_handle.
Qed.

End Lifecycle.

Section Clock.
Context {env : Environment}.

(** An event leaves status, start time and timer as they are, or starts
    the round from the lobby, or ends it from a running timer. *)
Lemma handle_clock (g : Game.t) (e : Event) :
  let g' := handle g e in
  (Game.status g' = Game.status g /\ Game.startTime g' = Game.startTime g
   /\ Game.timerInterval g' = Game.timerInterval g)
  \/ (Game.status g = waiting /\ Game.status g' = playing
      /\ (exists now, Game.startTime g' = Some now) /\ Game.timerInterval g' = true)
  \/ (Game.timerInterval g = true /\ Game.status g' = ended
      /\ Game.startTime g' = Game.startTime g /\ Game.timerInterval g' = false).
Proof.
  destruct e; simpl.
  - left. unfold joinGame.
    destruct (status_eqb _ _); [simpl; tauto|].
    destruct (_ <=? _); [simpl; tauto|].
    destruct (JsMap.has _ _); [simpl; tauto|].
    destruct (existsb _ _); simpl; tauto.
  - unfold startGame.
    destruct (negb (isHostId _ _)); [simpl; tauto|].
    destruct (status_eqb (Game.status g) waiting) eqn:Es; [|simpl; tauto].
    apply status_eqb_eq in Es. simpl negb. cbv iota.
    destruct (_ <? _); [simpl; tauto|].
    right. left. simpl. eauto.
  - left. destruct (submitWord_frame g socketId word now) as (H1 & H2 & H3 & _). tauto.
  - left. unfold disconnect.
    destruct (JsMap.get _ _); [|simpl; tauto].
    destruct (isHostId _ _); [|simpl; tauto].
    destruct (find _ _) as [[i ?]|]; simpl; tauto.
  - unfold timerTick. destruct (Game.timerInterval g) eqn:Et; [|simpl; tauto].
    destruct (_ <=? _); [|simpl; tauto].
    right. right. simpl. tauto.
Qed.

End Clock.

Lemma handle_status_rank (env : Environment) (g : Game.t) (e : Event) :
  statusRank (Game.status g) <= statusRank (Game.status (handle g e)).
Proof.
  destruct (handle_clock g e) as [(-> & _)|[(-> & -> & _)|(_ & -> & _)]];
    simpl; try lia. destruct (Game.status g); simpl; lia.
Qed.

Lemma handle_ended (env : Environment) (g : Game.t) (e : Event) :
  Game.status g = ended -> Game.status (handle g e) = ended.
Proof.
  intros He. pose proof (handle_status_rank env g e) as M. rewrite He in M.
  destruct (Game.status (handle g e)); simpl in M; try lia. reflexivity.
Qed.

(** X5. the status of a session only moves forward, waiting, playing,
    ended: no event takes it back, and an ended session stays ended.
    The start time is written once: it does not change once the session
    has left the lobby. In every reachable state the session is waiting
    exactly when it has no start time, and its timer runs exactly when
    it is playing. *)
Theorem status_moves_forward (env : Environment) :
  (forall g e, statusRank (Game.status g) <= statusRank (Game.status (handle g e)))
  /\ (forall g e, Game.status g = ended -> Game.status (handle g e) = ended)
  /\ (forall g e, Game.status g <> waiting ->
                  Game.startTime (handle g e) = Game.startTime g)
  /\ (forall g, reachable g ->
                (Game.status g = waiting <-> Game.startTime g = None)
                /\ (Game.timerInterval g = true <-> Game.status g = playing)).
Proof.
  split; [apply handle_status_rank|]. split; [|split].
  - apply handle_ended.
  - intros g e Hs.
    destruct (handle_clock g e) as [(_ & H & _)|[(F & _)|(_ & _ & H & _)]];
      [exact H | contradiction | exact H].
  - intros g Hr.
    destruct (reachable_lifecycleInv g Hr) as (Hw & Hp & He & _).
    destruct (Game.status g) eqn:Es.
    + destruct (Hw eq_refl) as (H1 & H2 & _). rewrite H1, H2.
      repeat split; congruence.
    + destruct (Hp eq_refl) as ((s & H1) & H2). rewrite H1, H2.
      repeat split; congruence.
    + destruct (He eq_refl) as ((s & H1) & H2). rewrite H1, H2.
      repeat split; congruence.
Qed.

Lemma status_moves_forward_witness :
  Game.status
    (handle (env := demoEnv)
       (handle (env := demoEnv) demoRejoinedAgain (TimerTick 70000))
       (StartGame (js "s2") 99000))
  = ended
  /\ Game.startTime (handle (env := demoEnv) demoRejoinedAgain (StartGame (js "s2") 99000))
     = Game.startTime demoRejoinedAgain
  /\ (Game.timerInterval demoRejoinedAgain = true
      <-> Game.status demoRejoinedAgain = playing).
Proof.
  destruct (status_moves_forward demoEnv) as (_ & He & Ht & Hr).
  split; [|split].
  - apply He. reflexivity.
  - apply Ht. vm_compute. discriminate.
  - apply Hr. unfold demoRejoinedAgain, demoRejoined, demoClaimed, demoRound.
    do 4 apply reachable_run. apply reachable_created, demoLetters_generated.
Defined.

(** X6. in every reachable session that is still waiting, nothing has
    been claimed and every score is 0, and the state sent to any client
    shows a question mark for each letter, no claim, and the whole
    duration as the time remaining. *)
Theorem lobby_reveals_nothing (env : Environment) (g : Game.t)
        (forPlayerId : option jsstring) (now : Z) :
  reachable g ->
  Game.status g = waiting ->
  Game.claims g = []
  /\ (forall k p, In (k, p) (Game.players g) -> Player.score p = 0)
  /\ length (GameState.letters (getGameState g forPlayerId now))
     = length (Game.letters g)
  /\ (forall l, In l (GameState.letters (getGameState g forPlayerId now)) -> l = js "?")
  /\ GameState.claims (getGameState g forPlayerId now) = []
  /\ GameState.timeRemaining (getGameState g forPlayerId now) = Game.duration g.
Proof.
  intros Hr Hs. destruct (reachable_lifecycleInv g Hr) as (Hw & _).
  destruct (Hw Hs) as (Ht & _ & Hc & _ & Hz).
  unfold getGameState. simpl. rewrite Hs, Ht, Hc. simpl.
  repeat split; try assumption.
  - apply length_map.
  - intros l Hl. apply in_map_iff in Hl as (x & <- & _). reflexivity.
  - destruct (Game.mode g); [destruct forPlayerId as [[|c p]|]|]; reflexivity.
Qed.

Lemma lobby_reveals_nothing_witness :
  Game.claims demoLobby = []
  /\ (forall k p, In (k, p) (Game.players demoLobby) -> Player.score p = 0)
  /\ length (GameState.letters (getGameState demoLobby (Some (js "s2")) 5000))
     = length (Game.letters demoLobby)
  /\ (forall l, In l (GameState.letters (getGameState demoLobby (Some (js "s2")) 5000))
                -> l = js "?")
  /\ GameState.claims (getGameState demoLobby (Some (js "s2")) 5000) = []
  /\ GameState.timeRemaining (getGameState demoLobby (Some (js "s2")) 5000)
     = Game.duration demoLobby.
Proof.
  apply (lobby_reveals_nothing demoEnv).
  - unfold demoLobby. apply reachable_run.
    apply reachable_created, demoLetters_generated.
  - reflexivity.
Defined.

(** ** After the end, and the players of a session *)

Section Players.
Context {env : Environment}.

Lemma set_same_projection {B : Type} (f : jsstring * Player.t -> B)
      (players : list (jsstring * Player.t)) (k : jsstring) (player player' : Player.t) :
  JsMap.get k players = Some player ->
  f (k, player') = f (k, player) ->
  map f (JsMap.set k player' players) = map f players.
Proof.
  intros Hget Hf.
  destruct (JsMap_get_split _ _ _ Hget) as (l1 & l2 & E & _ & Hs & _).
  rewrite Hs, E, !map_app. simpl. now rewrite Hf.
Qed.

Lemma disconnect_players (g : Game.t) (socketId : jsstring) :
  Game.players (disconnect g socketId)
  = match JsMap.get socketId (Game.players g) with
    | Some player =>
        JsMap.set socketId (Player.with_connected player false) (Game.players g)
    | None => Game.players g
    end.
Proof.
  unfold disconnect. destruct (JsMap.get _ _); [|reflexivity].
  destruct (isHostId _ _); [|reflexivity].
  destruct (find _ _) as [[i ?]|]; reflexivity.
Qed.

(** Names and scores, by id, as [endGame] ranks them. *)
Lemma ended_frozen (g : Game.t) (e : Event) :
  Game.status g = ended ->
  Game.claims (handle g e) = Game.claims g
  /\ Game.playerClaims (handle g e) = Game.playerClaims g
  /\ map (fun kp => Ranking.mk (fst kp) (Player.name (snd kp)) (Player.score (snd kp)))
         (Game.players (handle g e))
     = map (fun kp => Ranking.mk (fst kp) (Player.name (snd kp)) (Player.score (snd kp)))
           (Game.players g).
Proof.
  intros He. destruct e; simpl.
  - rewrite joinGame_ended by exact He. auto.
  - destruct (startGame_ledger g socketId now) as (-> & -> & -> & _). auto.
  - rewrite submitWord_not_active; [auto|]. right. rewrite He. discriminate.
  - destruct (disconnect_ledger g socketId) as (-> & -> & _).
    rewrite disconnect_players.
    destruct (JsMap.get socketId (Game.players g)) as [player|] eqn:Hget; [|auto].
    repeat split. now apply (set_same_projection _ _ _ player).
  - destruct (timerTick_ledger g now) as (-> & -> & -> & _). auto.
Qed.

End Players.

(** X7. once a session has ended no event changes its ledger, the words
    its players have used, or the final rankings: joining, starting and
    submitting are refused, and a disconnection only clears a connected
    flag. *)
Theorem results_are_final (env : Environment) (g : Game.t) (e : Event) :
  Game.status g = ended ->
  Game.status (handle g e) = ended
  /\ Game.claims (handle g e) = Game.claims g
  /\ Game.playerClaims (handle g e) = Game.playerClaims g
  /\ rankings (handle g e) = rankings g.
Proof.
  intros He. destruct (ended_frozen g e He) as (H1 & H2 & H3).
  repeat split; try assumption.
  - now apply handle_ended.
  - unfold rankings. now rewrite H3.
Qed.

Lemma results_are_final_witness :
  let g := handle (env := demoEnv) demoRejoinedAgain (TimerTick 70000) in
  Game.status (handle (env := demoEnv) g (Disconnect (js "s2"))) = ended
  /\ Game.claims (handle (env := demoEnv) g (Disconnect (js "s2"))) = Game.claims g
  /\ Game.playerClaims (handle (env := demoEnv) g (Disconnect (js "s2")))
     = Game.playerClaims g
  /\ rankings (handle (env := demoEnv) g (Disconnect (js "s2"))) = rankings g.
Proof.
  intros g. apply (results_are_final demoEnv). reflexivity.
Defined.

(** X8. a reachable session never holds more than 20 players, counting
    the disconnected ones, no two under the same socket id; it has a
    host id exactly when it has a player; no event makes the table of
    players shorter. *)
Theorem players_bounded_and_kept (env : Environment) (g : Game.t) :
  reachable g ->
  (length (Game.players g) <= 20)%nat
  /\ NoDup (JsMap.keys (Game.players g))
  /\ (Game.hostId g = None <-> Game.players g = [])
  /\ forall e, (length (Game.players g) <= length (Game.players (handle g e)))%nat.
Proof.
  intros Hr.
  destruct (reachable_lifecycleInv g Hr) as (_ & _ & _ & Hh & Hs & _ & Hnd).
  split; [unfold JsMap.size, MAX_PLAYERS_PER_ROOM in Hs; lia|].
  split; [exact Hnd|]. split; [exact Hh|].
  intros e. destruct e; simpl.
  - unfold joinGame.
    destruct (status_eqb _ _); [simpl; lia|].
    destruct (_ <=? _); [simpl; lia|].
    destruct (JsMap.has socketId (Game.players g)) eqn:Hhas; [simpl; lia|].
    destruct (existsb _ _); [simpl; lia|]. simpl.
    destruct (find _ (Game.players g)) as [[existingId player]|] eqn:Ef.
    + apply find_some in Ef as [Hex _].
      assert (Hk : In existingId (JsMap.keys (Game.players g)))
        by (apply (in_map fst) in Hex; exact Hex).
      pose proof (JsMap_length_delete _ _ Hk) as Hd.
      rewrite JsMap_length_set.
      assert (Hf : JsMap.has socketId (JsMap.delete existingId (Game.players g)) = false).
      { apply JsMap_has_false. apply JsMap_has_false in Hhas. intros F. apply Hhas.
        unfold JsMap.keys in *. apply in_map_iff in F as (x & <- & Hx).
        apply in_map. now apply JsMap_In_delete in Hx. }
      rewrite Hf. lia.
    + rewrite JsMap_length_set, Hhas. lia.
  - destruct (startGame_ledger g socketId now) as (_ & _ & -> & _). lia.
  - destruct (submitWord_frame g socketId word now)
      as (_ & _ & _ & _ & [->|(player & score & Hget & _ & _ & ->)]); [lia|].
    rewrite JsMap_length_set. unfold JsMap.has. rewrite Hget. lia.
  - rewrite disconnect_players.
    destruct (JsMap.get socketId (Game.players g)) as [player|] eqn:Hget; [|lia].
    rewrite JsMap_length_set. unfold JsMap.has. rewrite Hget. lia.
  - destruct (timerTick_ledger g now) as (_ & _ & -> & _). lia.
Qed.

Lemma players_bounded_and_kept_witness :
  (length (Game.players demoRejoined) <= 20)%nat
  /\ NoDup (JsMap.keys (Game.players demoRejoined))
  /\ (Game.hostId demoRejoined = None <-> Game.players demoRejoined = [])
  /\ forall e, (length (Game.players demoRejoined)
                <= length (Game.players (handle (env := demoEnv) demoRejoined e)))%nat.
Proof.
  apply (players_bounded_and_kept demoEnv).
  unfold demoRejoined, demoClaimed, demoRound. do 3 apply reachable_run.
  apply reachable_created, demoLetters_generated.
Defined.

(** X9. in a reachable session the host asking to start from the lobby
    always succeeds, the round being started at the time of the request;
    the answer 'Minst en spelare behövs' is never given, since a session
    that has a host has a player. *)
Theorem host_start_succeeds (env : Environment) (g : Game.t) (socketId : jsstring)
        (now : Z) :
  reachable g ->
  snd (startGame g socketId now) <> StartFail NeedPlayer
  /\ (Game.status g = waiting ->
      Game.hostId g = Some socketId ->
      startGame g socketId now = (startGameTimer g now, StartOk)
      /\ Game.status (startGameTimer g now) = playing
      /\ Game.startTime (startGameTimer g now) = Some now).
Proof.
  intros Hr.
  destruct (reachable_lifecycleInv g Hr) as (_ & _ & _ & Hh & _).
  assert (Hsize : forall h, Game.hostId g = Some h ->
                            (JsMap.size (Game.players g) <? 1) = false).
  { intros h Hhost. apply Z.ltb_ge. unfold JsMap.size.
    destruct (Game.players g) as [|x l] eqn:E; [|simpl; lia].
    rewrite (proj2 Hh eq_refl) in Hhost. discriminate. }
  split.
  - unfold startGame.
    destruct (Game.hostId g) as [h|] eqn:Ehost; [|simpl; discriminate].
    destruct (negb (isHostId socketId (Some h))); [simpl; discriminate|].
    destruct (negb (status_eqb _ _)); [simpl; discriminate|].
    rewrite (Hsize h eq_refl). simpl. discriminate.
  - intros Hs Hhost. unfold startGame.
    rewrite (Hsize _ Hhost), Hhost, Hs. simpl. rewrite str_eqb_refl. simpl. auto.
Qed.

Lemma host_start_succeeds_witness :
  snd (startGame demoLobby (js "s1") 1000) <> StartFail NeedPlayer
  /\ startGame demoLobby (js "s1") 1000 = (startGameTimer demoLobby 1000, StartOk).
Proof.
  assert (Hr : reachable (env := demoEnv) demoLobby).
  { unfold demoLobby. apply reachable_run.
    apply reachable_created, demoLetters_generated. }
  destruct (host_start_succeeds demoEnv demoLobby (js "s1") 1000 Hr) as [H1 H2].
  split; [exact H1|]. apply H2; reflexivity.
Defined.

(** ** Scores over time *)

(** X10. the score of a player never goes down: after any event on a
    reachable session there is a player of the same name whose score is
    at least what it was, under a new id after a reconnection; and no
    score is negative. *)
Theorem scores_never_decrease (env : Environment) (g : Game.t) :
  reachable g ->
  (forall k p, In (k, p) (Game.players g) -> 0 <= Player.score p)
  /\ forall e k p,
       In (k, p) (Game.players g) ->
       exists k' p',
         In (k', p') (Game.players (handle g e))
         /\ Player.name p' = Player.name p
         /\ Player.score p <= Player.score p'.
Proof.
  intros Hr.
  destruct (reachable_lifecycleInv g Hr) as (_ & _ & _ & _ & _ & Hscore & Hnd).
  split; [exact Hscore|].
  assert (Same : forall players', players' = Game.players g ->
                   forall k p, In (k, p) (Game.players g) ->
                     exists k' p', In (k', p') players'
                                   /\ Player.name p' = Player.name p
                                   /\ Player.score p <= Player.score p').
  { intros players' -> k p Hkp. exists k, p. repeat split; [exact Hkp | lia]. }
  assert (Upd : forall sid player player',
             JsMap.get sid (Game.players g) = Some player ->
             Player.name player' = Player.name player ->
             Player.score player <= Player.score player' ->
             forall k p, In (k, p) (Game.players g) ->
               exists k' p', In (k', p') (JsMap.set sid player' (Game.players g))
                             /\ Player.name p' = Player.name p
                             /\ Player.score p <= Player.score p').
  { intros sid player player' Hget Hn Hs k p Hkp.
    destruct (JsMap_get_split _ _ _ Hget) as (l1 & l2 & E & _ & Hset & _).
    rewrite Hset. rewrite E in Hkp.
    apply in_app_iff in Hkp as [Hkp|[[= <- <-]|Hkp]].
    - exists k, p. repeat split; [apply in_app_iff; now left | lia].
    - exists sid, player'. repeat split; [apply in_app_iff; right; now left | | ]; assumption.
    - exists k, p. repeat split; [apply in_app_iff; right; now right | lia]. }
  intros e. destruct e; simpl.
  - unfold joinGame.
    destruct (status_eqb _ _); [now apply Same|].
    destruct (_ <=? _); [now apply Same|].
    destruct (JsMap.has socketId (Game.players g)) eqn:Hhas; [now apply Same|].
    destruct (existsb _ _); [now apply Same|]. simpl.
    destruct (find _ (Game.players g)) as [[existingId player]|] eqn:Ef.
    + apply find_some in Ef as [Hex _].
      pose proof (JsMap_In_get _ _ _ Hnd Hex) as Hget.
      destruct (JsMap_get_split _ _ _ Hget) as (l1 & l2 & E & _ & _ & Hd).
      rewrite Hd. intros k p Hkp.
      assert (Hne : k <> socketId).
      { apply JsMap_has_false in Hhas. intros ->. apply Hhas.
        now apply (in_map fst) in Hkp. }
      rewrite E in Hkp.
      apply in_app_iff in Hkp as [Hkp|[[= <- <-]|Hkp]].
      * exists k, p. repeat split; [|lia].
        apply JsMap_In_set_keep; [apply in_app_iff; now left | exact Hne].
      * exists socketId, (Player.with_connected player true).
        repeat split; [|simpl; lia]. apply JsMap_get_In, JsMap_get_set_same.
      * exists k, p. repeat split; [|lia].
        apply JsMap_In_set_keep; [apply in_app_iff; now right | exact Hne].
    + rewrite (JsMap_set_fresh _ _ _ Hhas). intros k p Hkp.
      exists k, p. repeat split; [apply in_app_iff; now left | lia].
  - destruct (startGame_ledger g socketId now) as (_ & _ & Hp & _). now apply Same.
  - destruct (submitWord_frame g socketId word now)
      as (_ & _ & _ & _ & [Hp|(player & score & Hget & Hsc & _ & Hp)]).
    + now apply Same.
    + rewrite Hp. apply (Upd socketId player); [exact Hget | reflexivity | simpl; lia].
  - rewrite disconnect_players.
    destruct (JsMap.get socketId (Game.players g)) as [player|] eqn:Hget.
    + apply (Upd socketId player); [exact Hget | reflexivity | simpl; lia].
    + now apply Same.
  - destruct (timerTick_ledger g now) as (_ & _ & Hp & _). now apply Same.
Qed.

Lemma scores_never_decrease_witness :
  exists k' p',
    In (k', p') (Game.players
                   (handle (env := demoEnv) demoRejoined
                           (SubmitWord (js "s3") (js "hund") 20000)))
    /\ Player.name p' = js "Alva"
    /\ 200 <= Player.score p'.
Proof.
  assert (Hr : reachable (env := demoEnv) demoRejoined).
  { unfold demoRejoined, demoClaimed, demoRound. do 3 apply reachable_run.
    apply reachable_created, demoLetters_generated. }
  destruct (scores_never_decrease demoEnv demoRejoined Hr) as [_ H].
  apply (H (SubmitWord (js "s3") (js "hund") 20000) (js "s3")
           (Player.mk (js "s1") (js "Alva") 200 true)).
  vm_compute. right. left. reflexivity.
Defined.

(** X11. the free-for-all score does not grow with the seconds elapsed
    and does not shrink with the length of the word; it is never
    negative; from 60 seconds on, however long the round lasts, a word
    earns only the bonus of 5 for more than six letters. *)
Theorem freeforall_score_monotone (word word' : jsstring) (t t' : Z) :
  (t <= t' ->
   calculateFreeForAllScore word (inject_Z t')
   <= calculateFreeForAllScore word (inject_Z t))
  /\ ((length word <= length word')%nat ->
      calculateFreeForAllScore word (inject_Z t)
      <= calculateFreeForAllScore word' (inject_Z t))
  /\ 0 <= calculateFreeForAllScore word (inject_Z t)
  /\ (60 <= t ->
      calculateFreeForAllScore word (inject_Z t)
      = if (6 <? length word)%nat then 5 else 0).
Proof.
  rewrite !calculateFreeForAllScore_Z.
  repeat split.
  - intros H. apply Z.add_le_mono_r. apply Z.mul_le_mono_nonneg_l; lia.
  - intros H.
    assert (Hb : (if (6 <? length word)%nat then 5 else 0)
                 <= (if (6 <? length word')%nat then 5 else 0)).
    { destruct (Nat.ltb_spec 6 (length word)), (Nat.ltb_spec 6 (length word')); lia. }
    assert (Hm : Z.of_nat (length word) * Z.max 0 (60 - t)
                 <= Z.of_nat (length word') * Z.max 0 (60 - t))
      by (apply Z.mul_le_mono_nonneg_r; lia).
    lia.
  - assert (0 <= Z.of_nat (length word) * Z.max 0 (60 - t)) by nia.
    destruct (6 <? length word)%nat; lia.
  - intros H. rewrite Z.max_l by lia. lia.
Qed.

Lemma freeforall_score_monotone_witness :
  calculateFreeForAllScore (js "HUND") (inject_Z 30)
  <= calculateFreeForAllScore (js "HUND") (inject_Z 10)
  /\ calculateFreeForAllScore (js "HUND") (inject_Z 10)
     <= calculateFreeForAllScore (js "TESTORD") (inject_Z 10)
  /\ calculateFreeForAllScore (js "TESTORD") (inject_Z 75) = 5.
Proof.
  destruct (freeforall_score_monotone (js "HUND") (js "TESTORD") 10 30)
    as (H1 & H2 & _ & _).
  destruct (freeforall_score_monotone (js "TESTORD") (js "TESTORD") 75 75)
    as (_ & _ & _ & H4).
  split; [|split].
  - apply H1. lia.
  - apply H2. simpl. lia.
  - apply H4. lia.
Defined.

(** X12. in a reachable session that is playing, started at [s], a tick
    of the timer ends the round exactly when the whole duration has
    passed on the clock, [s + 1000 * duration <= now]; an earlier tick
    changes nothing. *)
Theorem round_lasts_its_duration (env : Environment) (g : Game.t) (now : Z) :
  reachable g ->
  Game.status g = playing ->
  exists s,
    Game.startTime g = Some s
    /\ (s + 1000 * Game.duration g <= now ->
        timerTick g now = endGame g /\ Game.status (timerTick g now) = ended)
    /\ (now < s + 1000 * Game.duration g -> timerTick g now = g).
Proof.
  intros Hr Hs. destruct (reachable_lifecycleInv g Hr) as (_ & Hp & _).
  destruct (Hp Hs) as ((s & Ht) & Hi). exists s. split; [exact Ht|].
  unfold timerTick, elapsedSeconds. rewrite Hi, Ht.
  split; intros H.
  - assert (E : Game.duration g <= (now - s) / 1000)
      by (apply Z.div_le_lower_bound; lia).
    destruct (Z.leb_spec (Z.max 0 (Game.duration g - (now - s) / 1000)) 0); [|lia].
    split; reflexivity.
  - assert (E : (now - s) / 1000 < Game.duration g)
      by (apply Z.div_lt_upper_bound; lia).
    destruct (Z.leb_spec (Z.max 0 (Game.duration g - (now - s) / 1000)) 0); [lia|].
    reflexivity.
Qed.

Lemma round_lasts_its_duration_witness :
  exists s,
    Game.startTime demoRejoined = Some s
    /\ (s + 1000 * Game.duration demoRejoined <= 60000 ->
        timerTick demoRejoined 60000 = endGame demoRejoined
        /\ Game.status (timerTick demoRejoined 60000) = ended)
    /\ (59999 < s + 1000 * Game.duration demoRejoined ->
        timerTick demoRejoined 59999 = demoRejoined).
Proof.
  assert (Hr : reachable (env := demoEnv) demoRejoined).
  { unfold demoRejoined, demoClaimed, demoRound. do 3 apply reachable_run.
    apply reachable_created, demoLetters_generated. }
  destruct (round_lasts_its_duration demoEnv demoRejoined 60000 Hr eq_refl)
    as (s & Hs & H1 & _).
  destruct (round_lasts_its_duration demoEnv demoRejoined 59999 Hr eq_refl)
    as (s' & Hs' & _ & H2).
  exists s. rewrite Hs in Hs'. injection Hs' as <-.
  split; [exact Hs|]. split; [exact H1 | exact H2].
Defined.

(** ** Forming words: bounds *)

Lemma indexOf_removeAt_length (c : jsstring) (l : list jsstring) (i : nat) :
  indexOf c l = Some i -> length l = S (length (removeAt i l)).
Proof.
  intros H. apply indexOf_removeAt in H.
  now rewrite (Permutation_length H).
Qed.

Lemma canFormChars_length (chars pool : list jsstring) :
  canFormChars chars pool = true -> (length chars <= length pool)%nat.
Proof.
  revert pool; induction chars as [|ch rest IH]; intros pool; simpl; [lia|].
  destruct (indexOf ch pool) as [i|] eqn:Ei; [|discriminate].
  intros H. apply IH in H. apply indexOf_removeAt_length in Ei. lia.
Qed.

Lemma occurrences_app (c : jsstring) (l m : list jsstring) :
  occurrences c (l ++ m) = (occurrences c l + occurrences c m)%nat.
Proof.
  induction l as [|x l IH]; simpl; [reflexivity|].
  destruct (str_eqb x c); simpl; now rewrite IH.
Qed.

(** X13. a word that can be formed has no more characters than there are
    letters, and each of its characters, upper-cased, is one of the
    letters; it can still be formed when letters are added, wherever
    they are put. *)
Theorem canFormWord_bounds (env : Environment) (word : jsstring)
        (letters : list jsstring) :
  canFormWord word letters = true ->
  (length (codePoints (toUpperCase word)) <= length letters)%nat
  /\ (forall more letters',
         Permutation letters' (letters ++ more) ->
         canFormWord word letters' = true)
  /\ (forall c, In c (codePoints (toUpperCase word)) -> In c letters).
Proof.
  unfold canFormWord. intros H. split; [|split].
  - now apply canFormChars_length.
  - intros more letters' P.
    apply canFormChars_occurrences. intros c.
    rewrite (occurrences_perm c _ _ P), occurrences_app.
    pose proof (proj1 (canFormChars_occurrences _ _) H c). lia.
  - now apply canFormChars_In.
Qed.

Lemma canFormWord_bounds_witness :
  (length (codePoints (toUpperCase (Environment := demoEnv) (js "hund")))
   <= length demoLetters)%nat
  /\ canFormWord (env := demoEnv) (js "hund") (js "X" :: demoLetters ++ [js "Y"]) = true.
Proof.
  destruct (canFormWord_bounds demoEnv (js "hund") demoLetters eq_refl) as (H1 & H2 & _).
  split; [exact H1|].
  apply (H2 [js "Y"; js "X"]).
  change (js "X" :: demoLetters ++ [js "Y"])
    with ([js "X"] ++ (demoLetters ++ [js "Y"])).
  eapply Permutation_trans; [apply Permutation_app_comm|].
  rewrite <- app_assoc. apply Permutation_refl.
Defined.

(** ** What a player is shown *)

Lemma filter_snoc {A : Type} (f : A -> bool) (l : list A) (x : A) :
  filter f (l ++ [x]) = filter f l ++ (if f x then [x] else []).
Proof. rewrite filter_app. reflexivity. Qed.

(** X14. in free-for-all mode the state sent to a player shows only that
    player's claims. Provided the case mapping leaves an upper-cased,
    trimmed string as it is, an accepted submission in a reachable
    session adds one claim, with the word and its score, to what the
    submitter is shown, and changes nothing in what any other player is
    shown. *)
Theorem freeforall_claims_private (env : Environment)
        (upper_normal :
           forall s, toUpperCase (trim (toUpperCase s)) = trim (toUpperCase s))
        (g : Game.t) :
  Game.mode g = freeforall ->
  (forall q now c,
      q <> [] ->
      In c (GameState.claims (getGameState g (Some q) now)) ->
      ClaimView.playerId c = q)
  /\ (reachable g ->
      forall g' p word now w score total now',
        submitWord g p word now = (g', SubmitOk w score total) ->
        (forall q, q <> [] -> q <> p ->
                   GameState.claims (getGameState g' (Some q) now')
                   = GameState.claims (getGameState g (Some q) now'))
        /\ (p <> [] ->
            exists name,
              GameState.claims (getGameState g' (Some p) now')
              = GameState.claims (getGameState g (Some p) now')
                ++ [ClaimView.mk (Some w) p name
                                 (elapsedSeconds now (Game.startTime g)) score])).
Proof.
  intros Hm. split.
  - intros q now c Hq. unfold getGameState. simpl. rewrite Hm.
    destruct q as [|x q]; [congruence|].
    intros Hin. apply in_map_iff in Hin as (kc & <- & Hkc).
    apply filter_In in Hkc as [_ E]. apply str_eqb_eq in E. exact E.
  - intros Hr g' p word now w score total now' Es.
    pose proof Es as Ha.
    apply submitWord_accepted in Ha as (-> & (player & Hp & _) & Hs & Hv).
    destruct (submitWord_freeforall g p word now player Hm Hp Hs Hv) as [Hrej Hok].
    destruct (JsSet.has (trim (toUpperCase word)) (usedWords p g)) eqn:Eh.
    { rewrite Hrej in Es by reflexivity. discriminate. }
    destruct (Hok eq_refl) as (g1 & E1 & Hc & _ & _ & _ & _ & _ & Hset).
    rewrite E1 in Es. injection Es as <- <- _.
    destruct (reachable_scoresInv upper_normal g Hr) as (_ & _ & _ & _ & Hg).
    rewrite (JsMap_set_fresh _ _ _
               (freeforall_key_fresh upper_normal g p word
                  (reachable_ledgerInv g Hr) Hg Hm Hv Eh)) in Hc.
    destruct Hset as (_ & Hm1 & _).
    split.
    + intros q Hq Hne. unfold getGameState. simpl. rewrite Hm1, Hm, Hc.
      destruct q as [|x q]; [congruence|].
      rewrite filter_snoc. simpl.
      str_cases p (x :: q); [congruence|]. now rewrite app_nil_r.
    + intros Hne. exists (Player.name player).
      unfold getGameState. simpl. rewrite Hm1, Hm, Hc.
      destruct p as [|x p]; [congruence|].
      rewrite filter_snoc. simpl. rewrite str_eqb_refl, N.eqb_refl. simpl.
      rewrite map_app. reflexivity.
Qed.

Lemma freeforall_claims_private_witness :
  GameState.claims (getGameState demoRejoinedAgain (Some (js "s2")) 30000)
  = GameState.claims (getGameState demoRejoined (Some (js "s2")) 30000)
  /\ exists name,
       GameState.claims (getGameState demoRejoinedAgain (Some (js "s3")) 30000)
       = GameState.claims (getGameState demoRejoined (Some (js "s3")) 30000)
         ++ [ClaimView.mk (Some (js "HUND")) (js "s3") name 20 160].
Proof.
  assert (Hr : reachable (env := demoEnv) demoRejoined).
  { unfold demoRejoined, demoClaimed, demoRound. do 3 apply reachable_run.
    apply reachable_created, demoLetters_generated. }
  destruct (freeforall_claims_private demoEnv upperSv_normal demoRejoined eq_refl)
    as [_ H].
  destruct (H Hr demoRejoinedAgain (js "s3") (js "hund") 20000 (js "HUND") 160 360
              30000 eq_refl) as [H1 H2].
  split.
  - apply H1; discriminate.
  - apply H2. discriminate.
Defined.

(** ** The final rankings *)

Section StableSort.
Context {A : Type}.
Variable key : A -> Z.


Lemma insertSorted_perm (cmp : A -> A -> Z) (x : A) (l : list A) :
  Permutation (insertSorted cmp x l) (x :: l).
Proof.
  induction l as [|y r IH]; simpl; [apply Permutation_refl|].
  destruct (cmp x y <=? 0); [apply Permutation_refl|].
  eapply Permutation_trans; [apply perm_skip, IH | apply perm_swap].
Qed.

Lemma stableSort_perm (cmp : A -> A -> Z) (l : list A) :
  Permutation (stableSort cmp l) l.
Proof.
  induction l as [|x l IH]; simpl; [constructor|].
  eapply Permutation_trans; [apply insertSorted_perm | now apply perm_skip].
Qed.

Lemma insertSorted_descending (x : A) (l : list A) :
  StronglySorted (fun a b => key b <= key a) l ->
  StronglySorted (fun a b => key b <= key a) (insertSorted (fun a b : A => key b - key a) x l).
Proof.
  induction l as [|y r IH]; simpl; intros Hs.
  - constructor; constructor.
  - inversion Hs as [|? ? Hs' Hall]; subst. cbv beta.
    destruct (Z.leb_spec (key y - key x) 0) as [Hle|Hgt].
    + constructor; [exact Hs|]. constructor; [lia|].
      rewrite Forall_forall in *. intros z Hz. specialize (Hall z Hz). lia.
    + constructor; [now apply IH|].
      rewrite Forall_forall in *. intros z Hz.
      apply (Permutation_in _ (insertSorted_perm (fun a b : A => key b - key a) x r)) in Hz as [<-|Hz];
        [lia | now apply Hall].
Qed.

Lemma insertSorted_stable (s : Z) (x : A) (l : list A) :
  filter (fun a => key a =? s) (insertSorted (fun a b : A => key b - key a) x l)
  = filter (fun a => key a =? s) (x :: l).
Proof.
  induction l as [|y r IH]; simpl; [reflexivity|].
  destruct (Z.leb_spec (key y - key x) 0) as [Hle|Hgt]; [reflexivity|].
  simpl. rewrite IH. simpl.
  destruct (Z.eqb_spec (key x) s), (Z.eqb_spec (key y) s); try reflexivity. lia.
Qed.

Lemma stableSort_descending (l : list A) :
  StronglySorted (fun a b => key b <= key a) (stableSort (fun a b : A => key b - key a) l)
  /\ forall s, filter (fun a => key a =? s) (stableSort (fun a b : A => key b - key a) l)
               = filter (fun a => key a =? s) l.
Proof.
  induction l as [|x l [IH1 IH2]]; simpl; [split; [constructor | reflexivity]|].
  split; [now apply insertSorted_descending|].
  intros s. rewrite insertSorted_stable. simpl. now rewrite IH2.
Qed.

End StableSort.

(** X15. the rankings sent when the round ends list every player of the
    table once, with id, name and score, the higher score first, and
    players of equal score in the order of the table. *)
Theorem rankings_sorted_and_stable (g : Game.t) :
  let entries :=
    map (fun kp => Ranking.mk (fst kp) (Player.name (snd kp)) (Player.score (snd kp)))
        (Game.players g) in
  Permutation (rankings g) entries
  /\ StronglySorted (fun a b => Ranking.score b <= Ranking.score a) (rankings g)
  /\ forall s, filter (fun a => Ranking.score a =? s) (rankings g)
               = filter (fun a => Ranking.score a =? s) entries.
Proof.
  intros entries. unfold rankings. fold entries.
  split; [apply stableSort_perm|].
  apply (stableSort_descending Ranking.score).
Qed.

(** ** The registry of games *)

Section Registry.

Lemma filter_all {A : Type} (f : A -> bool) (l : list A) :
  (forall x, In x l -> f x = true) -> filter f l = l.
Proof.
  induction l as [|x l IH]; simpl; intros H; [reflexivity|].
  rewrite (H x) by now left. f_equal. apply IH. intros y Hy. apply H. now right.
Qed.

Lemma filter_filter {A : Type} (f h : A -> bool) (l : list A) :
  filter f (filter h l) = filter (fun x => h x && f x) l.
Proof.
  induction l as [|x l IH]; simpl; [reflexivity|].
  destruct (h x); simpl; [destruct (f x)|]; now rewrite IH.
Qed.

Lemma JsMap_delete_filter {V : Type} (k : jsstring) (m : list (jsstring * V)) :
  NoDup (JsMap.keys m) ->
  JsMap.delete k m = filter (fun e => negb (str_eqb (fst e) k)) m.
Proof.
  induction m as [|[k' v'] m IH]; simpl; intros Hnd; [reflexivity|].
  inversion Hnd as [|? ? Hn Hnd']; subst.
  str_cases k' k; simpl.
  - subst k'. symmetry. apply filter_all. intros [k0 v0] H0. simpl.
    apply negb_true_iff, str_eqb_neq. intros ->. apply Hn.
    now apply (in_map fst) in H0.
  - now rewrite IH.
Qed.

Lemma NoDup_keys_filter {V : Type} (f : jsstring * V -> bool) (m : list (jsstring * V)) :
  NoDup (JsMap.keys m) -> NoDup (JsMap.keys (filter f m)).
Proof.
  induction m as [|[k v] m IH]; simpl; intros Hnd; [constructor|].
  inversion Hnd as [|? ? Hn Hnd']; subst.
  destruct (f (k, v)); [|now apply IH]. simpl. constructor; [|now apply IH].
  intros F. apply Hn. unfold JsMap.keys in *.
  apply in_map_iff in F as (e & <- & He). apply in_map.
  now apply filter_In in He as [He _].
Qed.

Lemma sweep_as_filter (now : Z) (l acc : list (jsstring * Game.t)) :
  NoDup (JsMap.keys acc) ->
  fold_left
    (fun acc entry =>
       if expired now (snd entry) then JsMap.delete (fst entry) acc else acc)
    l acc
  = filter (fun e => negb (existsb (fun x => expired now (snd x)
                                             && str_eqb (fst e) (fst x)) l))
           acc.
Proof.
  revert acc; induction l as [|x l IH]; intros acc Hnd; simpl.
  - symmetry. apply filter_all. reflexivity.
  - destruct (expired now (snd x)) eqn:Ex; simpl.
    + rewrite IH by (rewrite JsMap_delete_filter by exact Hnd;
                     now apply NoDup_keys_filter).
      rewrite JsMap_delete_filter by exact Hnd. rewrite filter_filter.
      apply filter_ext. intros e. rewrite negb_orb. reflexivity.
    + now apply IH.
Qed.

End Registry.

(** X16. on a registry that holds every id once, the periodic sweep
    removes exactly the games that have ended and whose round started
    more than 30 minutes ago, keeping the others in their order; a game
    that is not ended, or that has no start time (a start time of 0
    counts as none), is never removed, however old; sweeping twice at
    the same time is sweeping once. *)
Theorem cleanup_removes_old_ended (games : list (jsstring * Game.t)) (now : Z) :
  NoDup (JsMap.keys games) ->
  cleanupOldGames games now = filter (fun e => negb (expired now (snd e))) games
  /\ (forall id game,
         In (id, game) (cleanupOldGames games now) <->
         In (id, game) games
         /\ ~ (Game.status game = ended
               /\ exists s, Game.startTime game = Some s /\ s <> 0
                            /\ 1800000 < now - s))
  /\ cleanupOldGames (cleanupOldGames games now) now = cleanupOldGames games now.
Proof.
  intros Hnd.
  assert (E : forall gs, NoDup (JsMap.keys gs) ->
                cleanupOldGames gs now
                = filter (fun e => negb (expired now (snd e))) gs).
  { intros gs Hgs. unfold cleanupOldGames. rewrite sweep_as_filter by exact Hgs.
    apply filter_ext_in. intros e He. f_equal.
    destruct (expired now (snd e)) eqn:Ee.
    - apply existsb_exists. exists e. split; [exact He|].
      now rewrite Ee, str_eqb_refl.
    - destruct (existsb _ gs) eqn:Ex; [|reflexivity].
      apply existsb_exists in Ex as (x & Hx & H).
      apply andb_true_iff in H as [H1 H2]. apply str_eqb_eq in H2.
      destruct e as [k v], x as [k' v']. simpl in *. subst k'.
      assert (v = v').
      { pose proof (JsMap_In_get _ _ _ Hgs He) as G1.
        pose proof (JsMap_In_get _ _ _ Hgs Hx) as G2. congruence. }
      subst v'. congruence. }
  assert (X : forall game,
             expired now game = true <->
             (Game.status game = ended
              /\ exists s, Game.startTime game = Some s /\ s <> 0
                           /\ 1800000 < now - s)).
  { intros game. unfold expired, gameAge, OLD_GAME_THRESHOLD.
    rewrite andb_true_iff, status_eqb_eq, Z.ltb_lt.
    destruct (Game.startTime game) as [s|].
    - destruct (Z.eqb_spec s 0) as [->|Hs].
      + split; [lia|]. intros (_ & s' & [= <-] & F & _). congruence.
      + split.
        * intros [H1 H2]. split; [exact H2|]. exists s. repeat split; [exact Hs | lia].
        * intros (H1 & s' & [= <-] & _ & H2). split; [lia | exact H1].
    - split; [lia|]. intros (_ & s' & F & _). discriminate. }
  split; [now apply E|]. split.
  - intros id game. rewrite (E games Hnd), filter_In. simpl.
    rewrite negb_true_iff, <- X. destruct (expired now game); intuition congruence.
  - rewrite (E games Hnd).
    rewrite E by now apply NoDup_keys_filter.
    rewrite filter_filter. apply filter_ext. intros e.
    now destruct (expired now (snd e)).
Qed.

Lemma cleanup_removes_old_ended_witness :
  cleanupOldGames demoGames 1801000 = demoGames
  /\ cleanupOldGames demoGames 1801001 = [(js "XYZ789", demoRound demoExclusive)]
  /\ cleanupOldGames (cleanupOldGames demoGames 1801001) 1801001
     = cleanupOldGames demoGames 1801001.
Proof.
  assert (Hnd : NoDup (JsMap.keys demoGames)).
  { repeat constructor; simpl; [intros [F|[]]; discriminate | tauto]. }
  destruct (cleanup_removes_old_ended demoGames 1801000 Hnd) as (H1 & _).
  destruct (cleanup_removes_old_ended demoGames 1801001 Hnd) as (H2 & _ & H3).
  split; [|split].
  - rewrite H1. vm_compute. reflexivity.
  - rewrite H2. vm_compute. reflexivity.
  - exact H3.
Defined.

(** X17. the first socket to join a game that was just created is
    accepted as its host and is its only player, connected and with
    score 0; creating takes the id whatever was registered under it
    before, and neither creating nor joining touches a game registered
    under another id. *)
Theorem first_to_join_is_host (env : Environment) (games : list (jsstring * Game.t))
        (id socketId playerName : jsstring) (letters : list jsstring)
        (options : Options) :
  let created := registerGame games id letters options in
  let joined := onJoinGame (fst created) socketId id playerName in
  JsMap.get id (fst created) = Some (createGame id letters options)
  /\ snd joined = JoinOk true
  /\ (exists game,
         JsMap.get id (fst joined) = Some game
         /\ Game.hostId game = Some socketId
         /\ Game.players game = [(socketId, Player.mk socketId playerName 0 true)]
         /\ Game.status game = waiting)
  /\ forall other, other <> id -> JsMap.get other (fst joined) = JsMap.get other games.
Proof.
  intros created joined. unfold joined, created, registerGame, onJoinGame.
  cbn [fst snd]. rewrite JsMap_get_set_same.
  unfold joinGame. cbn. rewrite str_eqb_refl.
  repeat split.
  - eexists. rewrite JsMap_get_set_same. split; [reflexivity|]. cbn. auto.
  - intros other Hne. now rewrite !JsMap_get_set_other.
Qed.

(** ** Doing it twice *)

(** X18. when no two players share a socket id, a second disconnection of
    the same socket changes nothing: the player stays disconnected and
    the host stays who it became. *)
Theorem disconnect_idempotent (g : Game.t) (socketId : jsstring) :
  NoDup (JsMap.keys (Game.players g)) ->
  disconnect (disconnect g socketId) socketId = disconnect g socketId.
Proof.
  intros Hnd. unfold disconnect at 2 3.
  destruct (JsMap.get socketId (Game.players g)) as [player|] eqn:Hget.
  2:{ unfold disconnect. now rewrite Hget. }
  set (gone := Player.with_connected player false).
  set (players' := JsMap.set socketId gone (Game.players g)).
  assert (Hget' : JsMap.get socketId players' = Some gone)
    by apply JsMap_get_set_same.
  assert (Hset : JsMap.set socketId (Player.with_connected gone false) players'
                 = players')
    by (unfold players'; rewrite JsMap_set_set; reflexivity).
  assert (Hnd' : NoDup (JsMap.keys players')) by now apply JsMap_NoDup_set.
  destruct (isHostId socketId (Game.hostId g)) eqn:Eh.
  - destruct (find (fun kp => Player.connected (snd kp)) players')
      as [[i p]|] eqn:Ef.
    + assert (Hne : str_eqb socketId i = false).
      { apply str_eqb_neq. intros <-. apply find_some in Ef as [Hin Hc].
        simpl in Hc. pose proof (JsMap_In_get _ _ _ Hnd' Hin) as G.
        rewrite Hget' in G. injection G as <-. discriminate. }
      unfold disconnect.
      change (Game.players (Game.with_hostId (Game.with_players g players') (Some i)))
        with players'.
      change (Game.hostId (Game.with_hostId (Game.with_players g players') (Some i)))
        with (Some i).
      rewrite Hget', Hset. cbn [isHostId]. rewrite Hne. reflexivity.
    + unfold disconnect.
      change (Game.players (Game.with_players g players')) with players'.
      change (Game.hostId (Game.with_players g players')) with (Game.hostId g).
      rewrite Hget', Hset, Eh, Ef. reflexivity.
  - unfold disconnect.
    change (Game.players (Game.with_players g players')) with players'.
    change (Game.hostId (Game.with_players g players')) with (Game.hostId g).
    rewrite Hget', Hset, Eh. reflexivity.
Qed.

Lemma disconnect_idempotent_witness :
  disconnect (disconnect demoLobby (js "s1")) (js "s1") = disconnect demoLobby (js "s1").
Proof.
  apply disconnect_idempotent.
  repeat constructor; simpl; intuition discriminate.
Defined.

(** X19. a socket that has been accepted and joins again, under any name,
    leaves the game as it is. The answer is a success, with the same
    host flag, as long as the table has fewer than 20 players; when the
    table is full the test for a full game comes first, and the player
    who took the last place is told 'Spelet är fullt'. *)
Theorem join_twice (env : Environment) (g g' : Game.t)
        (socketId playerName playerName' : jsstring) (isHost : bool) :
  joinGame g socketId playerName = (g', JoinOk isHost) ->
  isHost = isHostId socketId (Game.hostId g')
  /\ (JsMap.size (Game.players g') < MAX_PLAYERS_PER_ROOM ->
      joinGame g' socketId playerName' = (g', JoinOk isHost))
  /\ (MAX_PLAYERS_PER_ROOM <= JsMap.size (Game.players g') ->
      joinGame g' socketId playerName' = (g', JoinFail GameFull)).
Proof.
  intros Hj.
  assert (H : Game.status g' <> ended
              /\ JsMap.has socketId (Game.players g') = true
              /\ isHost = isHostId socketId (Game.hostId g')).
  { revert Hj. unfold joinGame.
    destruct (status_eqb (Game.status g) ended) eqn:Es; [discriminate|].
    assert (Hs : Game.status g <> ended)
      by (intros F; apply status_eqb_eq in F; congruence).
    destruct (_ <=? _); [discriminate|].
    destruct (JsMap.has socketId (Game.players g)) eqn:Hh.
    - intros [= <- <-]. auto.
    - destruct (existsb _ _); [discriminate|].
      intros [= <- <-]. cbn. repeat split; [exact Hs|].
      unfold JsMap.has.
      destruct (find _ (Game.players g)) as [[existingId player]|];
        now rewrite JsMap_get_set_same. }
  destruct H as (Hs & Hh & Hi). split; [exact Hi|]. split.
  - intros Hf. rewrite Hi. now apply joinGame_again.
  - intros Hf. now apply joinGame_full.
Qed.

Lemma join_twice_witness :
  joinGame (env := demoEnv) demoFull [112; 84]%N (js "again")
  = (demoFull, JoinFail GameFull)
  /\ joinGame (env := demoEnv) demoLobby (js "s2") (js "again")
     = (demoLobby, JoinOk false).
Proof.
  split.
  - assert (H : joinGame (env := demoEnv) demoAlmostFull [112; 84]%N [110; 84]%N
                = (demoFull, JoinOk false)) by (vm_compute; reflexivity).
    apply (proj2 (proj2 (join_twice demoEnv _ _ _ _ (js "again") _ H))).
    vm_compute. discriminate.
  - assert (H : joinGame (env := demoEnv) demoLobby (js "s2") (js "Bo")
                = (demoLobby, JoinOk false)) by (vm_compute; reflexivity).
    apply (proj1 (proj2 (join_twice demoEnv _ _ _ _ (js "again") _ H))).
    vm_compute. reflexivity.
Defined.

(** ** Looking words up *)

(** X20. with the dictionary loaded from a text, a word is a valid
    Swedish word exactly when its upper-cased form has at least two code
    units and is the upper-cased form of a trimmed line of the text: the
    case of the word, and the case and surrounding white space of the
    line, do not matter, and no one-letter word is valid. *)
Theorem dictionary_lookup (env : Environment) (text word : jsstring) :
  wordList = loadWordList (Some text) ->
  isValidSwedishWord word = true <->
  (2 <= length (toUpperCase word))%nat
  /\ exists line, In line (splitOn 10 text)
                  /\ toUpperCase word = toUpperCase (trim line).
Proof.
  intros Hw. unfold isValidSwedishWord. rewrite JsSet_has_In, Hw.
  change (loadWordList (Some text)) with (parseWordList text).
  rewrite (parseWordList_In env text (toUpperCase word)).
  split.
  - intros [Hl (line & H1 & _ & H2)]. eauto.
  - intros [Hl (line & H1 & H2)]. split; [exact Hl|]. exists line.
    repeat split; try assumption. now apply (splitOn_no_separator 10 text).
Qed.

Lemma dictionary_lookup_witness :
  isValidSwedishWord (env := loadedEnv) (js "katt") = true.
Proof.
  apply (dictionary_lookup loadedEnv demoResponse (js "katt") eq_refl).
  split; [simpl; lia|]. exists (js " Katt"). split; [|reflexivity].
  right. left. reflexivity.
Defined.

(** ** What is shown in exclusive mode, and the time remaining *)

(** X21. in a reachable exclusive session every client is shown the whole
    ledger, in the order the words were claimed, each claim with its
    word, and no word twice. *)
Theorem exclusive_claims_shown (env : Environment) (g : Game.t)
        (forPlayerId : option jsstring) (now : Z) :
  reachable g ->
  Game.mode g = exclusive ->
  map ClaimView.word (GameState.claims (getGameState g forPlayerId now))
  = map Some (JsMap.keys (Game.claims g))
  /\ map ClaimView.playerId (GameState.claims (getGameState g forPlayerId now))
     = map (fun kc => Claim.playerId (snd kc)) (Game.claims g)
  /\ NoDup (map ClaimView.word (GameState.claims (getGameState g forPlayerId now))).
Proof.
  intros Hr Hm. destruct (reachable_ledgerInv g Hr) as (Hnd & H2 & _).
  assert (E : map ClaimView.word (GameState.claims (getGameState g forPlayerId now))
              = map Some (JsMap.keys (Game.claims g))).
  { unfold getGameState. simpl. rewrite Hm. unfold JsMap.keys.
    rewrite !map_map. apply map_ext_in. intros [k c] Hkc. simpl.
    destruct (H2 Hm k c Hkc) as (Hnone & _). unfold claimedWord. now rewrite Hnone. }
  split; [exact E|]. split.
  - unfold getGameState. simpl. rewrite Hm. now rewrite map_map.
  - rewrite E. apply Finite.Injective_map_NoDup; [|exact Hnd].
    intros a b [= ->]. reflexivity.
Qed.

Lemma exclusive_claims_shown_witness :
  map ClaimView.word
      (GameState.claims
         (getGameState (demoClaimed demoExclusive (js "katt")) (Some (js "s2")) 15000))
  = [Some (js "KATT")].
Proof.
  apply (exclusive_claims_shown demoEnv (demoClaimed demoExclusive (js "katt"))).
  - unfold demoClaimed, demoRound. do 2 apply reachable_run.
    apply reachable_created, demoLetters_generated.
  - reflexivity.
Defined.

(** X22. while a reachable session is playing, with a start time other
    than 0, the time remaining that is shown is never negative, it is 0
    exactly at the times when a tick of the timer would end the round,
    and it does not exceed a duration that is not negative once the
    start time has passed. *)
Theorem time_remaining_agrees (env : Environment) (g : Game.t)
        (forPlayerId : option jsstring) (now s : Z) :
  reachable g ->
  Game.status g = playing ->
  Game.startTime g = Some s ->
  s <> 0 ->
  let remaining := GameState.timeRemaining (getGameState g forPlayerId now) in
  0 <= remaining
  /\ (remaining = 0 <-> Game.status (timerTick g now) = ended)
  /\ (s <= now -> 0 <= Game.duration g -> remaining <= Game.duration g).
Proof.
  intros Hr Hs Ht Hne remaining.
  destruct (reachable_lifecycleInv g Hr) as (_ & Hp & _).
  destruct (Hp Hs) as (_ & Hi).
  unfold remaining, getGameState, timerTick, elapsedSeconds. simpl.
  rewrite Ht, Hi, (proj2 (Z.eqb_neq s 0) Hne).
  split; [lia|]. split.
  - destruct (Z.leb_spec (Z.max 0 (Game.duration g - (now - s) / 1000)) 0) as [H|H].
    + split; [reflexivity | lia].
    + rewrite Hs. split; [lia | discriminate].
  - intros Hn Hd.
    assert (0 <= (now - s) / 1000) by (apply Z.div_pos; lia). lia.
Qed.

Lemma time_remaining_agrees_witness :
  let g := run (env := demoEnv) demoAlone [StartGame (js "s1") 1000] in
  0 <= GameState.timeRemaining (getGameState g None 31000)
  /\ GameState.timeRemaining (getGameState g None 31000) <= Game.duration g.
Proof.
  intros g.
  assert (Hr : reachable (env := demoEnv) g).
  { unfold g, demoAlone. do 2 apply reachable_run.
    apply reachable_created, demoLetters_generated. }
  destruct (time_remaining_agrees demoEnv g None 31000 1000 Hr eq_refl eq_refl)
    as (H1 & _ & H3); [discriminate|].
  split; [exact H1|]. apply H3; [lia | vm_compute; discriminate].
Defined.
